(** * Ensemble evaluation on CLINC intent detection

    A shallow embedding of [baselines/clinc_intent/ensemble.py]: the two
    ensemble losses [ensemble_negative_log_likelihood] and
    [gibbs_cross_entropy], and the driver [main] with its logit cache.

    Tensors of floats are embedded as nested lists of real numbers: the
    development reasons about the exact real-valued semantics of the
    TensorFlow reductions, and rounding is not part of the model.  Logits
    have rank 3, [[ensemble_size, batch, num_classes]], and labels rank 1,
    as in [main]; further batch axes would only be flattened.  An operation
    that raises (or, on an accelerator, yields NaN) returns [None].  The
    dtype of a tensor is kept where the code depends on it: TensorFlow
    converts no dtype implicitly, so the operands of an addition must agree.

    [main] is embedded as a state-passing program over the files of the
    output directory, the weights the model holds and the metric objects,
    with a trace of what it does to its collaborators; the dataset provider,
    checkpoint discovery and the model are parameters ([Env]). *)

From Stdlib Require Import Reals Lra Lia ZArith Ascii String.
From stdpp Require Import base option list strings gmap pretty.

Open Scope R_scope.

(** ** TensorFlow primitives used by the script *)

Module TF.

(** The floating-point dtypes of a logits tensor. *)
Inductive DType := float16 | bfloat16 | float32 | float64.

#[global] Instance DType_eq_dec : EqDecision DType.
Proof. solve_decision. Defined.

(** [x + y] for a tensor [x] of dtype [dx] and a scalar tensor [y] of dtype
    [dy]: the dtypes must be the same, otherwise the operation raises. *)
Definition add (dx dy : DType) (x : list R) (y : R) : option (list R) :=
  if decide (dx = dy) then Some (map (λ v, v + y) x) else None.

Definition reduce_sum (xs : list R) : R := foldr Rplus 0 xs.

(** [tf.reduce_mean] over one axis: the sum divided by the extent. *)
Definition reduce_mean (xs : list R) : R := reduce_sum xs / INR (length xs).

(** The shift of the stabilised kernels: the maximum of the reduced
    entries, and 0 where that maximum is not finite (an empty reduction). *)
Definition stable_shift (xs : list R) : R :=
  match xs with
  | [] => 0
  | x :: t => foldr Rmax x t
  end.

Definition shifted_exp (xs : list R) : list R :=
  let m := stable_shift xs in map (λ x, exp (x - m)) xs.

(** [tf.reduce_logsumexp]: [log(sum(exp(x - max))) + max]. *)
Definition reduce_logsumexp (xs : list R) : R :=
  ln (reduce_sum (shifted_exp xs)) + stable_shift xs.

(** [tf.nn.softmax] along the class axis. *)
Definition softmax (logits : list R) : list R :=
  let e := shifted_exp logits in map (λ x, x / reduce_sum e) e.

(** [tf.cast(_, tf.int32)] on an integer: two's complement wrap-around. *)
Definition cast_int32 (z : Z) : Z := ((z + 2 ^ 31) mod 2 ^ 32 - 2 ^ 31)%Z.

(** The loss of one example, for a label inside the class range. *)
Definition xent_value (label : nat) (logits : list R) : R :=
  ln (reduce_sum (shifted_exp logits))
  - (nth label logits 0 - stable_shift logits).

Definition label_in_range (label : Z) (num_classes : nat) : bool :=
  bool_decide (0 ≤ label)%Z && bool_decide (label < Z.of_nat num_classes)%Z.

(** [tf.nn.sparse_softmax_cross_entropy_with_logits] for one example. *)
Definition sparse_xent (label : Z) (logits : list R) : option R :=
  if label_in_range label (length logits)
  then Some (xent_value (Z.to_nat label) logits)
  else None.

(** The same over a batch: labels [[B]], logits [[B, C]]. *)
Definition sparse_softmax_cross_entropy_with_logits
    (labels : list Z) (logits : list (list R)) : option (list R) :=
  if bool_decide (length labels = length logits)
  then mapM (λ p, sparse_xent p.1 p.2) (zip labels logits)
  else None.

(** Shape of a rank-3 tensor given as nested lists; [None] when the
    nesting is ragged or the outer list is empty, where
    [tf.convert_to_tensor] does not produce a rank-3 tensor. *)
Definition shape3 (t : list (list (list R))) : option (nat * nat * nat) :=
  match t with
  | [] => None
  | member :: _ =>
      let B := length member in
      let C := length (hd [] member) in
      if forallb (λ mem, Nat.eqb (length mem) B
                         && forallb (λ row, Nat.eqb (length row) C) mem) t
      then Some (length t, B, C)
      else None
  end.

(** [tf.broadcast_to(labels[tf.newaxis, ...], [M, B])] for a label vector. *)
Definition broadcast_to (labels : list Z) (M B : nat) : option (list (list Z)) :=
  if bool_decide (length labels = B) then Some (replicate M labels)
  else match labels with
       | [l] => Some (replicate M (replicate B l))
       | _ => None
       end.

(** A reduction along axis 0 of an [[M, B]] matrix. *)
Definition reduce_axis0 (f : list R → R) (B : nat) (rows : list (list R)) : list R :=
  map (λ i, f (map (λ row, nth i row 0) rows)) (seq 0 B).

(** A reduction along axis 0 of an [[M, B, C]] tensor. *)
Definition reduce_axis0_3 (f : list R → R) (B C : nat)
    (t : list (list (list R))) : list (list R) :=
  map (λ i, reduce_axis0 f C (map (λ member, nth i member []) t)) (seq 0 B).

End TF.

(** ** The two ensemble losses *)

(** The lines the two functions share (68-73 and 96-100): cast the labels,
    take the shape of the logits, broadcast the labels along the ensemble
    axis and take the cross-entropy member by member.  Returns
    [logits.shape[0]], the batch size and the [[M, B]] matrix [nll]. *)
Definition member_nll (labels : list Z) (logits : list (list (list R)))
    : option (nat * nat * list (list R)) :=
  let labels := map TF.cast_int32 labels in
  match TF.shape3 logits with
  | Some (M, B, _) =>
      bl ← TF.broadcast_to labels M B;
      nll ← mapM (λ p, TF.sparse_softmax_cross_entropy_with_logits p.1 p.2)
                 (zip bl logits);
      Some (M, B, nll)
  | None => None
  end.

(** [dtype] is the dtype of [logits], and so of [nll] and of its
    logsumexp.  [ensemble_size] is a Python float, whose [tf.math.log] is a
    float32 tensor: the addition of line 74 raises for logits of another
    dtype. *)
Definition ensemble_negative_log_likelihood (dtype : TF.DType)
    (labels : list Z) (logits : list (list (list R))) : option (list R) :=
  match member_nll labels logits with
  | Some (M, B, nll) =>
      let ensemble_size := INR M in
      TF.add dtype TF.float32
        (map Ropp (TF.reduce_axis0 TF.reduce_logsumexp B (map (map Ropp) nll)))
        (ln ensemble_size)
  | None => None
  end.

Definition gibbs_cross_entropy
    (labels : list Z) (logits : list (list (list R))) : option (list R) :=
  match member_nll labels logits with
  | Some (_, B, nll) => Some (TF.reduce_axis0 TF.reduce_mean B nll)
  | None => None
  end.

(** The ensemble prediction of [main]:
    [probs = tf.reduce_mean(tf.nn.softmax(logits), axis=0)]. *)
Definition ensemble_probs (logits : list (list (list R))) : option (list (list R)) :=
  match TF.shape3 logits with
  | Some (_, B, C) =>
      let per_probs := map (map TF.softmax) logits in
      Some (TF.reduce_axis0_3 TF.reduce_mean B C per_probs)
  | None => None
  end.

(** ** The driver: flags, collaborators and the world it acts on *)

(** Flags read by [main]; all but [checkpoint_dir] are inherited from the
    training binary. *)
Record Flags := {
  use_gpu : bool;
  num_cores : Z;
  seed : Z;
  output_dir : string;
  dataset_dir : string;
  per_core_batch_size : Z;
  model_family : string;
  checkpoint_dir : string;
  num_bins : Z;
}.

(** One test example: the token ids fed to the model and the intent label. *)
Record Example := { features : list Z; label : Z }.

Definition Batch : Type := list Example.

(** Contents of a [.npy] cache file: one row of logits per example.  The
    arrays are those a Keras model returns, float32 ([main] sets no other
    policy), and [np.save], [np.load] and [tf.convert_to_tensor] keep the
    dtype. *)
Definition Npy : Type := list (list R).

(** The external collaborators: the dataset provider, checkpoint discovery
    and the model. *)
Record Env := {
  (** [builder.info['num_test_examples']] of the builder with this data mode *)
  num_test_examples : string → Z;
  (** the batches [builder.build(split=TEST)] yields, in order *)
  test_split : string → list Batch;
  (** [tf.io.gfile.glob] *)
  glob : string → list string;
  (** the forward pass [model(features, training=False)] with the weights
      of the restored checkpoint *)
  model_call : option string → list (list Z) → Npy;
}.

(** Modelled from the spec: [deterministic.create_feature_and_label] is not
    among the sources; a batch of the dataset provider holds (input, label)
    pairs and the helper returns the inputs and the labels of the batch. *)
Definition create_feature_and_label (inputs : Batch) : list (list Z) * list Z :=
  (map features inputs, map label inputs).

Inductive LogMsg :=
| LogModelInputShape
| LogModelOutputShape
| LogModelWeights
| LogEnsembleSize (ensemble_size : nat)
| LogEnsembleWeights (ensemble_size : nat)
| LogEnsembleFilenames (filenames : list string)
  (** ['{:.1%} completion for prediction: ensemble member {:d}/{:d}. Dataset {:d}/{:d}'] *)
| LogPrediction (percent : R) (member ensemble_size dataset num_datasets : nat)
  (** ['{:.1%} completion for evaluation: dataset {:d}/{:d}'] *)
| LogEvaluation (percent : R) (dataset num_datasets : nat)
| LogMetrics (names : list string).

(** What the script does to the outside, in the order it does it. *)
Inductive Event :=
| EvEnableV2
| EvSetSeed (s : Z)
| EvMakeDirs (dir : string)
| EvDatasetBuilder (data_mode : string) (batch_size : Z) (dir : string)
| EvBuildSplit (dataset : string)
| EvCreateModel (family : string)
| EvGlob (pattern : string)
| EvRestore (checkpoint : string)
| EvForward (member : nat) (dataset : string) (inputs : list (list Z))
| EvWrite (path : string)
| EvRead (path : string)
| EvLog (msg : LogMsg).

(** One [update_state] call on a metric object. *)
Inductive Update :=
| UpdValue (v : R)
| UpdPrediction (labels : list Z) (probs : list (list R)).

Record World := {
  (** the files under the output directory *)
  fs : gmap string Npy;
  (** the checkpoint whose weights the model holds *)
  weights : option string;
  (** the [metrics] dictionary: every metric with the updates it received *)
  metrics : gmap string (list Update);
  trace : list Event;
}.

Inductive Exn :=
| ValueError (msg : string)
| ZeroDivisionError
| StopIteration
| NotFoundError (path : string)
| KeyError (key : string)
| InvalidArgumentError.

Inductive Result (A : Type) :=
| Ok (a : A)
| Raise (e : Exn).
Arguments Ok {A} a.
Arguments Raise {A} e.

(** Computations of the script: they read and change the world and either
    return or raise; the world at the raise is kept. *)
Definition Run (A : Type) : Type := World → Result A * World.

#[global] Instance run_ret : MRet Run := λ A a w, (Ok a, w).

#[global] Instance run_bind : MBind Run := λ A B f c w,
  match c w with
  | (Ok a, w') => f a w'
  | (Raise e, w') => (Raise e, w')
  end.

Definition raise {A} (e : Exn) : Run A := λ w, (Raise e, w).

Definition emit (e : Event) : Run unit := λ w,
  (Ok tt, {| fs := fs w; weights := weights w; metrics := metrics w;
             trace := trace w ++ [e] |}).

Definition lift_option {A} (e : Exn) (o : option A) : Run A :=
  match o with
  | Some a => mret a
  | None => raise e
  end.

(** [for x in xs: body(x)] *)
Fixpoint for_each {A} (body : A → Run unit) (xs : list A) : Run unit :=
  match xs with
  | [] => mret tt
  | x :: xs' => body x ;; for_each body xs'
  end.

Definition enumerate {A} (xs : list A) : list (nat * A) :=
  zip (seq 0 (length xs)) xs.

(** *** Strings and paths *)

Definition lower_char (c : ascii) : ascii :=
  let n := nat_of_ascii c in
  if (65 <=? n)%nat && (n <=? 90)%nat then ascii_of_nat (n + 32) else c.

(** [str.lower] on the ASCII letters. *)
Fixpoint lower (s : string) : string :=
  match s with
  | EmptyString => EmptyString
  | String c s' => String (lower_char c) (lower s')
  end.

Fixpoint ends_with_sep (s : string) : bool :=
  match s with
  | EmptyString => false
  | String c EmptyString => Ascii.eqb c "/"
  | String _ s' => ends_with_sep s'
  end.

(** [os.path.join(a, b)] of posixpath. *)
Definition os_path_join (a b : string) : string :=
  if String.prefix "/" b then b
  else if String.eqb a "" || ends_with_sep a then a +:+ b
  else a +:+ "/" +:+ b.

(** [filename[:-6]] *)
Definition drop_index_suffix (filename : string) : string :=
  substring 0 (String.length filename - 6) filename.

(** [os.path.join(FLAGS.output_dir, '{dataset}_{member}.npy')] *)
Definition cache_filename (flags : Flags) (dataset : string) (member : nat) : string :=
  os_path_join (output_dir flags) (dataset +:+ "_" +:+ pretty member +:+ ".npy").

(** *** File system, model and metrics *)

Definition gfile_exists (path : string) : Run bool := λ w,
  (Ok (bool_decide (is_Some (fs w !! path))), w).

(** [np.save] through [tf.io.gfile.GFile(filename, 'w')] *)
Definition np_save (path : string) (contents : Npy) : Run unit := λ w,
  (Ok tt, {| fs := <[path := contents]> (fs w); weights := weights w;
             metrics := metrics w; trace := trace w ++ [EvWrite path] |}).

(** [np.load] through [tf.io.gfile.GFile(filename, 'rb')] *)
Definition np_load (path : string) : Run Npy := λ w,
  match fs w !! path with
  | Some contents =>
      (Ok contents, {| fs := fs w; weights := weights w; metrics := metrics w;
                       trace := trace w ++ [EvRead path] |})
  | None => (Raise (NotFoundError path), w)
  end.

(** [checkpoint.restore(ensemble_filename)] *)
Definition restore (checkpoint : string) : Run unit := λ w,
  (Ok tt, {| fs := fs w; weights := Some checkpoint; metrics := metrics w;
             trace := trace w ++ [EvRestore checkpoint] |}).

(** One forward pass; [member] and [dataset] only label the event. *)
Definition forward (env : Env) (member : nat) (dataset : string)
    (inputs : list (list Z)) : Run Npy := λ w,
  (Ok (model_call env (weights w) inputs),
   {| fs := fs w; weights := weights w; metrics := metrics w;
      trace := trace w ++ [EvForward member dataset inputs] |}).

(** [tf.concat(logits, axis=0)]: an empty list of tensors makes the eager
    op raise [InvalidArgumentError]. *)
Definition tf_concat (parts : list Npy) : Run Npy :=
  match parts with
  | [] => raise InvalidArgumentError
  | _ => mret (concat parts)
  end.

Definition set_metrics (m : gmap string (list Update)) : Run unit := λ w,
  (Ok tt, {| fs := fs w; weights := weights w; metrics := m; trace := trace w |}).

Definition get_metrics : Run (gmap string (list Update)) := λ w, (Ok (metrics w), w).

(** [metrics[name].update_state(...)] *)
Definition update_state (name : string) (u : Update) : Run unit :=
  m ← get_metrics;
  match m !! name with
  | Some us => set_metrics (<[name := us ++ [u]]> m)
  | None => raise (KeyError name)
  end.

(** [d[key]] on a dictionary kept in insertion order. *)
Fixpoint dict_get {V} (key : string) (d : list (string * V)) : option V :=
  match d with
  | [] => None
  | (k, v) :: d' => if String.eqb k key then Some v else dict_get key d'
  end.

(** Python's [a // b] on integers. *)
Definition floordiv (a b : Z) : Run Z :=
  if (b =? 0)%Z then raise ZeroDivisionError else mret (a / b)%Z.

(** Python's slice [l[a:b]]. *)
Definition slice_index (len i : Z) : Z :=
  if (i <? 0)%Z then Z.max 0 (i + len) else Z.min i len.

Definition py_slice {A} (a b : Z) (l : list A) : list A :=
  let len := Z.of_nat (length l) in
  let lo := slice_index len a in
  let hi := slice_index len b in
  take (Z.to_nat (hi - lo)) (drop (Z.to_nat lo) l).

(** *** The inference phase *)

(** [percent = (m * num_datasets + (n + 1)) / (ensemble_size * num_datasets)] *)
Definition prediction_percent (m n ensemble_size num_datasets : nat) : R :=
  INR (m * num_datasets + (n + 1)) / INR (ensemble_size * num_datasets).

(** The batches of one dataset run through the model:
    [for _ in range(steps): inputs = next(test_iterator); ...] *)
Fixpoint collect_logits (env : Env) (m : nat) (name : string)
    (steps : nat) (test_iterator : list Batch) : Run (list Npy) :=
  match steps with
  | O => mret []
  | S steps' =>
      match test_iterator with
      | [] => raise StopIteration
      | inputs :: rest =>
          let '(feats, _) := create_feature_and_label inputs in
          out ← forward env m name feats;
          outs ← collect_logits env m name steps' rest;
          mret (out :: outs)
      end
  end.

(** The body of the inner loop for member [m] and dataset number [n]. *)
Definition predict_dataset (flags : Flags) (env : Env)
    (steps_per_eval : list (string * Z)) (ensemble_size num_datasets : nat)
    (m n : nat) (name : string) (test_dataset : list Batch) : Run unit :=
  let filename := cache_filename flags name m in
  cached ← gfile_exists filename;
  (if negb cached then
     steps ← lift_option (KeyError name) (dict_get name steps_per_eval);
     parts ← collect_logits env m name (Z.to_nat steps) test_dataset;
     logits ← tf_concat parts;
     np_save filename logits
   else mret tt) ;;
  let percent := prediction_percent m n ensemble_size num_datasets in
  emit (EvLog (LogPrediction percent (m + 1) ensemble_size (n + 1) num_datasets)).

(** The body of the outer loop. *)
Definition predict_member (flags : Flags) (env : Env)
    (test_datasets : list (string * list Batch))
    (steps_per_eval : list (string * Z)) (ensemble_size : nat)
    (m : nat) (ensemble_filename : string) : Run unit :=
  let num_datasets := length test_datasets in
  restore ensemble_filename ;;
  for_each (λ '(n, (name, test_dataset)),
              predict_dataset flags env steps_per_eval ensemble_size
                num_datasets m n name test_dataset)
           (enumerate test_datasets).

(** "Write model predictions to files." *)
Definition write_predictions (flags : Flags) (env : Env)
    (test_datasets : list (string * list Batch))
    (steps_per_eval : list (string * Z))
    (ensemble_filenames : list string) : Run unit :=
  let ensemble_size := length ensemble_filenames in
  for_each (λ '(m, ensemble_filename),
              predict_member flags env test_datasets steps_per_eval
                ensemble_size m ensemble_filename)
           (enumerate ensemble_filenames).

(** *** The evaluation phase *)

(** [logits_dataset[:, a:b]]; a tensor without a second axis cannot be
    indexed this way. *)
Definition slice_examples (a b : Z) (logits_dataset : list Npy) : Run (list Npy) :=
  match logits_dataset with
  | [] => raise InvalidArgumentError
  | _ => mret (map (py_slice a b) logits_dataset)
  end.

(** [tf.convert_to_tensor] on the list of loaded arrays. *)
Definition convert_members (arrays : list Npy) : Run (list Npy) :=
  match arrays with
  | [] => mret []
  | _ => match TF.shape3 arrays with
         | Some _ => mret arrays
         | None => raise (ValueError "arrays of different shapes")
         end
  end.

Fixpoint load_members (flags : Flags) (name : string) (members : list nat)
    : Run (list Npy) :=
  match members with
  | [] => mret []
  | m :: members' =>
      a ← np_load (cache_filename flags name m);
      rest ← load_members flags name members';
      mret (a :: rest)
  end.

(** One evaluation step on batch number [step]. *)
Definition evaluate_step (name : string) (batch_size : Z)
    (logits_dataset : list Npy) (step : nat) (inputs : Batch) : Run unit :=
  let '(_, labels) := create_feature_and_label inputs in
  logits ← slice_examples (Z.of_nat step * batch_size)
                          ((Z.of_nat step + 1) * batch_size) logits_dataset;
  let labels := map TF.cast_int32 labels in
  nll ← lift_option InvalidArgumentError
          (ensemble_negative_log_likelihood TF.float32 labels logits);
  let negative_log_likelihood := TF.reduce_mean nll in
  probs ← lift_option InvalidArgumentError (ensemble_probs logits);
  if String.eqb name "clean" then
    gce ← lift_option InvalidArgumentError (gibbs_cross_entropy labels logits);
    let gibbs_ce := TF.reduce_mean gce in
    update_state "test/negative_log_likelihood" (UpdValue negative_log_likelihood) ;;
    update_state "test/gibbs_cross_entropy" (UpdValue gibbs_ce) ;;
    update_state "test/accuracy" (UpdPrediction labels probs) ;;
    update_state "test/ece" (UpdPrediction labels probs)
  else
    update_state ("test/nll_" +:+ name) (UpdValue negative_log_likelihood) ;;
    update_state ("test/accuracy_" +:+ name) (UpdPrediction labels probs) ;;
    update_state ("test/ece_" +:+ name) (UpdPrediction labels probs).

(** [for step in range(steps): inputs = next(test_iterator); ...] *)
Fixpoint evaluate_steps (name : string) (batch_size : Z)
    (logits_dataset : list Npy) (step steps : nat) (test_iterator : list Batch)
    : Run unit :=
  match steps with
  | O => mret tt
  | S steps' =>
      match test_iterator with
      | [] => raise StopIteration
      | inputs :: rest =>
          evaluate_step name batch_size logits_dataset step inputs ;;
          evaluate_steps name batch_size logits_dataset (S step) steps' rest
      end
  end.

(** The body of the evaluation loop for dataset number [n]. *)
Definition evaluate_dataset (flags : Flags)
    (steps_per_eval : list (string * Z)) (batch_size : Z)
    (ensemble_size num_datasets : nat)
    (n : nat) (name : string) (test_dataset : list Batch) : Run unit :=
  arrays ← load_members flags name (seq 0 ensemble_size);
  logits_dataset ← convert_members arrays;
  steps ← lift_option (KeyError name) (dict_get name steps_per_eval);
  evaluate_steps name batch_size logits_dataset 0 (Z.to_nat steps) test_dataset ;;
  emit (EvLog (LogEvaluation (INR (n + 1) / INR num_datasets) (n + 1) num_datasets)).

(** The metric objects created before the evaluation. *)
Definition initial_metrics (dataset_names : list string) : gmap string (list Update) :=
  let base : gmap string (list Update) :=
    <["test/ece" := []]> (<["test/accuracy" := []]>
      (<["test/gibbs_cross_entropy" := []]>
        (<["test/negative_log_likelihood" := []]> ∅))) in
  foldl (λ (acc : gmap string (list Update)) name,
           if String.eqb name "clean" then acc
           else <["test/ece_" +:+ name := []]>
                  (<["test/accuracy_" +:+ name := []]>
                    (<["test/nll_" +:+ name := []]> acc)))
        base dataset_names.

(** *** [main] *)

(** The first loop of [main]: build the test split of every dataset and
    compute its number of evaluation steps. *)
Fixpoint build_datasets (env : Env) (batch_size : Z)
    (dataset_builders : list (string * string))
    : Run (list (string * list Batch) * list (string * Z)) :=
  match dataset_builders with
  | [] => mret ([], [])
  | (dataset_name, data_mode) :: rest =>
      emit (EvBuildSplit dataset_name) ;;
      steps ← floordiv (num_test_examples env data_mode) batch_size;
      '(test_datasets, steps_per_eval) ← build_datasets env batch_size rest;
      mret ((dataset_name, test_split env data_mode) :: test_datasets,
            (dataset_name, steps) :: steps_per_eval)
  end.

(** The model family branch. *)
Definition create_model (flags : Flags) : Run unit :=
  if String.eqb (lower (model_family flags)) "textcnn" then
    emit (EvCreateModel "textcnn")
  else if String.eqb (lower (model_family flags)) "bert" then
    emit (EvCreateModel "bert")
  else
    raise (ValueError ("model_family (" +:+ model_family flags
                       +:+ ") can only be TextCNN or BERT.")).

Definition main (flags : Flags) (env : Env) : Run unit :=
  if negb (use_gpu flags) then
    raise (ValueError "Only GPU is currently supported.")
  else if (1 <? num_cores flags)%Z then
    raise (ValueError "Only a single accelerator is currently supported.")
  else
    emit EvEnableV2 ;;
    emit (EvSetSeed (seed flags)) ;;
    emit (EvMakeDirs (output_dir flags)) ;;
    emit (EvDatasetBuilder "ind" (per_core_batch_size flags) (dataset_dir flags)) ;;
    emit (EvDatasetBuilder "ood" (per_core_batch_size flags) (dataset_dir flags)) ;;
    let dataset_builders := [("clean", "ind"); ("ood", "ood")] in
    let batch_size := (per_core_batch_size flags * num_cores flags)%Z in
    '(test_datasets, steps_per_eval) ← build_datasets env batch_size dataset_builders;
    create_model flags ;;
    emit (EvLog LogModelInputShape) ;;
    emit (EvLog LogModelOutputShape) ;;
    emit (EvLog LogModelWeights) ;;
    let pattern := os_path_join (checkpoint_dir flags) "**/*.index" in
    emit (EvGlob pattern) ;;
    let ensemble_filenames := map drop_index_suffix (glob env pattern) in
    let ensemble_size := length ensemble_filenames in
    emit (EvLog (LogEnsembleSize ensemble_size)) ;;
    emit (EvLog (LogEnsembleWeights ensemble_size)) ;;
    emit (EvLog (LogEnsembleFilenames ensemble_filenames)) ;;
    write_predictions flags env test_datasets steps_per_eval ensemble_filenames ;;
    set_metrics (initial_metrics (map fst test_datasets)) ;;
    let num_datasets := length test_datasets in
    for_each (λ '(n, (name, test_dataset)),
                evaluate_dataset flags steps_per_eval batch_size ensemble_size
                  num_datasets n name test_dataset)
             (enumerate test_datasets) ;;
    m ← get_metrics;
    emit (EvLog (LogMetrics (map fst (map_to_list m)))).

(** ** The losses as the specification words them *)

Module Spec.

(** The textbook softmax: [exp z_j / sum_k exp z_k]. *)
Definition softmax (z : list R) : list R :=
  map (λ x, exp x / TF.reduce_sum (map exp z)) z.

(** Probability a member assigns to the true label. *)
Definition prob (label : nat) (z : list R) : R := nth label (softmax z) 0.

(** [nll_m = -log softmax(logits_m)[label]]. *)
Definition nll (label : nat) (z : list R) : R := - ln (prob label z).

Definition logsumexp (xs : list R) : R := ln (TF.reduce_sum (map exp xs)).

Definition mean (xs : list R) : R := TF.reduce_sum xs / INR (length xs).

(** [-logsumexp_m(-nll_m) + log(M)]. *)
Definition ensemble_nll (label : nat) (zs : list (list R)) : R :=
  - logsumexp (map (λ z, - nll label z) zs) + ln (INR (length zs)).

(** [-log((1/M) * sum_m p_m(y|x))]. *)
Definition neg_log_mean_prob (label : nat) (zs : list (list R)) : R :=
  - ln (mean (map (prob label) zs)).

(** Arithmetic mean over the members of [nll_m]. *)
Definition gibbs (label : nat) (zs : list (list R)) : R :=
  mean (map (nll label) zs).

End Spec.

(** [logits[:, i, :]]: the class scores every member gives to example [i]. *)
Definition example_logits (i : nat) (logits : list (list (list R))) : list (list R) :=
  map (λ member, nth i member []) logits.

(** A label vector of int32 class indices for [C] classes. *)
Definition valid_labels (C : nat) (labels : list Z) : Prop :=
  Forall (λ l, (0 ≤ l < Z.of_nat C)%Z ∧ (l < 2 ^ 31)%Z) labels.

(** ** Auxiliary notions for the statements *)

(** What [TF.shape3] certifies about the nesting. *)
Definition rectangular (M B C : nat) (t : list (list (list R))) : Prop :=
  length t = M ∧ (0 < M)%nat
  ∧ Forall (λ member, length member = B
                      ∧ Forall (λ row : list R, length row = C) member) t.

(** The losses of one member, label by label. *)
Definition member_losses (labels : list Z) (member : list (list R)) : list R :=
  map (λ p, TF.xent_value (Z.to_nat p.1) p.2) (zip labels member).

(** Two option results that agree up to the order of the members. *)
Definition perm_result {A} (a b : option (list A)) : Prop :=
  match a, b with
  | Some k, Some k' => k ≡ₚ k'
  | None, None => True
  | _, _ => False
  end.

(** An event the cache allows from world [w]: a forward pass or a write
    only for a pair whose cache file is missing in [w]. *)
Definition allowed (flags : Flags) (w : World) (e : Event) : Prop :=
  match e with
  | EvForward m name _ => fs w !! cache_filename flags name m = None
  | EvWrite p => fs w !! p = None
  | _ => True
  end.

(** [w'] is reached from [w] without touching an existing cache file. *)
Definition respects_cache (flags : Flags) (w w' : World) : Prop :=
  (∀ p x, fs w !! p = Some x → fs w' !! p = Some x)
  ∧ ∃ evs, trace w' = trace w ++ evs ∧ Forall (allowed flags w) evs.

(** Neither a forward pass nor a write. *)
Definition quiet_event (e : Event) : Prop :=
  match e with
  | EvForward _ _ _ | EvWrite _ => False
  | _ => True
  end.

Definition quiet (w w' : World) : Prop :=
  fs w' = fs w ∧ ∃ evs, trace w' = trace w ++ evs ∧ Forall quiet_event evs.

Definition preserves {A} (rel : World → World → Prop) (c : Run A) : Prop :=
  ∀ w r w', c w = (r, w') → rel w w'.

(** [c], started where [P] holds, is quiet and returns only values in [Q]. *)
Definition quiet_run {A} (P : World → Prop) (c : Run A) (Q : A → Prop) : Prop :=
  ∀ w r w', P w → c w = (r, w') → quiet w w' ∧ ∀ a, r = Ok a → Q a.

(** Every pair of the two loops has its cache file. *)
Definition populated (flags : Flags) (tds : list (string * list Batch)) (ckpts : list string)
    (w : World) : Prop :=
  ∀ m name, (m < length ckpts)%nat → name ∈ map fst tds →
            is_Some (fs w !! cache_filename flags name m).

(** The metrics fed by the evaluation of one dataset. *)
Definition metric_keys (name : string) : list string :=
  if String.eqb name "clean"
  then ["test/negative_log_likelihood"; "test/gibbs_cross_entropy";
        "test/accuracy"; "test/ece"]
  else ["test/nll_" +:+ name; "test/accuracy_" +:+ name; "test/ece_" +:+ name].

(** Those among them that are updated with labels and predictions. *)
Definition prediction_keys (name : string) : list string :=
  if String.eqb name "clean" then ["test/accuracy"; "test/ece"]
  else ["test/accuracy_" +:+ name; "test/ece_" +:+ name].

Definition update_labels (u : Update) : list Z :=
  match u with
  | UpdPrediction labels _ => labels
  | UpdValue _ => []
  end.

(** From [m] to [m'] every metric of the dataset received one update per
    batch of [batches], the prediction metrics with the labels of the batch. *)
Definition scored (name : string) (batches : list Batch)
    (m m' : gmap string (list Update)) : Prop :=
  ∀ key, key ∈ metric_keys name →
    ∃ us news, m !! key = Some us ∧ m' !! key = Some (us ++ news)
      ∧ length news = length batches
      ∧ (key ∈ prediction_keys name →
         map update_labels news = map (map label) batches).

(** Rows [step * batch_size, (step + 1) * batch_size) of a cached array. *)
Definition batch_rows (batch_size step : nat) (a : Npy) : Npy :=
  take batch_size (drop (step * batch_size) a).

(** What the evaluation of batch number [step] owes the metric [key]: the
    prediction of the ensemble, or the mean of one of its two losses, on the
    rows of that batch in every member's array, against the labels of the
    batch. *)
Definition step_update (name key : string) (batch_size : nat)
    (arrays : list Npy) (step : nat) (inputs : Batch) : option Update :=
  let labels := map label inputs in
  let logits := map (batch_rows batch_size step) arrays in
  if bool_decide (key ∈ prediction_keys name) then
    probs ← ensemble_probs logits;
    Some (UpdPrediction labels probs)
  else if String.eqb key "test/gibbs_cross_entropy" then
    gce ← gibbs_cross_entropy labels logits;
    Some (UpdValue (TF.reduce_mean gce))
  else
    nll ← ensemble_negative_log_likelihood TF.float32 labels logits;
    Some (UpdValue (TF.reduce_mean nll)).

(** From [m] to [m'] every metric of the dataset received, in order, the
    updates of the batches [batches], numbered from [first]: batch [step] is
    scored against the rows of batch [step] and no others. *)
Definition scored_rows (name : string) (batch_size : nat) (arrays : list Npy)
    (first : nat) (batches : list Batch)
    (m m' : gmap string (list Update)) : Prop :=
  ∀ key, key ∈ metric_keys name →
    ∃ us news, m !! key = Some us ∧ m' !! key = Some (us ++ news)
      ∧ mapM (λ '(step, inputs),
                step_update name key batch_size arrays step inputs)
             (zip (seq first (length batches)) batches) = Some news.

(** ** Notions for the further properties *)

(** [row'] is [row] with one constant added to every class score. *)
Definition shifted_row (row row' : list R) : Prop :=
  ∃ c, row' = map (λ x, x + c) row.

(** Every row of every member is shifted by a constant of its own. *)
Definition shifted_logits (logits logits' : list (list (list R))) : Prop :=
  Forall2 (Forall2 shifted_row) logits logits'.

(** From [w] to [w'] only the metrics in [keys] were fed: files and weights
    are the same, every other metric is untouched, and no metric lost an
    update. *)
Definition feeds (keys : list string) (w w' : World) : Prop :=
  fs w' = fs w ∧ weights w' = weights w
  ∧ (∀ key, key ∉ keys → metrics w' !! key = metrics w !! key)
  ∧ (∀ key us, metrics w !! key = Some us →
       ∃ news, metrics w' !! key = Some (us ++ news)).

(** The array the inference loop stores for a dataset: the outputs of the
    model, with checkpoint [ckpt] restored, on the first [steps] batches. *)
Definition member_outputs (env : Env) (ckpt : string) (steps : Z)
    (test_dataset : list Batch) : Npy :=
  concat (map (λ b, model_call env (Some ckpt) (map features b))
              (take (Z.to_nat steps) test_dataset)).

(** Both cache files of member [m] hold the outputs of checkpoint [ckpt]. *)
Definition member_cached (flags : Flags) (env : Env) (clean ood : list Batch)
    (steps_clean steps_ood : Z) (m : nat) (ckpt : string) (w : World) : Prop :=
  fs w !! cache_filename flags "clean" m
  = Some (member_outputs env ckpt steps_clean clean)
  ∧ fs w !! cache_filename flags "ood" m
    = Some (member_outputs env ckpt steps_ood ood).

(** Every member has either no cache file yet or both, with its outputs. *)
Definition cold_or_cached (flags : Flags) (env : Env) (clean ood : list Batch)
    (steps_clean steps_ood : Z) (ckpts : list string) (w : World) : Prop :=
  ∀ m ckpt, ckpts !! m = Some ckpt →
    (fs w !! cache_filename flags "clean" m = None
     ∧ fs w !! cache_filename flags "ood" m = None)
    ∨ member_cached flags env clean ood steps_clean steps_ood m ckpt w.

(** [c], started where [P] holds, raises no [KeyError] and returns only in
    worlds where [Q] holds. *)
Definition no_key_error {A} (P : World → Prop) (c : Run A)
    (Q : A → World → Prop) : Prop :=
  ∀ w r w', P w → c w = (r, w') →
    (∀ key, r ≠ Raise (KeyError key)) ∧ ∀ a, r = Ok a → Q a w'.

(** Every metric in [keys] exists. *)
Definition has_metrics (keys : list string) (w : World) : Prop :=
  ∀ key, key ∈ keys → is_Some (metrics w !! key).

(** [c], started where [P] holds, returns, in a world where [Q] holds. *)
Definition returns {A} (P : World → Prop) (c : Run A)
    (Q : A → World → Prop) : Prop :=
  ∀ w, P w → ∃ a w', c w = (Ok a, w') ∧ Q a w'.

(** The model maps a batch of inputs to one row of [C] scores per input. *)
Definition model_contract (env : Env) (C : nat) : Prop :=
  ∀ wt inputs, length (model_call env wt inputs) = length inputs
               ∧ Forall (λ row, length row = C) (model_call env wt inputs).

(** The first [steps] batches exist, are full and carry valid labels. *)
Definition full_batches (C : nat) (batch_size steps : Z)
    (test_dataset : list Batch) : Prop :=
  (1 ≤ Z.to_nat steps ≤ length test_dataset)%nat
  ∧ Forall (λ b : Batch, length b = Z.to_nat batch_size
                         ∧ valid_labels C (map label b))
           (take (Z.to_nat steps) test_dataset).

(** ** A small scenario

    One TextCNN checkpoint, five test examples per dataset and a batch size
    of two. *)

Module Scenario.

Definition flags : Flags :=
  {| use_gpu := true; num_cores := 1; seed := 0; output_dir := "out";
     dataset_dir := "data"; per_core_batch_size := 2;
     model_family := "TextCNN"; checkpoint_dir := "ckpt"; num_bins := 15 |}.

Definition cpu_flags : Flags :=
  {| use_gpu := false; num_cores := 1; seed := 0; output_dir := "out";
     dataset_dir := "data"; per_core_batch_size := 2;
     model_family := "TextCNN"; checkpoint_dir := "ckpt"; num_bins := 15 |}.

Definition lstm_flags : Flags :=
  {| use_gpu := true; num_cores := 1; seed := 0; output_dir := "out";
     dataset_dir := "data"; per_core_batch_size := 2;
     model_family := "LSTM"; checkpoint_dir := "ckpt"; num_bins := 15 |}.

(** Five test examples in batches of two: the last batch is short. *)
Definition batches : list Batch :=
  [ [ {| features := [1]; label := 0 |}; {| features := [2]; label := 1 |} ];
    [ {| features := [3]; label := 1 |}; {| features := [4]; label := 0 |} ];
    [ {| features := [5]; label := 0 |} ] ]%Z.

Definition env : Env :=
  {| num_test_examples := λ _, 5%Z;
     test_split := λ _, batches;
     glob := λ _, ["ckpt/run0/model.index"%string];
     model_call := λ _ inputs, map (λ _, [2; 0]) inputs |}.

Definition empty_world : World :=
  {| fs := ∅; weights := None; metrics := ∅; trace := [] |}.

Definition cached : Npy := [[2; 0]; [2; 0]; [2; 0]; [2; 0]].

(** Both cache files of the single member are present. *)
Definition cached_world : World :=
  {| fs := <["out/clean_0.npy"%string := cached]>
             (<["out/ood_0.npy"%string := cached]> ∅);
     weights := None;
     metrics := initial_metrics ["clean"; "ood"]%string;
     trace := [] |}.

(** A split with a single test example: fewer than one batch of two. *)
Definition short_env : Env :=
  {| num_test_examples := λ _, 1%Z;
     test_split := λ _, [ [ {| features := [1]; label := 0 |} ] ]%Z;
     glob := λ _, ["ckpt/run0/model.index"%string];
     model_call := λ _ inputs, map (λ _, [2; 0]) inputs |}.

End Scenario.

(** ** Sums, exponentials and logarithms *)

Section RealLemmas.

Lemma reduce_sum_nil : TF.reduce_sum [] = 0.
Proof. reflexivity. Qed.

Lemma reduce_sum_cons x xs : TF.reduce_sum (x :: xs) = x + TF.reduce_sum xs.
Proof. reflexivity. Qed.

Ltac sum_induction xs :=
  induction xs as [|? xs IH]; cbn [map];
  rewrite ?reduce_sum_nil, ?reduce_sum_cons, ?IH.

Lemma reduce_sum_scale {A} (c : R) (f : A → R) xs :
  TF.reduce_sum (map (λ x, c * f x) xs) = c * TF.reduce_sum (map f xs).
Proof.
  sum_induction xs; lra.
Qed.

Lemma reduce_sum_div {A} (c : R) (f : A → R) xs :
  TF.reduce_sum (map (λ x, f x / c) xs) = TF.reduce_sum (map f xs) / c.
Proof.
  sum_induction xs; lra.
Qed.

Lemma reduce_sum_plus {A} (f g : A → R) xs :
  TF.reduce_sum (map (λ x, f x + g x) xs)
  = TF.reduce_sum (map f xs) + TF.reduce_sum (map g xs).
Proof.
  sum_induction xs; lra.
Qed.

Lemma reduce_sum_const {A} (c : R) (xs : list A) :
  TF.reduce_sum (map (λ _, c) xs) = INR (length xs) * c.
Proof.
  sum_induction xs; [simpl; lra|].
  change (length (a :: xs)) with (S (length xs)). rewrite S_INR. lra.
Qed.

Lemma reduce_sum_le {A} (f g : A → R) xs :
  (∀ x, f x <= g x) →
  TF.reduce_sum (map f xs) <= TF.reduce_sum (map g xs).
Proof.
  intros Hfg. sum_induction xs; [lra|]. specialize (Hfg a). lra.
Qed.

Lemma reduce_sum_exp_pos {A} (f : A → R) xs :
  xs ≠ [] → 0 < TF.reduce_sum (map (λ x, exp (f x)) xs).
Proof.
  intros Hne. destruct xs as [|a xs]; [done|]. clear Hne.
  revert a. induction xs as [|b xs IH]; intros a; cbn [map].
  - rewrite reduce_sum_cons, reduce_sum_nil.
    pose proof (exp_pos (f a)). lra.
  - rewrite reduce_sum_cons.
    pose proof (exp_pos (f a)). specialize (IH b). cbn [map] in IH. lra.
Qed.

Lemma reduce_sum_ext {A} (f g : A → R) xs :
  (∀ x, f x = g x) → TF.reduce_sum (map f xs) = TF.reduce_sum (map g xs).
Proof. intros H. f_equal. apply map_ext. exact H. Qed.

Lemma reduce_sum_shifted_exp xs :
  TF.reduce_sum (TF.shifted_exp xs)
  = exp (- TF.stable_shift xs) * TF.reduce_sum (map exp xs).
Proof.
  unfold TF.shifted_exp. rewrite <- reduce_sum_scale.
  apply reduce_sum_ext. intros x.
  replace (x - TF.stable_shift xs) with (- TF.stable_shift xs + x) by lra.
  apply exp_plus.
Qed.

Lemma sum_exp_pos xs : xs ≠ [] → 0 < TF.reduce_sum (map exp xs).
Proof. intros H. apply (reduce_sum_exp_pos (λ x, x)). exact H. Qed.

(** The max-shift of the stable kernel cancels. *)
Lemma reduce_logsumexp_spec xs :
  xs ≠ [] → TF.reduce_logsumexp xs = Spec.logsumexp xs.
Proof.
  intros Hne. unfold TF.reduce_logsumexp, Spec.logsumexp.
  rewrite reduce_sum_shifted_exp.
  rewrite ln_mult by (apply exp_pos || by apply sum_exp_pos).
  rewrite ln_exp. lra.
Qed.

Lemma softmax_spec z : z ≠ [] → TF.softmax z = Spec.softmax z.
Proof.
  intros Hne. unfold TF.softmax, Spec.softmax.
  rewrite reduce_sum_shifted_exp. unfold TF.shifted_exp.
  rewrite map_map. apply map_ext. intros x.
  pose proof (sum_exp_pos z Hne) as Hpos.
  pose proof (exp_pos (- TF.stable_shift z)) as Hm.
  replace (x - TF.stable_shift z) with (- TF.stable_shift z + x) by lra.
  rewrite exp_plus. field. split; lra.
Qed.

Lemma nth_map_lt {A B} (f : A → B) (l : list A) (i : nat) (da : A) (db : B) :
  (i < length l)%nat → nth i (map f l) db = f (nth i l da).
Proof.
  revert i. induction l as [|a l IH]; intros [|i] Hi; simpl in *;
    try lia; [done|]. apply IH. lia.
Qed.

Lemma prob_eq label z :
  (label < length z)%nat →
  Spec.prob label z = exp (nth label z 0) / TF.reduce_sum (map exp z).
Proof.
  intros Hl. unfold Spec.prob, Spec.softmax.
  by rewrite (nth_map_lt _ _ _ 0 0).
Qed.

Lemma prob_pos label z : (label < length z)%nat → 0 < Spec.prob label z.
Proof.
  intros Hl. rewrite prob_eq by done.
  assert (z ≠ []) as Hne by (destruct z; simpl in *; [lia|done]).
  apply Rdiv_lt_0_compat; [apply exp_pos | by apply sum_exp_pos].
Qed.

(** The kernel's loss is [-log softmax(z)[label]]. *)
Lemma xent_value_spec label z :
  (label < length z)%nat → TF.xent_value label z = Spec.nll label z.
Proof.
  intros Hl. unfold TF.xent_value, Spec.nll. rewrite prob_eq by done.
  assert (z ≠ []) as Hne by (destruct z; simpl in *; [lia|done]).
  rewrite reduce_sum_shifted_exp.
  pose proof (sum_exp_pos z Hne) as Hpos.
  rewrite ln_mult by (apply exp_pos || done).
  unfold Rdiv. rewrite ln_mult by (apply exp_pos || by apply Rinv_0_lt_compat).
  rewrite ln_Rinv by done. rewrite !ln_exp. lra.
Qed.

Lemma exp_neg_nll label z :
  (label < length z)%nat → exp (- Spec.nll label z) = Spec.prob label z.
Proof.
  intros Hl. unfold Spec.nll. rewrite Ropp_involutive.
  apply exp_ln. by apply prob_pos.
Qed.

End RealLemmas.

(** ** Shapes, broadcasting and the per-member loss matrix *)

Section Shapes.

Lemma shape3_rectangular t M B C :
  TF.shape3 t = Some (M, B, C) → rectangular M B C t.
Proof.
  unfold TF.shape3, rectangular. destruct t as [|m0 t]; [done|].
  destruct (forallb _ _) eqn:Hall; [|done].
  intros [= <- <- <-]. split; [done|]. split; [simpl; lia|].
  rewrite forallb_forall in Hall. apply List.Forall_forall.
  intros mem Hin. apply Hall in Hin.
  apply andb_prop in Hin as [Hlen Hrows].
  apply Nat.eqb_eq in Hlen. split; [done|].
  rewrite forallb_forall in Hrows. apply List.Forall_forall.
  intros row Hrow. apply Hrows in Hrow. by apply Nat.eqb_eq in Hrow.
Qed.

Lemma cast_int32_id l : (0 ≤ l < 2 ^ 31)%Z → TF.cast_int32 l = l.
Proof. intros H. unfold TF.cast_int32. rewrite Z.mod_small; lia. Qed.

Lemma cast_valid_labels C labels :
  valid_labels C labels → map TF.cast_int32 labels = labels.
Proof.
  induction 1 as [|l ls [Hl Hl'] _ IH]; [done|].
  cbn [map]. rewrite IH, cast_int32_id; [done|lia].
Qed.

Lemma sparse_xent_ok l row :
  (0 ≤ l < Z.of_nat (length row))%Z →
  TF.sparse_xent l row = Some (TF.xent_value (Z.to_nat l) row).
Proof.
  intros Hl. unfold TF.sparse_xent, TF.label_in_range.
  by rewrite !bool_decide_eq_true_2 by lia.
Qed.

Lemma batch_xent_ok C labels member :
  valid_labels C labels →
  length member = length labels →
  Forall (λ row : list R, length row = C) member →
  TF.sparse_softmax_cross_entropy_with_logits labels member
  = Some (member_losses labels member).
Proof.
  intros Hv Hlen Hrows. unfold TF.sparse_softmax_cross_entropy_with_logits.
  rewrite bool_decide_eq_true_2 by done. unfold member_losses.
  revert member Hlen Hrows.
  induction Hv as [|l ls [Hl _] _ IH]; intros [|row member] Hlen Hrows;
    simpl in Hlen; try done.
  apply Forall_cons in Hrows as [Hrow Hrows].
  cbn [zip zip_with mapM map fst snd].
  rewrite IH by (done || lia). rewrite sparse_xent_ok by lia. done.
Qed.

Lemma member_nll_ok M B C labels logits :
  TF.shape3 logits = Some (M, B, C) →
  length labels = B →
  valid_labels C labels →
  member_nll labels logits = Some (M, B, map (member_losses labels) logits).
Proof.
  intros Hs Hlen Hv. unfold member_nll. rewrite Hs.
  apply shape3_rectangular in Hs as (HM & _ & Hall).
  rewrite (cast_valid_labels C) by done.
  unfold TF.broadcast_to. rewrite bool_decide_eq_true_2 by done.
  cbn [mbind option_bind]. subst M.
  assert (mapM (λ p, TF.sparse_softmax_cross_entropy_with_logits p.1 p.2)
               (zip (replicate (length logits) labels) logits)
          = Some (map (member_losses labels) logits)) as ->; [|done].
  induction Hall as [|member logits [Hb Hrows] _ IH]; [done|].
  cbn [length replicate zip zip_with mapM map fst snd].
  rewrite (batch_xent_ok C) by (done || lia).
  cbn [mbind option_bind]. rewrite IH. done.
Qed.

Lemma nth_seq_lt i B : (i < B)%nat → nth i (seq 0 B) 0%nat = i.
Proof. intros. rewrite seq_nth; lia. Qed.

Lemma reduce_axis0_nth f B rows i :
  (i < B)%nat →
  nth i (TF.reduce_axis0 f B rows) 0 = f (map (λ row, nth i row 0) rows).
Proof.
  intros Hi. unfold TF.reduce_axis0.
  rewrite (nth_map_lt _ _ _ 0%nat) by (rewrite length_seq; lia).
  by rewrite nth_seq_lt.
Qed.

Lemma reduce_axis0_length f B rows : length (TF.reduce_axis0 f B rows) = B.
Proof. unfold TF.reduce_axis0. by rewrite length_map, length_seq. Qed.

Lemma nth_zip {A B} (l : list A) (k : list B) i da db :
  (i < length l)%nat → length k = length l →
  nth i (zip l k) (da, db) = (nth i l da, nth i k db).
Proof.
  revert k i. induction l as [|a l IH]; intros [|b k] [|i] Hi Hlen;
    simpl in *; try lia; [done|]. apply IH; lia.
Qed.

(** Column [i] of the loss matrix, in the words of the specification. *)
Lemma loss_column M B C labels logits i :
  TF.shape3 logits = Some (M, B, C) →
  length labels = B →
  valid_labels C labels →
  (i < B)%nat →
  map (λ row, nth i row 0) (map (member_losses labels) logits)
  = map (Spec.nll (Z.to_nat (nth i labels 0%Z))) (example_logits i logits).
Proof.
  intros Hs Hlen Hv Hi. apply shape3_rectangular in Hs as (_ & _ & Hall).
  unfold example_logits. rewrite !map_map.
  apply map_ext_Forall. eapply Forall_impl; [exact Hall|].
  intros member [Hb Hrows]. cbn beta. unfold member_losses.
  rewrite (nth_map_lt _ _ _ (0%Z, [])) by (rewrite length_zip; lia).
  rewrite nth_zip by lia. cbn [fst snd].
  apply xent_value_spec.
  assert (length (nth i member []) = C) as ->.
  { rewrite List.Forall_forall in Hrows. apply Hrows, nth_In. lia. }
  unfold valid_labels in Hv. rewrite List.Forall_forall in Hv.
  destruct (Hv (nth i labels 0%Z)) as [? _]; [apply nth_In; lia|]. lia.
Qed.

Lemma example_logits_length i logits :
  length (example_logits i logits) = length logits.
Proof. unfold example_logits. by rewrite length_map. Qed.

End Shapes.

(** ** One example at a time *)

Section PerExample.

Lemma nth_map_opp i (row : list R) : nth i (map Ropp row) 0 = - nth i row 0.
Proof.
  revert i. induction row as [|x row IH]; intros [|i]; simpl;
    try lra; apply IH.
Qed.

Lemma column_opp i (rows : list (list R)) :
  map (λ row, nth i row 0) (map (map Ropp) rows)
  = map Ropp (map (λ row, nth i row 0) rows).
Proof. rewrite !map_map. apply map_ext. intros row. apply nth_map_opp. Qed.

Lemma reduce_sum_ext_Forall {A} (P : A → Prop) (f g : A → R) xs :
  Forall P xs → (∀ x, P x → f x = g x) →
  TF.reduce_sum (map f xs) = TF.reduce_sum (map g xs).
Proof.
  intros HP Hfg. f_equal. apply map_ext_Forall.
  eapply Forall_impl; [exact HP|]. exact Hfg.
Qed.

Variable y : nat.
Variable zs : list (list R).
Hypothesis zs_nonempty : zs ≠ [].
Hypothesis y_in_range : Forall (λ z : list R, (y < length z)%nat) zs.

Lemma INR_length_pos : 0 < INR (length zs).
Proof. apply lt_0_INR. destruct zs; [done|simpl; lia]. Qed.

Lemma sum_prob_pos : 0 < TF.reduce_sum (map (Spec.prob y) zs).
Proof.
  rewrite (reduce_sum_ext_Forall _ _ (λ z, exp (- Spec.nll y z)) _ y_in_range).
  - by apply reduce_sum_exp_pos.
  - intros z Hz. symmetry. by apply exp_neg_nll.
Qed.

(** The stabilised reduction over the negated losses is the plain
    [logsumexp] of the specification. *)
Lemma logsumexp_neg_losses :
  TF.reduce_logsumexp (map Ropp (map (Spec.nll y) zs))
  = Spec.logsumexp (map (λ z, - Spec.nll y z) zs).
Proof.
  rewrite map_map. apply reduce_logsumexp_spec.
  intros Hnil. apply zs_nonempty. by apply map_eq_nil in Hnil.
Qed.

(** [-logsumexp(-nll) + log M] is the negative log of the mean probability. *)
Lemma ensemble_nll_is_neg_log_mean :
  Spec.ensemble_nll y zs = Spec.neg_log_mean_prob y zs.
Proof.
  unfold Spec.ensemble_nll, Spec.neg_log_mean_prob, Spec.logsumexp, Spec.mean.
  rewrite !map_map, length_map.
  rewrite (reduce_sum_ext_Forall _ (λ z, exp (- Spec.nll y z)) (Spec.prob y)
             _ y_in_range) by (intros z Hz; by apply exp_neg_nll).
  pose proof sum_prob_pos as Hs. pose proof INR_length_pos as Hm.
  unfold Rdiv. rewrite ln_mult by (done || by apply Rinv_0_lt_compat).
  rewrite ln_Rinv by done. lra.
Qed.

End PerExample.

(** Jensen's inequality in the form the two losses need: for any non-empty
    list of member losses, [-logsumexp(-x) + log M <= mean x]. *)
Lemma jensen_gap (xs : list R) :
  xs ≠ [] →
  - Spec.logsumexp (map Ropp xs) + ln (INR (length xs)) <= Spec.mean xs.
Proof.
  intros Hne. unfold Spec.logsumexp, Spec.mean. rewrite map_map.
  set (G := TF.reduce_sum xs / INR (length xs)).
  assert (0 < INR (length xs)) as Hm.
  { apply lt_0_INR. destruct xs; [done|simpl; lia]. }
  assert (0 < TF.reduce_sum (map (λ x, exp (- x)) xs)) as Hpos
    by (by apply reduce_sum_exp_pos).
  assert (exp (- G) * INR (length xs)
          <= TF.reduce_sum (map (λ x, exp (- x)) xs)) as Hle.
  { transitivity (TF.reduce_sum (map (λ x, exp (- G) * (1 + (G - x))) xs)).
    - rewrite reduce_sum_scale, reduce_sum_plus, reduce_sum_const.
      rewrite (reduce_sum_plus (λ _, G) (λ x, - x)), reduce_sum_const.
      replace (TF.reduce_sum (map (λ x, - x) xs)) with (- TF.reduce_sum xs).
      + unfold G. apply Req_le. field. lra.
      + rewrite (reduce_sum_ext _ (λ x, (-1) * x)) by (intros; lra).
        rewrite reduce_sum_scale, map_id. lra.
    - apply reduce_sum_le. intros x.
      replace (- x) with (- G + (G - x)) by lra. rewrite exp_plus.
      apply Rmult_le_compat_l; [left; apply exp_pos|].
      apply exp_ineq1_le. }
  assert (- G + ln (INR (length xs))
          <= ln (TF.reduce_sum (map (λ x, exp (- x)) xs))) as Hln.
  { rewrite <- (ln_exp (- G)), <- ln_mult by (apply exp_pos || done).
    destruct Hle as [Hlt | Heq].
    - left. apply ln_increasing; [|done].
      apply Rmult_lt_0_compat; [apply exp_pos|done].
    - right. by rewrite Heq. }
  lra.
Qed.

Lemma Forall2_nth_le (l k : list R) :
  length l = length k →
  (∀ i, (i < length l)%nat → nth i l 0 <= nth i k 0) →
  Forall2 Rle l k.
Proof.
  revert k. induction l as [|x l IH]; intros [|z k] Hlen Hnth;
    simpl in Hlen; try lia; constructor.
  - apply (Hnth 0%nat). simpl; lia.
  - apply IH; [lia|]. intros i Hi. apply (Hnth (S i)). simpl; lia.
Qed.

Section Examples.

Variables (M B C : nat) (logits : list (list (list R))).
Hypothesis Hshape : TF.shape3 logits = Some (M, B, C).

Lemma logits_nonempty : logits ≠ [].
Proof.
  apply shape3_rectangular in Hshape as (? & ? & _).
  destruct logits; [simpl in *; lia|done].
Qed.

Lemma shape_ensemble_size : length logits = M.
Proof. by apply shape3_rectangular in Hshape as (? & _). Qed.

Lemma example_logits_nonempty i : example_logits i logits ≠ [].
Proof.
  pose proof logits_nonempty. unfold example_logits.
  destruct logits; [done|]. done.
Qed.

Lemma example_rows i :
  (i < B)%nat → Forall (λ z : list R, length z = C) (example_logits i logits).
Proof.
  intros Hi. apply shape3_rectangular in Hshape as (_ & _ & Hall).
  unfold example_logits. apply Forall_map.
  eapply Forall_impl; [exact Hall|]. intros member [Hb Hrows]. cbn beta.
  rewrite List.Forall_forall in Hrows. apply Hrows, nth_In. lia.
Qed.

Variable labels : list Z.
Hypothesis Hlen : length labels = B.
Hypothesis Hvalid : valid_labels C labels.

Lemma label_lt i : (i < B)%nat → (Z.to_nat (nth i labels 0%Z) < C)%nat.
Proof.
  intros Hi. unfold valid_labels in Hvalid.
  rewrite List.Forall_forall in Hvalid.
  destruct (Hvalid (nth i labels 0%Z)) as [? _]; [apply nth_In; lia|]. lia.
Qed.

Lemma label_in_rows i :
  (i < B)%nat →
  Forall (λ z : list R, (Z.to_nat (nth i labels 0%Z) < length z)%nat)
         (example_logits i logits).
Proof.
  intros Hi. eapply Forall_impl; [by apply example_rows|].
  intros z Hz. cbn beta in *. rewrite Hz. by apply label_lt.
Qed.

Lemma ensemble_nll_value :
  ensemble_negative_log_likelihood TF.float32 labels logits
  = Some (map (λ i, Spec.ensemble_nll (Z.to_nat (nth i labels 0%Z))
                                      (example_logits i logits))
              (seq 0 B)).
Proof.
  unfold ensemble_negative_log_likelihood.
  rewrite (member_nll_ok M B C) by done.
  unfold TF.add. rewrite decide_True by done. f_equal.
  rewrite (map_map Ropp). unfold TF.reduce_axis0. rewrite map_map.
  apply map_ext_in. intros i Hi. apply in_seq in Hi.
  rewrite column_opp, (loss_column M B C) by (done || lia).
  rewrite logsumexp_neg_losses by apply example_logits_nonempty.
  unfold Spec.ensemble_nll.
  by rewrite example_logits_length, shape_ensemble_size.
Qed.

Lemma gibbs_value :
  gibbs_cross_entropy labels logits
  = Some (map (λ i, Spec.gibbs (Z.to_nat (nth i labels 0%Z))
                               (example_logits i logits))
              (seq 0 B)).
Proof.
  unfold gibbs_cross_entropy.
  rewrite (member_nll_ok M B C) by done. f_equal.
  unfold TF.reduce_axis0.
  apply map_ext_in. intros i Hi. apply in_seq in Hi.
  by rewrite (loss_column M B C) by (done || lia).
Qed.

End Examples.

(** ** The claims about the two losses *)

(** The logarithm of the ensemble size is a float32 tensor: on logits of
    another dtype the last addition raises, whatever the values. *)
Lemma ensemble_nll_other_dtype dtype labels logits :
  dtype ≠ TF.float32 →
  ensemble_negative_log_likelihood dtype labels logits = None.
Proof.
  intros Hd. unfold ensemble_negative_log_likelihood, TF.add.
  destruct (member_nll labels logits) as [[[M B] nll]|]; [|done].
  by rewrite decide_False.
Qed.

(** C1. On a float32 logits tensor of shape [[M, B, C]] (M >= 1) and a
    vector of B int32 class labels, [ensemble_negative_log_likelihood]
    returns, for every example, [-logsumexp_m(-nll_m) + log M] with
    [nll_m = -log softmax(logits_m)[label]]; this is the negative log of the
    arithmetic mean over the members of the probability of the true label. *)
Theorem ensemble_nll_formula M B C labels logits :
  TF.shape3 logits = Some (M, B, C) →
  length labels = B →
  valid_labels C labels →
  ∃ r, ensemble_negative_log_likelihood TF.float32 labels logits = Some r
       ∧ length r = B
       ∧ ∀ i, (i < B)%nat →
           nth i r 0 = Spec.ensemble_nll (Z.to_nat (nth i labels 0%Z))
                                         (example_logits i logits)
           ∧ nth i r 0 = Spec.neg_log_mean_prob (Z.to_nat (nth i labels 0%Z))
                                                (example_logits i logits).
Proof.
  intros Hs Hlen Hv. eexists. split; [by apply (ensemble_nll_value M B C)|].
  split; [by rewrite length_map, length_seq|].
  intros i Hi.
  rewrite (nth_map_lt _ _ _ 0%nat) by (rewrite length_seq; lia).
  rewrite nth_seq_lt by done. split; [done|].
  apply ensemble_nll_is_neg_log_mean.
  - by eapply example_logits_nonempty.
  - by eapply label_in_rows.
Qed.

Lemma ensemble_nll_formula_witness :
  TF.shape3 [[[2; 0; 0]]; [[0; 2; 0]]] = Some (2%nat, 1%nat, 3%nat)
  ∧ length [0%Z] = 1%nat
  ∧ valid_labels 3 [0%Z]
  ∧ ∃ r, ensemble_negative_log_likelihood TF.float32 [0%Z]
           [[[2; 0; 0]]; [[0; 2; 0]]] = Some r
         ∧ length r = 1%nat
         ∧ ∀ i, (i < 1)%nat →
             nth i r 0 = Spec.ensemble_nll (Z.to_nat (nth i [0%Z] 0%Z))
                           (example_logits i [[[2; 0; 0]]; [[0; 2; 0]]])
             ∧ nth i r 0 = Spec.neg_log_mean_prob (Z.to_nat (nth i [0%Z] 0%Z))
                             (example_logits i [[[2; 0; 0]]; [[0; 2; 0]]]).
Proof.
  assert (valid_labels 3 [0%Z]) as Hv
    by (constructor; [split; lia | constructor]).
  split; [reflexivity|]. split; [reflexivity|]. split; [exact Hv|].
  apply (ensemble_nll_formula 2 1 3); [reflexivity | reflexivity | exact Hv].
Defined.

(** C1, counterexample. The claim does not hold for every logits tensor:
    on float64 logits of shape [[2, 1, 3]] with the valid label 0 the
    function raises, where [gibbs_cross_entropy] returns. *)
Lemma ensemble_nll_raises_on_float64 :
  TF.shape3 [[[2; 0; 0]]; [[0; 2; 0]]] = Some (2%nat, 1%nat, 3%nat)
  ∧ valid_labels 3 [0%Z]
  ∧ ensemble_negative_log_likelihood TF.float64 [0%Z]
      [[[2; 0; 0]]; [[0; 2; 0]]] = None
  ∧ ∃ g, gibbs_cross_entropy [0%Z] [[[2; 0; 0]]; [[0; 2; 0]]] = Some g.
Proof.
  assert (valid_labels 3 [0%Z]) as Hv
    by (constructor; [split; lia | constructor]).
  split; [reflexivity|]. split; [exact Hv|].
  split; [by apply ensemble_nll_other_dtype|].
  eexists. by apply (gibbs_value 2 1 3).
Qed.

(** C2. Under the same conditions [gibbs_cross_entropy] returns, for every
    example, the arithmetic mean over the members of [nll_m]. *)
Theorem gibbs_formula M B C labels logits :
  TF.shape3 logits = Some (M, B, C) →
  length labels = B →
  valid_labels C labels →
  ∃ r, gibbs_cross_entropy labels logits = Some r
       ∧ length r = B
       ∧ ∀ i, (i < B)%nat →
           nth i r 0 = Spec.mean (map (Spec.nll (Z.to_nat (nth i labels 0%Z)))
                                      (example_logits i logits)).
Proof.
  intros Hs Hlen Hv. eexists. split; [by apply (gibbs_value M B C)|].
  split; [by rewrite length_map, length_seq|].
  intros i Hi.
  rewrite (nth_map_lt _ _ _ 0%nat) by (rewrite length_seq; lia).
  by rewrite nth_seq_lt.
Qed.

Lemma gibbs_formula_witness :
  TF.shape3 [[[2; 0; 0]]; [[0; 2; 0]]] = Some (2%nat, 1%nat, 3%nat)
  ∧ length [0%Z] = 1%nat
  ∧ valid_labels 3 [0%Z]
  ∧ ∃ r, gibbs_cross_entropy [0%Z] [[[2; 0; 0]]; [[0; 2; 0]]] = Some r
         ∧ length r = 1%nat
         ∧ ∀ i, (i < 1)%nat →
             nth i r 0 = Spec.mean (map (Spec.nll (Z.to_nat (nth i [0%Z] 0%Z)))
                                     (example_logits i [[[2; 0; 0]]; [[0; 2; 0]]])).
Proof.
  assert (valid_labels 3 [0%Z]) as Hv
    by (constructor; [split; lia | constructor]).
  split; [reflexivity|]. split; [reflexivity|]. split; [exact Hv|].
  apply (gibbs_formula 2 1 3); [reflexivity | reflexivity | exact Hv].
Defined.

(** Jensen's inequality for the exact values of the two formulas: in real
    arithmetic the ensemble negative log-likelihood of every example is at
    most its Gibbs cross-entropy.  The float32 results of the two functions
    are rounded, and nothing is said here about them. *)
Lemma exact_ensemble_nll_le_gibbs M B C labels logits :
  TF.shape3 logits = Some (M, B, C) →
  length labels = B →
  valid_labels C labels →
  (1 < M)%nat →
  ∃ e g, ensemble_negative_log_likelihood TF.float32 labels logits = Some e
         ∧ gibbs_cross_entropy labels logits = Some g
         ∧ Forall2 Rle e g.
Proof.
  intros Hs Hlen Hv _. do 2 eexists.
  split; [by apply (ensemble_nll_value M B C)|].
  split; [by apply (gibbs_value M B C)|].
  apply Forall2_nth_le; [by rewrite !length_map|].
  intros i Hi. rewrite length_map, length_seq in Hi.
  rewrite !(nth_map_lt _ _ _ 0%nat) by (rewrite length_seq; lia).
  rewrite nth_seq_lt by done.
  unfold Spec.ensemble_nll, Spec.gibbs.
  rewrite <- (length_map (Spec.nll (Z.to_nat (nth i labels 0%Z)))).
  rewrite <- (map_map (Spec.nll (Z.to_nat (nth i labels 0%Z))) Ropp).
  apply jensen_gap. intros Hnil. apply map_eq_nil in Hnil.
  by eapply example_logits_nonempty.
Qed.

Lemma ensemble_nll_single y z : Spec.ensemble_nll y [z] = Spec.nll y z.
Proof.
  unfold Spec.ensemble_nll, Spec.logsumexp. cbn [map length].
  rewrite reduce_sum_cons, reduce_sum_nil, Rplus_0_r, ln_exp.
  change (INR 1) with 1. rewrite ln_1. lra.
Qed.

Lemma gibbs_single y z : Spec.gibbs y [z] = Spec.nll y z.
Proof.
  unfold Spec.gibbs, Spec.mean. cbn [map length].
  rewrite reduce_sum_cons, reduce_sum_nil. change (INR 1) with 1. lra.
Qed.

Lemma member_losses_seq B C labels member :
  TF.shape3 [member] = Some (1%nat, B, C) →
  length labels = B →
  valid_labels C labels →
  member_losses labels member
  = map (λ i, Spec.nll (Z.to_nat (nth i labels 0%Z)) (nth i member [])) (seq 0 B).
Proof.
  intros Hs Hlen Hv.
  pose proof (shape3_rectangular _ _ _ _ Hs) as (_ & _ & Hall).
  apply Forall_cons in Hall as [[Hb _] _].
  apply (nth_ext _ _ 0 0).
  - unfold member_losses. rewrite !length_map, length_zip, length_seq. lia.
  - intros i Hi. unfold member_losses in Hi.
    rewrite length_map, length_zip in Hi.
    rewrite (nth_map_lt _ (seq 0 B) _ 0%nat) by (rewrite length_seq; lia).
    rewrite nth_seq_lt by lia.
    pose proof (loss_column 1 B C labels [member] i Hs Hlen Hv) as Hcol.
    cbn [map example_logits] in Hcol. injection Hcol; [done|lia].
Qed.

(** C4. With a single float32 member both losses are the plain sparse
    softmax cross-entropy of that member. *)
Theorem single_member_no_ensembling B C labels member :
  TF.shape3 [member] = Some (1%nat, B, C) →
  length labels = B →
  valid_labels C labels →
  ∃ r, TF.sparse_softmax_cross_entropy_with_logits labels member = Some r
       ∧ ensemble_negative_log_likelihood TF.float32 labels [member] = Some r
       ∧ gibbs_cross_entropy labels [member] = Some r.
Proof.
  intros Hs Hlen Hv. exists (member_losses labels member).
  pose proof (shape3_rectangular _ _ _ _ Hs) as (_ & _ & Hall).
  apply Forall_cons in Hall as [[Hb Hrows] _].
  split; [apply (batch_xent_ok C); (done || lia)|].
  rewrite (ensemble_nll_value 1 B C), (gibbs_value 1 B C) by done.
  rewrite (member_losses_seq B C) by done.
  split; f_equal; apply map_ext; intros i; cbn [example_logits map].
  - apply ensemble_nll_single.
  - apply gibbs_single.
Qed.

Lemma single_member_no_ensembling_witness :
  TF.shape3 [[[2; 0; 0]; [0; 1; 3]]] = Some (1%nat, 2%nat, 3%nat)
  ∧ length [0%Z; 2%Z] = 2%nat
  ∧ valid_labels 3 [0%Z; 2%Z]
  ∧ ∃ r, TF.sparse_softmax_cross_entropy_with_logits
           [0%Z; 2%Z] [[2; 0; 0]; [0; 1; 3]] = Some r
         ∧ ensemble_negative_log_likelihood TF.float32 [0%Z; 2%Z]
             [[[2; 0; 0]; [0; 1; 3]]] = Some r
         ∧ gibbs_cross_entropy [0%Z; 2%Z] [[[2; 0; 0]; [0; 1; 3]]] = Some r.
Proof.
  assert (valid_labels 3 [0%Z; 2%Z]) as Hv
    by (constructor; [split; lia | constructor; [split; lia | constructor]]).
  split; [reflexivity|]. split; [reflexivity|]. split; [exact Hv|].
  apply (single_member_no_ensembling 2 3); [reflexivity | reflexivity | exact Hv].
Defined.

(** C4, counterexample. The claim does not hold for every logits tensor:
    for one float64 member of shape [[2, 3]] the kernel and
    [gibbs_cross_entropy] return the same losses, and
    [ensemble_negative_log_likelihood] raises. *)
Lemma single_float64_member_raises :
  TF.shape3 [[[2; 0; 0]; [0; 1; 3]]] = Some (1%nat, 2%nat, 3%nat)
  ∧ valid_labels 3 [0%Z; 2%Z]
  ∧ (∃ r, TF.sparse_softmax_cross_entropy_with_logits
            [0%Z; 2%Z] [[2; 0; 0]; [0; 1; 3]] = Some r
          ∧ gibbs_cross_entropy [0%Z; 2%Z] [[[2; 0; 0]; [0; 1; 3]]] = Some r)
  ∧ ensemble_negative_log_likelihood TF.float64 [0%Z; 2%Z]
      [[[2; 0; 0]; [0; 1; 3]]] = None.
Proof.
  assert (valid_labels 3 [0%Z; 2%Z]) as Hv
    by (constructor; [split; lia | constructor; [split; lia | constructor]]).
  split; [reflexivity|]. split; [exact Hv|]. split.
  - exists (member_losses [0%Z; 2%Z] [[2; 0; 0]; [0; 1; 3]]).
    split; [by apply (batch_xent_ok 3); [|reflexivity|repeat constructor]|].
    rewrite (gibbs_value 1 2 3) by done.
    rewrite (member_losses_seq 2 3) by done.
    f_equal. apply map_ext. intros i. cbn [example_logits map].
    apply gibbs_single.
  - by apply ensemble_nll_other_dtype.
Qed.

(** ** Symmetry in the ensemble members *)

Section Symmetry.

Lemma reduce_sum_perm xs ys : xs ≡ₚ ys → TF.reduce_sum xs = TF.reduce_sum ys.
Proof.
  induction 1; rewrite ?reduce_sum_cons in *; lra.
Qed.

Lemma reduce_logsumexp_perm xs ys :
  xs ≡ₚ ys → TF.reduce_logsumexp xs = TF.reduce_logsumexp ys.
Proof.
  intros Hp. destruct xs as [|x xs].
  - apply Permutation_nil in Hp. by subst.
  - assert (ys ≠ []) as Hne.
    { intros ->. symmetry in Hp. by apply Permutation_nil in Hp. }
    rewrite !reduce_logsumexp_spec by done.
    unfold Spec.logsumexp. f_equal. apply reduce_sum_perm.
    by apply Permutation_map.
Qed.

Lemma reduce_mean_perm xs ys :
  xs ≡ₚ ys → TF.reduce_mean xs = TF.reduce_mean ys.
Proof.
  intros Hp. unfold TF.reduce_mean.
  by rewrite (reduce_sum_perm _ _ Hp), (Permutation_length Hp).
Qed.

Lemma reduce_axis0_perm f B rows rows' :
  (∀ xs ys, xs ≡ₚ ys → f xs = f ys) →
  rows ≡ₚ rows' → TF.reduce_axis0 f B rows = TF.reduce_axis0 f B rows'.
Proof.
  intros Hf Hp. unfold TF.reduce_axis0. apply map_ext. intros i.
  apply Hf. by apply Permutation_map.
Qed.

Lemma mapM_perm {A B} (f : A → option B) l l' :
  l ≡ₚ l' → perm_result (mapM f l) (mapM f l').
Proof.
  unfold perm_result.
  induction 1 as [|x l l' _ IH|x y l|l l' l'' _ IH1 _ IH2]; simpl.
  - done.
  - destruct (f x); simpl; [|done].
    destruct (mapM f l), (mapM f l'); simpl; try done. by constructor.
  - destruct (f x), (f y); simpl; try done;
      destruct (mapM f l); simpl; try done. apply perm_swap.
  - destruct (mapM f l), (mapM f l'), (mapM f l''); try done.
    by etransitivity.
Qed.

Lemma shape3_iff t M B C :
  TF.shape3 t = Some (M, B, C)
  ↔ rectangular M B C t ∧ (B = 0 → C = 0)%nat.
Proof.
  split.
  - intros Hs. split; [by apply shape3_rectangular|].
    unfold TF.shape3 in Hs. destruct t as [|m0 t]; [done|].
    destruct (forallb _ _); [|done]. injection Hs as <- <- <-.
    intros H0. destruct m0; [done|]. done.
  - intros [(HM & Hpos & Hall) H0]. unfold TF.shape3.
    destruct t as [|m0 t]; [simpl in HM; lia|].
    pose proof Hall as Hall'.
    apply Forall_cons in Hall' as [[Hb Hrows] _].
    assert (length (hd [] m0) = C) as HC.
    { destruct m0 as [|row m0]; simpl in *; [lia|].
      by apply Forall_cons in Hrows as [? _]. }
    rewrite Hb, HC.
    assert (forallb (λ mem, Nat.eqb (length mem) B
              && forallb (λ row : list R, Nat.eqb (length row) C) mem) (m0 :: t)
            = true) as ->; [|by rewrite HM].
    apply forallb_forall. intros mem Hin.
    rewrite List.Forall_forall in Hall. destruct (Hall mem Hin) as [Hb' Hr'].
    apply andb_true_intro. split; [by apply Nat.eqb_eq|].
    apply forallb_forall. intros row Hrow.
    rewrite List.Forall_forall in Hr'. apply Nat.eqb_eq. by apply Hr'.
Qed.

Lemma shape3_perm_Some t t' s :
  t ≡ₚ t' → TF.shape3 t = Some s → TF.shape3 t' = Some s.
Proof.
  intros Hp. destruct s as [[M B] C]. rewrite !shape3_iff.
  intros [(HM & Hpos & Hall) H0]. split; [|done].
  split; [by rewrite <- (Permutation_length Hp)|]. split; [done|].
  by rewrite <- Hp.
Qed.

Lemma shape3_perm t t' : t ≡ₚ t' → TF.shape3 t = TF.shape3 t'.
Proof.
  intros Hp. destruct (TF.shape3 t) as [s|] eqn:E.
  - symmetry. by apply (shape3_perm_Some t).
  - destruct (TF.shape3 t') as [s'|] eqn:E'; [|done].
    symmetry in Hp. apply (shape3_perm_Some _ _ _ Hp) in E'. congruence.
Qed.

Lemma zip_replicate {A B} (x : A) (l : list B) :
  zip (replicate (length l) x) l = map (pair x) l.
Proof. induction l as [|b l IH]; [done|]. simpl. by rewrite IH. Qed.

Lemma shape3_length t M B C : TF.shape3 t = Some (M, B, C) → M = length t.
Proof. intros Hs. by apply shape3_rectangular in Hs as (? & _). Qed.

(** Permuting the members permutes the rows of the loss matrix. *)
Lemma member_nll_perm labels logits logits' :
  logits ≡ₚ logits' →
  match member_nll labels logits, member_nll labels logits' with
  | Some (M, B, nll), Some (M', B', nll') => M = M' ∧ B = B' ∧ nll ≡ₚ nll'
  | None, None => True
  | _, _ => False
  end.
Proof.
  intros Hp. unfold member_nll. rewrite <- (shape3_perm _ _ Hp).
  destruct (TF.shape3 logits) as [[[M B] C]|] eqn:Hs; [|done].
  destruct (TF.broadcast_to _ M B) as [bl|] eqn:Hb;
    cbn [mbind option_bind]; [|done].
  assert (∃ lab, bl = replicate M lab) as [lab ->].
  { unfold TF.broadcast_to in Hb. case_bool_decide.
    - injection Hb as <-. eauto.
    - destruct (map TF.cast_int32 labels) as [|l [|? ?]]; try done.
      injection Hb as <-. eauto. }
  pose proof (shape3_length _ _ _ _ Hs) as HM.
  assert (zip (replicate M lab) logits = map (pair lab) logits) as ->
    by (rewrite HM; apply zip_replicate).
  assert (zip (replicate M lab) logits' = map (pair lab) logits') as ->
    by (rewrite HM, (Permutation_length Hp); apply zip_replicate).
  pose proof (mapM_perm
    (λ p, TF.sparse_softmax_cross_entropy_with_logits p.1 p.2)
    (map (pair lab) logits) (map (pair lab) logits')
    (Permutation_map _ Hp)) as Hm.
  unfold perm_result in Hm.
  destruct (mapM _ (map (pair lab) logits)),
           (mapM _ (map (pair lab) logits')); cbn [mbind option_bind];
    try done.
Qed.

End Symmetry.

(** The exact values of both formulas are symmetric in the ensemble
    members, and so are the errors: real addition is commutative and
    associative.  The float32 reductions of the two functions accumulate in
    an order, and nothing is said here about them. *)
Lemma exact_losses_member_symmetric dtype labels logits logits' :
  logits ≡ₚ logits' →
  ensemble_negative_log_likelihood dtype labels logits
  = ensemble_negative_log_likelihood dtype labels logits'
  ∧ gibbs_cross_entropy labels logits = gibbs_cross_entropy labels logits'.
Proof.
  intros Hp. pose proof (member_nll_perm labels _ _ Hp) as Hm.
  unfold ensemble_negative_log_likelihood, gibbs_cross_entropy.
  destruct (member_nll labels logits) as [[[M B] nll]|],
           (member_nll labels logits') as [[[M' B'] nll']|]; try done.
  destruct Hm as (<- & <- & Hn). split; f_equal.
  - f_equal. apply reduce_axis0_perm; [apply reduce_logsumexp_perm|].
    by apply Permutation_map.
  - apply reduce_axis0_perm; [apply reduce_mean_perm|done].
Qed.

(** ** The ensemble prediction *)

Section Probabilities.

Lemma softmax_length z : length (TF.softmax z) = length z.
Proof. unfold TF.softmax, TF.shifted_exp. by rewrite !length_map. Qed.

Lemma softmax_sum_one z : z ≠ [] → TF.reduce_sum (TF.softmax z) = 1.
Proof.
  intros Hne. unfold TF.softmax.
  rewrite (reduce_sum_div _ (λ x, x)), map_id.
  assert (0 < TF.reduce_sum (TF.shifted_exp z)) as Hpos
    by (by apply reduce_sum_exp_pos).
  field. lra.
Qed.

Lemma reduce_sum_swap {A B} (g : A → B → R) (ms : list A) (js : list B) :
  TF.reduce_sum (map (λ j, TF.reduce_sum (map (λ m, g m j) ms)) js)
  = TF.reduce_sum (map (λ m, TF.reduce_sum (map (λ j, g m j) js)) ms).
Proof.
  induction ms as [|a ms IH]; cbn [map].
  - transitivity (TF.reduce_sum (map (λ _ : B, 0) js)); [done|].
    rewrite reduce_sum_const, reduce_sum_nil. lra.
  - rewrite reduce_sum_cons, <- IH, <- reduce_sum_plus.
    apply reduce_sum_ext. intros j. by rewrite reduce_sum_cons.
Qed.

Lemma reduce_sum_nth_seq (l : list R) :
  TF.reduce_sum (map (λ j, nth j l 0) (seq 0 (length l))) = TF.reduce_sum l.
Proof.
  induction l as [|x l IH]; [done|].
  cbn [length seq map nth]. rewrite <- seq_shift, map_map.
  rewrite !reduce_sum_cons. cbn [nth]. by rewrite IH.
Qed.

Lemma softmax_column i (member : list (list R)) :
  nth i (map TF.softmax member) [] = TF.softmax (nth i member []).
Proof. change (@nil R) with (TF.softmax []) at 1. apply map_nth. Qed.

(** One row of the ensemble prediction sums to one. *)
Lemma mean_softmax_sum_one C (zs : list (list R)) :
  zs ≠ [] → (1 ≤ C)%nat →
  Forall (λ z : list R, length z = C) zs →
  TF.reduce_sum (TF.reduce_axis0 TF.reduce_mean C (map TF.softmax zs)) = 1.
Proof.
  intros Hne HC Hrows. unfold TF.reduce_axis0, TF.reduce_mean.
  rewrite (reduce_sum_ext _
    (λ j, TF.reduce_sum (map (λ z, nth j (TF.softmax z) 0) zs)
          / INR (length zs)))
    by (intros j; by rewrite !length_map, map_map).
  rewrite reduce_sum_div, reduce_sum_swap.
  rewrite (reduce_sum_ext_Forall _ _ (λ _, 1) _ Hrows).
  - rewrite reduce_sum_const.
    assert (0 < INR (length zs)) by (apply lt_0_INR; destruct zs; [done|simpl; lia]).
    field. lra.
  - intros z Hz. rewrite <- Hz, <- (softmax_length z), reduce_sum_nth_seq.
    apply softmax_sum_one. destruct z; [simpl in *; lia|done].
Qed.

End Probabilities.

(** C5. For logits of shape [[M, B, C]] with M >= 1 and C >= 1, the
    softmax-then-average prediction has one row of C entries per example,
    and every row sums to one. *)
Theorem ensemble_probs_sum_to_one M B C logits :
  TF.shape3 logits = Some (M, B, C) →
  (1 ≤ C)%nat →
  ∃ probs, ensemble_probs logits = Some probs
           ∧ length probs = B
           ∧ Forall (λ p, length p = C ∧ TF.reduce_sum p = 1) probs.
Proof.
  intros Hs HC. unfold ensemble_probs. rewrite Hs. eexists. split; [done|].
  unfold TF.reduce_axis0_3. split; [by rewrite length_map, length_seq|].
  apply Forall_map, List.Forall_forall. intros i Hi. apply in_seq in Hi.
  cbn beta. split; [apply reduce_axis0_length|].
  rewrite map_map.
  rewrite (map_ext _ (λ member, TF.softmax (nth i member [])))
    by (intros; apply softmax_column).
  rewrite <- (map_map (λ member, nth i member []) TF.softmax).
  apply mean_softmax_sum_one; [|done|].
  - intros Hnil. apply map_eq_nil in Hnil.
    by apply (logits_nonempty M B C logits).
  - apply (example_rows M B C logits Hs). lia.
Qed.

Lemma ensemble_probs_sum_to_one_witness :
  TF.shape3 [[[2; 0; 0]]; [[0; 2; 0]]] = Some (2%nat, 1%nat, 3%nat)
  ∧ (1 ≤ 3)%nat
  ∧ ∃ probs, ensemble_probs [[[2; 0; 0]]; [[0; 2; 0]]] = Some probs
             ∧ length probs = 1%nat
             ∧ Forall (λ p, length p = 3%nat ∧ TF.reduce_sum p = 1) probs.
Proof.
  split; [reflexivity|]. split; [lia|].
  apply (ensemble_probs_sum_to_one 2 1 3); [reflexivity | lia].
Defined.

(** ** The driver *)

Section Monad.

Lemma run_bind_unfold {A B} (c : Run A) (f : A → Run B) w :
  (c ≫= f) w = match c w with
               | (Ok a, w') => f a w'
               | (Raise e, w') => (Raise e, w')
               end.
Proof. reflexivity. Qed.

Lemma bind_inv {A B} (c : Run A) (f : A → Run B) w r w' :
  (c ≫= f) w = (r, w') →
  (∃ a w1, c w = (Ok a, w1) ∧ f a w1 = (r, w'))
  ∨ (∃ e, c w = (Raise e, w') ∧ r = Raise e).
Proof.
  unfold mbind, run_bind. destruct (c w) as [[a|e] w1]; intros H.
  - left. eauto.
  - right. injection H as <- <-. eauto.
Qed.

Lemma bind_ok {A B} (c : Run A) (f : A → Run B) w a w1 :
  c w = (Ok a, w1) → (c ≫= f) w = f a w1.
Proof. intros H. unfold mbind, run_bind. by rewrite H. Qed.

Lemma emit_run e w :
  emit e w = (Ok tt, {| fs := fs w; weights := weights w;
                        metrics := metrics w; trace := trace w ++ [e] |}).
Proof. reflexivity. Qed.

Context (rel : World → World → Prop) `{!PreOrder rel}.

Lemma preserves_bind {A B} (c : Run A) (f : A → Run B) :
  preserves rel c → (∀ a, preserves rel (f a)) → preserves rel (c ≫= f).
Proof.
  intros Hc Hf w r w' H. apply bind_inv in H as [(a & w1 & H1 & H2)|(e & H1 & _)].
  - transitivity w1; [by eapply Hc | by eapply Hf].
  - by eapply Hc.
Qed.

Lemma preserves_ret {A} (a : A) : preserves rel (mret a).
Proof. intros w r w' [= <- <-]. reflexivity. Qed.

Lemma preserves_raise {A} (e : Exn) : preserves rel (raise (A:=A) e).
Proof. intros w r w' [= <- <-]. reflexivity. Qed.

Lemma preserves_for_each {A} (body : A → Run unit) xs :
  (∀ x, x ∈ xs → preserves rel (body x)) → preserves rel (for_each body xs).
Proof.
  induction xs as [|x xs IH]; intros Hb; cbn [for_each].
  - apply preserves_ret.
  - apply preserves_bind; [apply Hb; left|].
    intros _. apply IH. intros y Hy. apply Hb. by right.
Qed.

(** A loop whose every iteration succeeds and keeps an invariant. *)
Lemma for_each_ok {A} (inv : World → Prop) (body : A → Run unit) xs :
  (∀ x, x ∈ xs → ∀ w, inv w →
     ∃ w', body x w = (Ok tt, w') ∧ inv w' ∧ rel w w') →
  ∀ w, inv w → ∃ w', for_each body xs w = (Ok tt, w') ∧ inv w' ∧ rel w w'.
Proof.
  induction xs as [|x xs IH]; intros Hb w Hw; cbn [for_each].
  - exists w. split; [done|]. split; [done|reflexivity].
  - destruct (Hb x (list_elem_of_here _ _) w Hw) as (w1 & H1 & Hi1 & Hr1).
    destruct (IH (λ y Hy, Hb y (list_elem_of_further _ _ _ Hy)) w1 Hi1)
      as (w2 & H2 & Hi2 & Hr2).
    exists w2. split; [|split; [done|by transitivity w1]].
    by rewrite (bind_ok _ _ _ _ _ H1).
Qed.

End Monad.

Lemma elem_of_enumerate_from {A} (xs : list A) k i x :
  (i, x) ∈ zip (seq k (length xs)) xs → (k ≤ i < k + length xs)%nat ∧ x ∈ xs.
Proof.
  revert k. induction xs as [|y xs IH]; intros k; cbn [length seq zip zip_with].
  - intros H. by apply elem_of_nil in H.
  - intros H. apply elem_of_cons in H as [[= -> ->]|H].
    + split; [lia|left].
    + apply IH in H as [? ?]. split; [lia|by right].
Qed.

Lemma elem_of_enumerate {A} (xs : list A) i x :
  (i, x) ∈ enumerate xs → (i < length xs)%nat ∧ x ∈ xs.
Proof.
  intros H. apply elem_of_enumerate_from in H as [? ?]. split; [lia|done].
Qed.

#[local] Instance respects_cache_preorder flags : PreOrder (respects_cache flags).
Proof.
  split.
  - intros w. split; [done|]. exists []. by rewrite app_nil_r.
  - intros w1 w2 w3 [Hf12 (ev12 & Ht12 & Ha12)] [Hf23 (ev23 & Ht23 & Ha23)].
    split; [by eauto|]. exists (ev12 ++ ev23).
    split; [by rewrite Ht23, Ht12, app_assoc|].
    apply Forall_app. split; [done|].
    eapply Forall_impl; [exact Ha23|]. intros e He.
    destruct e; try done; cbn in *.
    + destruct (fs w1 !! _) as [x|] eqn:E; [|done].
      apply Hf12 in E. congruence.
    + destruct (fs w1 !! _) as [x|] eqn:E; [|done].
      apply Hf12 in E. congruence.
Qed.

#[local] Instance quiet_preorder : PreOrder quiet.
Proof.
  split.
  - intros w. split; [done|]. exists []. by rewrite app_nil_r.
  - intros w1 w2 w3 [Hf12 (ev12 & Ht12 & Ha12)] [Hf23 (ev23 & Ht23 & Ha23)].
    split; [congruence|]. exists (ev12 ++ ev23).
    split; [by rewrite Ht23, Ht12, app_assoc|]. by apply Forall_app.
Qed.

Section Cache.

Variable flags : Flags.
Variable env : Env.

(** The forward passes of one (member, dataset) pair leave the files alone. *)
Lemma collect_logits_effect m name steps it w r w' :
  collect_logits env m name steps it w = (r, w') →
  fs w' = fs w ∧ weights w' = weights w ∧ metrics w' = metrics w
  ∧ ∃ evs, trace w' = trace w ++ evs
           ∧ Forall (λ e, ∃ inputs, e = EvForward m name inputs) evs.
Proof.
  revert it w r w'. induction steps as [|steps IH]; intros it w r w';
    cbn [collect_logits].
  - intros [= <- <-]. repeat split. exists []. by rewrite app_nil_r.
  - destruct it as [|inputs rest].
    + intros [= <- <-]. repeat split. exists []. by rewrite app_nil_r.
    + cbn [create_feature_and_label]. intros H.
      apply bind_inv in H as [(out & w1 & H1 & H2)|(e & H1 & _)];
        [|by injection H1].
      injection H1 as <- <-.
      apply bind_inv in H2 as [(outs & w2 & H2 & H3)|(e & H2 & _)].
      * injection H3 as <- <-.
        apply IH in H2 as (-> & -> & -> & evs & -> & Hevs).
        repeat split. eexists (_ :: evs). cbn [trace].
        split; [by rewrite <- app_assoc|]. constructor; eauto.
      * apply IH in H2 as (-> & -> & -> & evs & -> & Hevs).
        repeat split. eexists (_ :: evs). cbn [trace].
        split; [by rewrite <- app_assoc|]. constructor; eauto.
Qed.


(** A cached pair costs one log line and nothing else. *)
Lemma predict_dataset_cached spe es nd m n name ds w :
  is_Some (fs w !! cache_filename flags name m) →
  predict_dataset flags env spe es nd m n name ds w
  = (Ok tt, {| fs := fs w; weights := weights w; metrics := metrics w;
               trace := trace w ++
                 [EvLog (LogPrediction (prediction_percent m n es nd)
                           (m + 1) es (n + 1) nd)] |}).
Proof.
  intros Hc. unfold predict_dataset, gfile_exists.
  unfold mbind at 1, run_bind at 1.
  rewrite bool_decide_eq_true_2 by done. reflexivity.
Qed.

Lemma predict_dataset_respects spe es nd m n name ds :
  preserves (respects_cache flags)
            (predict_dataset flags env spe es nd m n name ds).
Proof.
  intros w r w' H.
  destruct (fs w !! cache_filename flags name m) as [x|] eqn:Hfile.
  { rewrite predict_dataset_cached in H by eauto. injection H as <- <-.
    split; [done|]. eexists [_]. split; [done|]. by repeat constructor. }
  unfold predict_dataset, gfile_exists in H.
  unfold mbind at 1, run_bind at 1 in H.
  rewrite bool_decide_eq_false_2 in H by (rewrite Hfile; by intros [? ?]).
  cbn [negb] in H.
  assert (∀ w1 evs, fs w1 = fs w → trace w1 = trace w ++ evs →
            Forall (allowed flags w) evs → respects_cache flags w w1) as Hsame.
  { intros w1 evs Hfs Htr Hall. split; [by rewrite Hfs|eauto]. }
  assert (∀ evs, Forall (λ e, ∃ inputs, e = EvForward m name inputs) evs →
            Forall (allowed flags w) evs) as Hfw.
  { intros evs Hf. eapply Forall_impl; [exact Hf|]. by intros e [inputs ->]. }
  apply bind_inv in H as [([] & w4 & H4 & H5)|(e & H4 & _)].
  - (* the cache file was written *)
    injection H5 as <- <-.
    apply bind_inv in H4 as [(steps & w1 & H1 & H4)|(e & H1 & [=])].
    assert (w1 = w) as -> by (destruct (dict_get name spe); by injection H1).
    apply bind_inv in H4 as [(parts & w2 & H2 & H4)|(e & H2 & [=])].
    apply collect_logits_effect in H2 as (Hfs & _ & _ & evs & Htr & Hevs).
    apply bind_inv in H4 as [(logits & w3 & H3 & H4)|(e & H3 & [=])].
    assert (w3 = w2) as -> by (destruct parts; by injection H3).
    injection H4 as <-. split.
    + intros p x Hp. cbn [fs]. rewrite Hfs.
      rewrite lookup_insert_ne; [done|]. intros <-. congruence.
    + exists (evs ++ [EvWrite (cache_filename flags name m);
                      EvLog (LogPrediction (prediction_percent m n es nd)
                               (m + 1) es (n + 1) nd)]).
      cbn [trace]. rewrite Htr, <- !app_assoc. split; [done|].
      apply Forall_app. split; [by apply Hfw|]. by repeat constructor.
  - (* something raised before the write *)
    apply bind_inv in H4 as [(steps & w1 & H1 & H4)|(e1 & H1 & _)].
    2: { destruct (dict_get name spe); [done|].
         injection H1 as _ <-. reflexivity. }
    assert (w1 = w) as -> by (destruct (dict_get name spe); by injection H1).
    apply bind_inv in H4 as [(parts & w2 & H2 & H4)|(e2 & H2 & _)].
    2: { apply collect_logits_effect in H2 as (Hfs & _ & _ & evs & Htr & Hevs).
         by apply (Hsame _ evs); [| |apply Hfw]. }
    apply collect_logits_effect in H2 as (Hfs & _ & _ & evs & Htr & Hevs).
    apply bind_inv in H4 as [(logits & w3 & H3 & H4)|(e3 & H3 & _)];
      [by injection H4|].
    assert (w' = w2) as -> by (destruct parts; by injection H3).
    by apply (Hsame _ evs); [| |apply Hfw].
Qed.

Lemma predict_member_respects tds spe es m ckpt :
  preserves (respects_cache flags)
            (predict_member flags env tds spe es m ckpt).
Proof.
  unfold predict_member. apply preserves_bind; [apply _| |].
  - intros w r w' [= <- <-]. split; [done|]. eexists [_].
    split; [done|]. by repeat constructor.
  - intros _. apply preserves_for_each; [apply _|].
    intros [n [name ds]] _. apply predict_dataset_respects.
Qed.

Lemma write_predictions_respects tds spe ckpts :
  preserves (respects_cache flags) (write_predictions flags env tds spe ckpts).
Proof.
  unfold write_predictions. apply preserves_for_each; [apply _|].
  intros [m ckpt] _. apply predict_member_respects.
Qed.

Lemma write_predictions_populated tds spe ckpts w :
  populated flags tds ckpts w →
  ∃ w', write_predictions flags env tds spe ckpts w = (Ok tt, w')
        ∧ populated flags tds ckpts w' ∧ quiet w w'.
Proof.
  unfold write_predictions. apply (for_each_ok quiet).
  intros [m ckpt] Hm w1 Hpop. apply elem_of_enumerate in Hm as [Hm _].
  unfold predict_member.
  set (w2 := {| fs := fs w1; weights := Some ckpt; metrics := metrics w1;
                trace := trace w1 ++ [EvRestore ckpt] |}).
  assert (quiet w1 w2) as Hq12.
  { split; [done|]. eexists [_]. split; [done|]. by repeat constructor. }
  assert (populated flags tds ckpts w2) as Hpop2 by done.
  destruct (for_each_ok quiet (populated flags tds ckpts)
    (λ '(n, (name, test_dataset)),
       predict_dataset flags env spe (length ckpts) (length tds) m n name
         test_dataset) (enumerate tds)) with (w := w2)
    as (w3 & H3 & Hpop3 & Hq23); [|done|].
  - intros [n [name ds]] Hn w4 Hw. apply elem_of_enumerate in Hn as [_ Hn].
    rewrite predict_dataset_cached.
    + eexists. split; [done|]. split; [done|]. split; [done|].
      eexists [_]. split; [done|]. by repeat constructor.
    + apply Hw; [done|]. apply list_elem_of_In, in_map_iff.
      exists (name, ds). split; [done|]. by apply list_elem_of_In.
  - exists w3. split; [|split; [done|by transitivity w2]].
    by rewrite (bind_ok _ _ w1 tt w2).
Qed.

End Cache.

(** ** The whole script on a populated cache *)

Section QuietRun.

Variable P : World → Prop.
Hypothesis P_stable : ∀ w w', quiet w w' → P w → P w'.

Lemma quiet_run_ret {A} (a : A) (Q : A → Prop) : Q a → quiet_run P (mret a) Q.
Proof.
  intros Ha w r w' _ [= <- <-]. split; [reflexivity|]. by intros ? [= <-].
Qed.

Lemma quiet_run_raise {A} (e : Exn) (Q : A → Prop) : quiet_run P (raise e) Q.
Proof. intros w r w' _ [= <- <-]. split; [reflexivity|]. by intros. Qed.

Lemma quiet_run_bind {A B} (c : Run A) (f : A → Run B) Q Q' :
  quiet_run P c Q → (∀ a, Q a → quiet_run P (f a) Q') →
  quiet_run P (c ≫= f) Q'.
Proof.
  intros Hc Hf w r w' Hw H.
  apply bind_inv in H as [(a & w1 & H1 & H2)|(e & H1 & ->)].
  - destruct (Hc _ _ _ Hw H1) as [Hq1 Ha].
    destruct (Hf a (Ha a eq_refl) w1 r w') as [Hq2 Hb]; [by eapply P_stable|done|].
    split; [by transitivity w1|done].
  - destruct (Hc _ _ _ Hw H1) as [Hq1 _]. split; [done|]. by intros.
Qed.

Lemma quiet_run_preserves {A} (c : Run A) :
  preserves quiet c → quiet_run P c (λ _, True).
Proof. intros Hc w r w' _ H. split; [by eapply Hc|done]. Qed.

Lemma quiet_run_weaken {A} (c : Run A) (Q Q' : A → Prop) :
  (∀ a, Q a → Q' a) → quiet_run P c Q → quiet_run P c Q'.
Proof.
  intros HQ Hc w r w' Hw H. destruct (Hc _ _ _ Hw H) as [? Ha]. split; eauto.
Qed.

End QuietRun.

Section QuietPrimitives.

Lemma quiet_same w w' evs :
  fs w' = fs w → trace w' = trace w ++ evs → Forall quiet_event evs → quiet w w'.
Proof. intros. split; eauto. Qed.

Lemma emit_quiet e : quiet_event e → preserves quiet (emit e).
Proof.
  intros He w r w' [= <- <-]. apply (quiet_same _ _ [e]); [done|done|].
  by constructor.
Qed.

Lemma lift_option_quiet {A} e (o : option A) : preserves quiet (lift_option e o).
Proof. destruct o; intros w r w' [= <- <-]; reflexivity. Qed.

Lemma floordiv_quiet a b : preserves quiet (floordiv a b).
Proof.
  unfold floordiv. destruct (b =? 0)%Z; intros w r w' [= <- <-]; reflexivity.
Qed.

Lemma np_load_quiet path : preserves quiet (np_load path).
Proof.
  intros w r w' H. unfold np_load in H. destruct (fs w !! path).
  - injection H as <- <-. apply (quiet_same _ _ [EvRead path]); [done|done|].
    by constructor.
  - injection H as <- <-. reflexivity.
Qed.

Lemma set_metrics_quiet m : preserves quiet (set_metrics m).
Proof.
  intros w r w' [= <- <-]. apply (quiet_same _ _ []); [done| |done].
  by rewrite app_nil_r.
Qed.

Lemma update_state_quiet key u : preserves quiet (update_state key u).
Proof.
  unfold update_state. apply preserves_bind; [apply _| |].
  - intros w r w' [= <- <-]. reflexivity.
  - intros m. destruct (m !! key); [apply set_metrics_quiet|].
    apply preserves_raise. apply _.
Qed.

Lemma load_members_quiet flags name members :
  preserves quiet (load_members flags name members).
Proof.
  induction members as [|m members IH]; cbn [load_members].
  - apply preserves_ret. apply _.
  - apply preserves_bind; [apply _|apply np_load_quiet|]. intros a.
    apply preserves_bind; [apply _|apply IH|]. intros rest.
    apply preserves_ret. apply _.
Qed.

Lemma evaluate_step_quiet name bs arrays k inputs :
  preserves quiet (evaluate_step name bs arrays k inputs).
Proof.
  unfold evaluate_step. cbn [create_feature_and_label].
  apply preserves_bind; [apply _| |].
  { unfold slice_examples. destruct arrays;
      [apply preserves_raise|apply preserves_ret]; apply _. }
  intros logits. apply preserves_bind; [apply _|apply lift_option_quiet|].
  intros nll. apply preserves_bind; [apply _|apply lift_option_quiet|].
  intros probs. destruct (String.eqb name "clean").
  - apply preserves_bind; [apply _|apply lift_option_quiet|]. intros gce.
    repeat (apply preserves_bind; [apply _|apply update_state_quiet|]; intros _).
    apply update_state_quiet.
  - repeat (apply preserves_bind; [apply _|apply update_state_quiet|]; intros _).
    apply update_state_quiet.
Qed.

Lemma evaluate_steps_quiet name bs arrays k steps ds :
  preserves quiet (evaluate_steps name bs arrays k steps ds).
Proof.
  revert k ds. induction steps as [|steps IH]; intros k ds; cbn [evaluate_steps].
  - apply preserves_ret. apply _.
  - destruct ds as [|inputs rest]; [apply preserves_raise; apply _|].
    apply preserves_bind; [apply _|apply evaluate_step_quiet|].
    intros _. apply IH.
Qed.

Lemma evaluate_dataset_quiet flags spe bs es nd n name ds :
  preserves quiet (evaluate_dataset flags spe bs es nd n name ds).
Proof.
  unfold evaluate_dataset.
  apply preserves_bind; [apply _|apply load_members_quiet|]. intros arrays.
  apply preserves_bind; [apply _| |].
  { unfold convert_members. destruct arrays; [apply preserves_ret; apply _|].
    destruct (TF.shape3 _); [apply preserves_ret|apply preserves_raise]; apply _. }
  intros logits. apply preserves_bind; [apply _|apply lift_option_quiet|].
  intros steps. apply preserves_bind; [apply _|apply evaluate_steps_quiet|].
  intros _. by apply emit_quiet.
Qed.

Lemma build_datasets_quiet env bs builders :
  ∀ w r w', build_datasets env bs builders w = (r, w') →
    quiet w w' ∧ ∀ tds spe, r = Ok (tds, spe) → map fst tds = map fst builders.
Proof.
  induction builders as [|[name mode] builders IH]; intros w r w' H;
    cbn [build_datasets] in H.
  - injection H as <- <-. split; [reflexivity|]. by intros ? ? [= <- <-].
  - apply bind_inv in H as [([] & w1 & H1 & H)|(e & H1 & ->)].
    2: { by injection H1. }
    apply (emit_quiet (EvBuildSplit name) I) in H1.
    apply bind_inv in H as [(steps & w2 & H2 & H)|(e & H2 & ->)].
    2: { apply floordiv_quiet in H2. split; [by transitivity w1|done]. }
    apply floordiv_quiet in H2.
    apply bind_inv in H as [([tds spe] & w3 & H3 & H)|(e & H3 & ->)].
    2: { apply IH in H3 as [H3 _].
         split; [transitivity w1; [done|by transitivity w2]|done]. }
    apply IH in H3 as [H3 Hn]. injection H as <- <-.
    split; [transitivity w1; [done|by transitivity w2]|].
    intros ? ? [= <- <-]. cbn [map fst]. f_equal. by eapply Hn.
Qed.

End QuietPrimitives.

(** Nothing before or after the inference phase runs the model or writes a
    file. *)
Lemma main_quiet flags env w :
  let ckpts := glob env (os_path_join (checkpoint_dir flags) "**/*.index") in
  (∀ m name, (m < length ckpts)%nat → name ∈ ["clean"; "ood"]%string →
             is_Some (fs w !! cache_filename flags name m)) →
  quiet w (main flags env w).2.
Proof.
  intros ckpts Hpop.
  set (P := λ w1 : World, ∀ m name, (m < length ckpts)%nat →
              name ∈ ["clean"; "ood"]%string →
              is_Some (fs w1 !! cache_filename flags name m)).
  assert (∀ w1 w2, quiet w1 w2 → P w1 → P w2) as HP.
  { intros w1 w2 [Hfs _] H1 m name Hm Hn. rewrite Hfs. by apply H1. }
  assert (quiet_run P (main flags env) (λ _, True)) as Hmain.
  2: { by eapply Hmain; [exact Hpop|apply surjective_pairing]. }
  unfold main. destruct (negb _); [apply quiet_run_raise|].
  destruct (1 <? _)%Z; [apply quiet_run_raise|].
  do 5 (eapply quiet_run_bind;
        [done|by apply quiet_run_preserves, emit_quiet|]; intros _ _).
  eapply (quiet_run_bind P HP _ _
            (λ '(tds, _), map fst tds = ["clean"; "ood"]%string)).
  { intros w1 r w2 _ H. apply build_datasets_quiet in H as [Hq Hn].
    split; [done|]. intros [tds spe] ->. by eapply Hn. }
  intros [tds spe] Htds.
  eapply quiet_run_bind; [done| |intros _ _].
  { apply quiet_run_preserves. unfold create_model.
    repeat case_match; (by apply emit_quiet) || (apply preserves_raise; apply _). }
  do 7 (eapply quiet_run_bind;
        [done|by apply quiet_run_preserves, emit_quiet|]; intros _ _).
  eapply (quiet_run_bind P HP _ _ (λ _, True)).
  { intros w1 r w2 Hw1 H.
    destruct (write_predictions_populated flags env tds spe
                (map drop_index_suffix ckpts) w1) as (w3 & H3 & _ & Hq).
    - intros m name Hm Hn. rewrite length_map in Hm. rewrite Htds in Hn.
      by apply Hw1.
    - subst ckpts. rewrite H3 in H. injection H as <- <-. done. }
  intros _ _.
  eapply quiet_run_bind; [done|apply quiet_run_preserves, set_metrics_quiet|].
  intros _ _.
  eapply (quiet_run_bind P HP _ _ (λ _, True)).
  { apply quiet_run_preserves. apply preserves_for_each; [apply _|].
    intros [n [name ds]] _. apply evaluate_dataset_quiet. }
  intros _ _. eapply quiet_run_bind; [done| |].
  { apply quiet_run_preserves. intros w1 r w2 [= <- <-]. reflexivity. }
  intros m _. by apply quiet_run_preserves, emit_quiet.
Qed.

(** C6. In the inference phase a (dataset, member) pair whose cache file
    [{dataset}_{member}.npy] already exists gets no forward pass and its file
    is neither rewritten nor changed, whatever happens to the other pairs;
    and when every pair of the run has its file, the phase returns with no
    forward pass and no write at all, and leaves the files as they were.  So
    does the whole of [main] when the files of all discovered checkpoints
    exist for both datasets. *)
Theorem cache_skip_if_exists flags env tds spe ckpts w :
  let run := write_predictions flags env tds spe ckpts w in
  let found := glob env (os_path_join (checkpoint_dir flags) "**/*.index") in
  (∀ m name, is_Some (fs w !! cache_filename flags name m) →
     fs run.2 !! cache_filename flags name m = fs w !! cache_filename flags name m
     ∧ ∃ evs, trace run.2 = trace w ++ evs
              ∧ (∀ inputs, EvForward m name inputs ∉ evs)
              ∧ EvWrite (cache_filename flags name m) ∉ evs)
  ∧ ((∀ m name, (m < length ckpts)%nat → name ∈ map fst tds →
                is_Some (fs w !! cache_filename flags name m)) →
     run.1 = Ok tt ∧ quiet w run.2)
  ∧ ((∀ m name, (m < length found)%nat → name ∈ ["clean"; "ood"]%string →
                is_Some (fs w !! cache_filename flags name m)) →
     quiet w (main flags env w).2).
Proof.
  intros run found. split; [|split].
  - intros m name [x Hx].
    destruct (write_predictions_respects flags env tds spe ckpts w run.1 run.2)
      as [Hfs (evs & Htr & Hall)]; [apply surjective_pairing|].
    split; [rewrite Hx; by apply Hfs|].
    exists evs. split; [done|]. rewrite List.Forall_forall in Hall.
    split.
    + intros inputs Hin. apply list_elem_of_In, Hall in Hin. cbn in Hin. congruence.
    + intros Hin. apply list_elem_of_In, Hall in Hin. cbn in Hin. congruence.
  - intros Hpop.
    destruct (write_predictions_populated flags env tds spe ckpts w Hpop)
      as (w' & Hrun & _ & Hq).
    subst run. by rewrite Hrun.
  - apply main_quiet.
Qed.

Lemma cache_skip_if_exists_witness :
  let run := write_predictions Scenario.flags Scenario.env
               [("clean", Scenario.batches); ("ood", Scenario.batches)]%string
               [("clean", 2%Z); ("ood", 2%Z)]%string
               ["ckpt/run0/model"%string] Scenario.cached_world in
  (run.1 = Ok tt ∧ quiet Scenario.cached_world run.2)
  ∧ quiet Scenario.cached_world
      (main Scenario.flags Scenario.env Scenario.cached_world).2.
Proof.
  intros run.
  assert (∀ m name, (m < 1)%nat → name ∈ ["clean"; "ood"]%string →
            is_Some (fs Scenario.cached_world
                     !! cache_filename Scenario.flags name m)) as Hpop.
  { intros m name Hm Hname. assert (m = 0%nat) as -> by lia.
    apply elem_of_cons in Hname as [->|Hname];
      [vm_compute; eexists; reflexivity|].
    apply elem_of_cons in Hname as [->|Hname];
      [vm_compute; eexists; reflexivity|].
    by apply elem_of_nil in Hname. }
  destruct (cache_skip_if_exists Scenario.flags Scenario.env
              [("clean", Scenario.batches); ("ood", Scenario.batches)]%string
              [("clean", 2%Z); ("ood", 2%Z)]%string
              ["ckpt/run0/model"%string] Scenario.cached_world)
    as (_ & Hphase & Hmain).
  split; [apply Hphase; exact Hpop|apply Hmain; exact Hpop].
Defined.

(** ** Evaluation steps and the examples they cover *)

Section Steps.

Variable flags : Flags.
Variable env : Env.

(** The iterator is advanced [steps] times: later batches are never read. *)
Lemma collect_logits_take m name steps it w :
  collect_logits env m name steps it w
  = collect_logits env m name steps (take steps it) w.
Proof.
  revert it w. induction steps as [|steps IH]; intros [|inputs rest] w;
    cbn [collect_logits take firstn]; try done.
  cbn [create_feature_and_label].
  rewrite !run_bind_unfold. cbn [forward].
  rewrite !run_bind_unfold. by rewrite IH.
Qed.

Lemma collect_logits_ok m name steps it w :
  (steps ≤ length it)%nat →
  collect_logits env m name steps it w
  = (Ok (map (λ b, model_call env (weights w) (map features b)) (take steps it)),
     {| fs := fs w; weights := weights w; metrics := metrics w;
        trace := trace w
                 ++ map (λ b, EvForward m name (map features b)) (take steps it) |}).
Proof.
  revert it w. induction steps as [|steps IH]; intros it w Hlen;
    cbn [collect_logits take firstn map].
  - rewrite app_nil_r. by destruct w.
  - destruct it as [|inputs rest]; [simpl in Hlen; lia|].
    cbn [create_feature_and_label take firstn map].
    rewrite run_bind_unfold. cbn [forward].
    rewrite run_bind_unfold.
    rewrite IH by (simpl in Hlen; lia). cbn [weights trace fs metrics].
    by rewrite <- app_assoc.
Qed.

Lemma predict_dataset_take spe es nd m n name ds steps w :
  dict_get name spe = Some steps →
  predict_dataset flags env spe es nd m n name ds w
  = predict_dataset flags env spe es nd m n name (take (Z.to_nat steps) ds) w.
Proof.
  intros Hs. unfold predict_dataset. rewrite Hs. cbn [lift_option].
  rewrite !run_bind_unfold. cbn [gfile_exists].
  destruct (negb _); [|done].
  rewrite !run_bind_unfold. cbn [mret run_ret].
  rewrite !run_bind_unfold.
  by rewrite collect_logits_take.
Qed.

(** Rows a model with the [batch, num_classes] output contract returns. *)
Lemma length_inferred_rows wt (batches : list Batch) bs :
  (∀ inputs, length (model_call env wt inputs) = length inputs) →
  Forall (λ b : Batch, length b = bs) batches →
  length (concat (map (λ b, model_call env wt (map features b)) batches))
  = (length batches * bs)%nat.
Proof.
  intros Hc. induction 1 as [|b batches Hb _ IH]; [done|].
  cbn [map concat length]. rewrite length_app, IH, Hc, length_map, Hb. lia.
Qed.

Lemma predict_dataset_writes spe es nd m n name ds steps w :
  fs w !! cache_filename flags name m = None →
  dict_get name spe = Some steps →
  (1 ≤ Z.to_nat steps ≤ length ds)%nat →
  predict_dataset flags env spe es nd m n name ds w
  = (Ok tt,
     {| fs := <[cache_filename flags name m :=
                 concat (map (λ b, model_call env (weights w) (map features b))
                             (take (Z.to_nat steps) ds))]> (fs w);
        weights := weights w; metrics := metrics w;
        trace := trace w
          ++ map (λ b, EvForward m name (map features b)) (take (Z.to_nat steps) ds)
          ++ [EvWrite (cache_filename flags name m);
              EvLog (LogPrediction (prediction_percent m n es nd)
                       (m + 1) es (n + 1) nd)] |}).
Proof.
  intros Hfile Hs Hsteps. unfold predict_dataset, gfile_exists. rewrite Hs.
  rewrite run_bind_unfold.
  rewrite bool_decide_eq_false_2 by (rewrite Hfile; by intros [? ?]).
  cbn [negb lift_option].
  rewrite !run_bind_unfold. cbn [mret run_ret].
  rewrite !run_bind_unfold.
  rewrite collect_logits_ok by lia.
  destruct (take (Z.to_nat steps) ds) as [|b bs'] eqn:Htake.
  { apply (f_equal length) in Htake. rewrite length_take in Htake.
    simpl in Htake. lia. }
  cbn [map tf_concat]. rewrite run_bind_unfold.
  cbn [mret run_ret np_save fs weights metrics trace].
  rewrite emit_run. cbn [fs weights metrics trace].
  by rewrite <- !app_assoc.
Qed.

End Steps.

Ltac no_member H :=
  repeat (apply elem_of_cons in H as [H|H]; [done|]); by apply elem_of_nil in H.

Section Scoring.

Variable flags : Flags.

Lemma scored_nil name m :
  (∀ key, key ∈ metric_keys name → is_Some (m !! key)) → scored name [] m m.
Proof.
  intros Hk key Hkey. destruct (Hk key Hkey) as [us Hus].
  exists us, []. by rewrite app_nil_r.
Qed.

Lemma scored_cons name b batches m m1 m2 :
  scored name [b] m m1 → scored name batches m1 m2 →
  scored name (b :: batches) m m2.
Proof.
  intros H1 H2 key Hkey.
  destruct (H1 key Hkey) as (us & n1 & Hm & Hm1 & Hl1 & Hp1).
  destruct (H2 key Hkey) as (us' & n2 & Hm1' & Hm2 & Hl2 & Hp2).
  rewrite Hm1 in Hm1'. injection Hm1' as <-.
  exists us, (n1 ++ n2). split; [done|]. split; [by rewrite app_assoc|].
  split; [rewrite length_app, Hl1, Hl2; done|].
  intros Hp. rewrite map_app, Hp1, Hp2 by done. done.
Qed.

Lemma scored_keys name batches m m' :
  scored name batches m m' →
  ∀ key, key ∈ metric_keys name → is_Some (m' !! key).
Proof. intros H key Hkey. destruct (H key Hkey) as (? & ? & _ & ? & _). eauto. Qed.

Lemma update_state_ok key u us w :
  metrics w !! key = Some us →
  update_state key u w
  = (Ok tt, {| fs := fs w; weights := weights w;
               metrics := <[key := us ++ [u]]> (metrics w); trace := trace w |}).
Proof.
  intros H. unfold update_state. rewrite run_bind_unfold.
  cbn [get_metrics]. by rewrite H.
Qed.

Lemma py_slice_inside {A} (a b : Z) (l : list A) :
  (0 ≤ a ≤ b)%Z → (b ≤ Z.of_nat (length l))%Z →
  py_slice a b l = take (Z.to_nat (b - a)) (drop (Z.to_nat a) l).
Proof.
  intros Hab Hb. unfold py_slice, slice_index.
  assert ((a <? 0)%Z = false) as -> by lia.
  assert ((b <? 0)%Z = false) as -> by lia.
  by rewrite !Z.min_l by lia.
Qed.

Lemma slice_shape M N C (bs : Z) (k : nat) arrays :
  TF.shape3 arrays = Some (M, N, C) →
  (0 < bs)%Z →
  ((Z.of_nat k + 1) * bs ≤ Z.of_nat N)%Z →
  TF.shape3 (map (py_slice (Z.of_nat k * bs) ((Z.of_nat k + 1) * bs)) arrays)
  = Some (M, Z.to_nat bs, C).
Proof.
  intros Hs Hbs HN. apply shape3_iff. split; [|lia].
  apply shape3_rectangular in Hs as (HM & Hpos & Hall).
  split; [by rewrite length_map|]. split; [done|].
  apply Forall_map. eapply Forall_impl; [exact Hall|].
  intros member [Hlen Hrows]. cbn beta.
  rewrite py_slice_inside by lia. split.
  - rewrite length_take, length_drop. nia.
  - by apply Forall_take, Forall_drop.
Qed.

Lemma evaluate_step_ok name M N C (bs : Z) arrays k inputs w :
  TF.shape3 arrays = Some (M, N, C) →
  (0 < bs)%Z →
  ((Z.of_nat k + 1) * bs ≤ Z.of_nat N)%Z →
  length inputs = Z.to_nat bs →
  valid_labels C (map label inputs) →
  (∀ key, key ∈ metric_keys name → is_Some (metrics w !! key)) →
  ∃ w', evaluate_step name bs arrays k inputs w = (Ok tt, w')
        ∧ fs w' = fs w ∧ weights w' = weights w ∧ trace w' = trace w
        ∧ scored name [inputs] (metrics w) (metrics w').
Proof.
  intros Hs Hbs HN Hlen Hv Hkeys.
  pose proof (slice_shape M N C bs k arrays Hs Hbs HN) as Hsk.
  unfold evaluate_step. cbn [create_feature_and_label].
  rewrite (cast_valid_labels C) by done.
  assert (arrays ≠ []) as Hne by (intros ->; done).
  unfold slice_examples. destruct arrays as [|a0 arrays']; [done|].
  set (arrays := a0 :: arrays') in *.
  rewrite run_bind_unfold. cbn [mret run_ret].
  set (logits := map _ arrays) in *.
  assert (length (map label inputs) = Z.to_nat bs) as Hll
    by (by rewrite length_map).
  rewrite run_bind_unfold.
  rewrite (ensemble_nll_value M (Z.to_nat bs) C) by done.
  cbn [lift_option mret run_ret]. rewrite run_bind_unfold.
  unfold ensemble_probs at 1. rewrite Hsk. cbn [lift_option mret run_ret].
  unfold scored, metric_keys, prediction_keys in *.
  destruct (String.eqb name "clean") eqn:Hclean.
  - destruct (Hkeys "test/negative_log_likelihood") as [us1 H1]; [set_solver|].
    destruct (Hkeys "test/gibbs_cross_entropy") as [us2 H2]; [set_solver|].
    destruct (Hkeys "test/accuracy") as [us3 H3]; [set_solver|].
    destruct (Hkeys "test/ece") as [us4 H4]; [set_solver|].
    rewrite run_bind_unfold.
    rewrite (gibbs_value M (Z.to_nat bs) C) by done.
    cbn [lift_option mret run_ret].
    rewrite run_bind_unfold, (update_state_ok _ _ us1) by done.
    rewrite run_bind_unfold, (update_state_ok _ _ us2)
      by (cbn [metrics]; by rewrite lookup_insert_ne).
    rewrite run_bind_unfold, (update_state_ok _ _ us3)
      by (cbn [metrics]; by rewrite !lookup_insert_ne).
    rewrite (update_state_ok _ _ us4)
      by (cbn [metrics]; by rewrite !lookup_insert_ne).
    eexists. split; [done|]. cbn [fs weights trace metrics].
    do 3 (split; [done|]).
    intros key Hkey.
    apply elem_of_cons in Hkey as [->|Hkey];
      [|apply elem_of_cons in Hkey as [->|Hkey];
        [|apply elem_of_cons in Hkey as [->|Hkey];
          [|apply elem_of_cons in Hkey as [->|Hkey];
            [|by apply elem_of_nil in Hkey]]]].
    + exists us1, [UpdValue (TF.reduce_mean (map (λ i, Spec.ensemble_nll
               (Z.to_nat (nth i (map label inputs) 0%Z))
               (example_logits i logits)) (seq 0 (Z.to_nat bs))))].
      split; [done|]. split; [by simplify_map_eq|]. split; [done|].
      intros Hp. by no_member Hp.
    + eexists us2, [_]. split; [done|]. split; [by simplify_map_eq|].
      split; [done|]. intros Hp. by no_member Hp.
    + eexists us3, [_]. split; [done|]. split; [by simplify_map_eq|].
      split; [done|]. done.
    + eexists us4, [_]. split; [done|]. split; [by simplify_map_eq|].
      split; [done|]. done.
  - destruct (Hkeys ("test/nll_" +:+ name)) as [us1 H1]; [set_solver|].
    destruct (Hkeys ("test/accuracy_" +:+ name)) as [us2 H2]; [set_solver|].
    destruct (Hkeys ("test/ece_" +:+ name)) as [us3 H3]; [set_solver|].
    assert ("test/nll_" +:+ name ≠ "test/accuracy_" +:+ name) as N12 by done.
    assert ("test/nll_" +:+ name ≠ "test/ece_" +:+ name) as N13 by done.
    assert ("test/accuracy_" +:+ name ≠ "test/ece_" +:+ name) as N23 by done.
    rewrite run_bind_unfold, (update_state_ok _ _ us1) by done.
    rewrite run_bind_unfold, (update_state_ok _ _ us2)
      by (cbn [metrics]; by rewrite lookup_insert_ne).
    rewrite (update_state_ok _ _ us3)
      by (cbn [metrics]; by rewrite !lookup_insert_ne).
    eexists. split; [done|]. cbn [fs weights trace metrics].
    do 3 (split; [done|]).
    intros key Hkey.
    apply elem_of_cons in Hkey as [->|Hkey];
      [|apply elem_of_cons in Hkey as [->|Hkey];
        [|apply elem_of_cons in Hkey as [->|Hkey];
          [|by apply elem_of_nil in Hkey]]].
    + eexists us1, [_]. split; [done|].
      split; [by rewrite !lookup_insert_ne, lookup_insert_eq by done|].
      split; [done|]. intros Hp. by no_member Hp.
    + eexists us2, [_]. split; [done|].
      split; [by rewrite !lookup_insert_ne, lookup_insert_eq by done|].
      split; [done|]. done.
    + eexists us3, [_]. split; [done|].
      split; [by rewrite lookup_insert_eq|].
      split; [done|]. done.
Qed.

Lemma evaluate_steps_take name bs arrays k steps ds w :
  evaluate_steps name bs arrays k steps ds w
  = evaluate_steps name bs arrays k steps (take steps ds) w.
Proof.
  revert k ds w. induction steps as [|steps IH]; intros k [|inputs rest] w;
    cbn [evaluate_steps take firstn]; try done.
  rewrite !run_bind_unfold.
  destruct (evaluate_step name bs arrays k inputs w) as [[[]|e] w1]; [|done].
  apply IH.
Qed.

Lemma evaluate_steps_ok name M N C (bs : Z) arrays steps :
  TF.shape3 arrays = Some (M, N, C) →
  (0 < bs)%Z →
  ∀ k ds w,
    (Z.of_nat (k + steps) * bs ≤ Z.of_nat N)%Z →
    (steps ≤ length ds)%nat →
    Forall (λ b : Batch, length b = Z.to_nat bs ∧ valid_labels C (map label b))
           (take steps ds) →
    (∀ key, key ∈ metric_keys name → is_Some (metrics w !! key)) →
    ∃ w', evaluate_steps name bs arrays k steps ds w = (Ok tt, w')
          ∧ fs w' = fs w ∧ weights w' = weights w ∧ trace w' = trace w
          ∧ scored name (take steps ds) (metrics w) (metrics w').
Proof.
  intros Hs Hbs. induction steps as [|steps IH]; intros k ds w HN Hlen Hall Hkeys.
  - exists w. cbn [evaluate_steps take firstn]. do 4 (split; [done|]).
    by apply scored_nil.
  - destruct ds as [|inputs rest]; [simpl in Hlen; lia|].
    cbn [take firstn] in *. apply Forall_cons in Hall as [[Hb Hv] Hall].
    destruct (evaluate_step_ok name M N C bs arrays k inputs w)
      as (w1 & H1 & Hf1 & Hw1 & Ht1 & Hsc1); try done; [lia|].
    destruct (IH (S k) rest w1) as (w2 & H2 & Hf2 & Hw2 & Ht2 & Hsc2);
      [lia|simpl in Hlen; lia|done|by eapply scored_keys|].
    exists w2. cbn [evaluate_steps]. rewrite run_bind_unfold, H1.
    split; [done|]. do 3 (split; [congruence|]).
    by eapply scored_cons.
Qed.

Lemma load_members_ok name members arrays w :
  Forall2 (λ m a, fs w !! cache_filename flags name m = Some a) members arrays →
  load_members flags name members w
  = (Ok arrays,
     {| fs := fs w; weights := weights w; metrics := metrics w;
        trace := trace w ++ map (λ m, EvRead (cache_filename flags name m)) members |}).
Proof.
  intros H. revert w arrays H.
  induction members as [|m members IH]; intros w arrays H.
  - apply Forall2_nil_inv_l in H as ->. cbn. rewrite app_nil_r. by destruct w.
  - apply Forall2_cons_inv_l in H as (a & arrays' & Ha & H & ->).
    cbn [load_members map]. rewrite run_bind_unfold. unfold np_load.
    rewrite Ha. rewrite run_bind_unfold, (IH _ arrays') by exact H.
    cbn [mret run_ret fs weights metrics trace]. by rewrite <- app_assoc.
Qed.

Lemma evaluate_dataset_take spe bs es nd n name ds steps w :
  dict_get name spe = Some steps →
  evaluate_dataset flags spe bs es nd n name ds w
  = evaluate_dataset flags spe bs es nd n name (take (Z.to_nat steps) ds) w.
Proof.
  intros Hspe. unfold evaluate_dataset. rewrite Hspe. cbn [lift_option].
  rewrite !(run_bind_unfold (load_members _ _ _)).
  destruct (load_members _ _ _ _) as [[arrays|e] w1]; [|done].
  rewrite !(run_bind_unfold (convert_members _)).
  destruct (convert_members _ _) as [[logits|e] w2]; [|done].
  rewrite !(run_bind_unfold (mret _)). cbn [mret run_ret].
  rewrite !(run_bind_unfold (evaluate_steps _ _ _ _ _ _)).
  by rewrite evaluate_steps_take.
Qed.

Lemma evaluate_dataset_ok spe N C (bs : Z) es nd n name ds steps arrays w :
  dict_get name spe = Some steps →
  Forall2 (λ m a, fs w !! cache_filename flags name m = Some a)
          (seq 0 es) arrays →
  TF.shape3 arrays = Some (es, N, C) →
  (0 < bs)%Z →
  (steps * bs ≤ Z.of_nat N)%Z →
  (Z.to_nat steps ≤ length ds)%nat →
  Forall (λ b : Batch, length b = Z.to_nat bs ∧ valid_labels C (map label b))
         (take (Z.to_nat steps) ds) →
  (∀ key, key ∈ metric_keys name → is_Some (metrics w !! key)) →
  ∃ w', evaluate_dataset flags spe bs es nd n name ds w = (Ok tt, w')
        ∧ fs w' = fs w
        ∧ scored name (take (Z.to_nat steps) ds) (metrics w) (metrics w').
Proof.
  intros Hspe Hfiles Hs Hbs HN Hlen Hall Hkeys.
  unfold evaluate_dataset. rewrite Hspe.
  rewrite run_bind_unfold, (load_members_ok _ _ arrays) by done.
  assert (convert_members arrays = mret arrays) as ->.
  { unfold convert_members. rewrite Hs. destruct arrays; [done|done]. }
  rewrite run_bind_unfold. cbn [mret run_ret lift_option].
  rewrite run_bind_unfold. cbn [mret run_ret].
  set (w1 := {| fs := fs w; weights := weights w; metrics := metrics w;
                trace := _ |}).
  destruct (evaluate_steps_ok name es N C bs arrays (Z.to_nat steps) Hs Hbs
              0%nat ds w1) as (w2 & H2 & Hf2 & _ & _ & Hsc); try done.
  { destruct (Z.le_gt_cases 0 steps); [|nia].
    rewrite Nat.add_0_l, Z2Nat.id by done. lia. }
  rewrite run_bind_unfold, H2, emit_run.
  eexists. split; [done|]. cbn [fs metrics]. split; [by rewrite Hf2|done].
Qed.

End Scoring.


Lemma build_datasets_steps env (bs : Z) w :
  bs ≠ 0%Z →
  build_datasets env bs [("clean", "ind"); ("ood", "ood")]%string w
  = (Ok ([("clean", test_split env "ind"); ("ood", test_split env "ood")]%string,
         [("clean", num_test_examples env "ind" / bs);
          ("ood", num_test_examples env "ood" / bs)]%string%Z),
     {| fs := fs w; weights := weights w; metrics := metrics w;
        trace := trace w ++ [EvBuildSplit "clean"; EvBuildSplit "ood"] |}).
Proof.
  intros Hbs. apply Z.eqb_neq in Hbs.
  cbn. unfold floordiv. rewrite Hbs.
  unfold mbind, run_bind, mret, run_ret, emit. cbn. by rewrite <- app_assoc.
Qed.

Section Rows.

Lemma slice_batch_rows M N C (bs : Z) (k : nat) (arrays : list Npy) :
  TF.shape3 arrays = Some (M, N, C) →
  (0 < bs)%Z →
  ((Z.of_nat k + 1) * bs ≤ Z.of_nat N)%Z →
  map (py_slice (Z.of_nat k * bs) ((Z.of_nat k + 1) * bs)) arrays
  = map (batch_rows (Z.to_nat bs) k) arrays.
Proof.
  intros Hs Hbs HN. apply shape3_rectangular in Hs as (_ & _ & Hall).
  apply map_ext_Forall. eapply Forall_impl; [exact Hall|].
  intros a [Hlen _]. cbn beta. rewrite py_slice_inside by lia.
  unfold batch_rows. f_equal; [lia|]. f_equal. lia.
Qed.

(** The rows of batch [k] in the concatenation of equally long outputs. *)
Lemma batch_rows_concat (n k : nat) (outs : list Npy) (out : Npy) :
  Forall (λ o, length o = n) outs →
  outs !! k = Some out →
  batch_rows n k (concat outs) = out.
Proof.
  intros Hall. revert k. induction Hall as [|o outs Ho Hall IH]; intros k Hk.
  { done. }
  unfold batch_rows in *. destruct k as [|k]; cbn [concat].
  - injection Hk as ->. rewrite Nat.mul_0_l, drop_0. by apply take_app_length'.
  - cbn [lookup list_lookup] in Hk.
    replace (S k * n)%nat with (length o + k * n)%nat by lia.
    rewrite drop_app_add'; [by apply IH|done].
Qed.

End Rows.

Section RowScoring.

Variable flags : Flags.

Lemma scored_rows_nil name bs arrays k m :
  (∀ key, key ∈ metric_keys name → is_Some (m !! key)) →
  scored_rows name bs arrays k [] m m.
Proof.
  intros Hk key Hkey. destruct (Hk key Hkey) as [us Hus].
  exists us, []. by rewrite app_nil_r.
Qed.

Lemma scored_rows_keys name bs arrays k batches m m' :
  scored_rows name bs arrays k batches m m' →
  ∀ key, key ∈ metric_keys name → is_Some (m' !! key).
Proof. intros H key Hkey. destruct (H key Hkey) as (? & ? & _ & ? & _). eauto. Qed.

Lemma scored_rows_cons name bs arrays k b batches m m1 m2 :
  scored_rows name bs arrays k [b] m m1 →
  scored_rows name bs arrays (S k) batches m1 m2 →
  scored_rows name bs arrays k (b :: batches) m m2.
Proof.
  intros H1 H2 key Hkey.
  destruct (H1 key Hkey) as (us & n1 & Hm & Hm1 & Hu1).
  destruct (H2 key Hkey) as (us' & n2 & Hm1' & Hm2 & Hu2).
  rewrite Hm1 in Hm1'. injection Hm1' as <-.
  cbn [length seq zip zip_with mapM] in Hu1 |- *.
  destruct (step_update name key bs arrays k b) as [u|]; [|done].
  cbn [mbind option_bind mret option_ret] in Hu1 |- *.
  injection Hu1 as <-. rewrite Hu2. cbn [fmap option_fmap option_map].
  exists us, (u :: n2). split; [done|]. split; [|done].
  by rewrite Hm2, <- app_assoc.
Qed.

Lemma evaluate_step_rows name M N C (bs : Z) arrays k inputs w :
  TF.shape3 arrays = Some (M, N, C) →
  (0 < bs)%Z →
  ((Z.of_nat k + 1) * bs ≤ Z.of_nat N)%Z →
  length inputs = Z.to_nat bs →
  valid_labels C (map label inputs) →
  (∀ key, key ∈ metric_keys name → is_Some (metrics w !! key)) →
  ∃ w', evaluate_step name bs arrays k inputs w = (Ok tt, w')
        ∧ fs w' = fs w ∧ weights w' = weights w ∧ trace w' = trace w
        ∧ scored_rows name (Z.to_nat bs) arrays k [inputs]
            (metrics w) (metrics w').
Proof.
  intros Hs Hbs HN Hlen Hv Hkeys.
  pose proof (slice_shape M N C bs k arrays Hs Hbs HN) as Hsk.
  rewrite (slice_batch_rows M N C) in Hsk by done.
  unfold evaluate_step. cbn [create_feature_and_label].
  rewrite (cast_valid_labels C) by done.
  assert (arrays ≠ []) as Hne by (intros ->; done).
  unfold slice_examples. destruct arrays as [|a0 arrays']; [done|].
  set (arrays := a0 :: arrays') in *.
  rewrite run_bind_unfold. cbn [mret run_ret].
  rewrite (slice_batch_rows M N C) by done.
  assert (length (map label inputs) = Z.to_nat bs) as Hll
    by (by rewrite length_map).
  pose proof (ensemble_nll_value M (Z.to_nat bs) C _ Hsk _ Hll Hv) as HE.
  pose proof (gibbs_value M (Z.to_nat bs) C _ Hsk _ Hll Hv) as HG.
  assert (∃ probs, ensemble_probs (map (batch_rows (Z.to_nat bs) k) arrays)
                   = Some probs) as [probs HP].
  { unfold ensemble_probs. rewrite Hsk. eauto. }
  set (logits := map (batch_rows (Z.to_nat bs) k) arrays) in *.
  set (nll := map _ (seq 0 (Z.to_nat bs))) in HE.
  set (gce := map _ (seq 0 (Z.to_nat bs))) in HG.
  rewrite run_bind_unfold, HE. cbn [lift_option mret run_ret].
  rewrite run_bind_unfold, HP. cbn [lift_option mret run_ret].
  unfold scored_rows, step_update, metric_keys, prediction_keys in *.
  fold logits. cbn [length seq zip zip_with mapM].
  destruct (String.eqb name "clean") eqn:Hclean.
  - destruct (Hkeys "test/negative_log_likelihood") as [us1 H1]; [set_solver|].
    destruct (Hkeys "test/gibbs_cross_entropy") as [us2 H2]; [set_solver|].
    destruct (Hkeys "test/accuracy") as [us3 H3]; [set_solver|].
    destruct (Hkeys "test/ece") as [us4 H4]; [set_solver|].
    rewrite run_bind_unfold, HG. cbn [lift_option mret run_ret].
    rewrite run_bind_unfold, (update_state_ok _ _ us1) by done.
    rewrite run_bind_unfold, (update_state_ok _ _ us2)
      by (cbn [metrics]; by rewrite lookup_insert_ne).
    rewrite run_bind_unfold, (update_state_ok _ _ us3)
      by (cbn [metrics]; by rewrite !lookup_insert_ne).
    rewrite (update_state_ok _ _ us4)
      by (cbn [metrics]; by rewrite !lookup_insert_ne).
    eexists. split; [done|]. cbn [fs weights trace metrics].
    do 3 (split; [done|]).
    intros key Hkey.
    apply elem_of_cons in Hkey as [->|Hkey];
      [|apply elem_of_cons in Hkey as [->|Hkey];
        [|apply elem_of_cons in Hkey as [->|Hkey];
          [|apply elem_of_cons in Hkey as [->|Hkey];
            [|by apply elem_of_nil in Hkey]]]].
    + exists us1, [UpdValue (TF.reduce_mean nll)].
      split; [done|]. split; [by simplify_map_eq|].
      rewrite bool_decide_eq_false_2 by (intros Hp; by no_member Hp).
      cbn [String.eqb Ascii.eqb Bool.eqb]. fold logits. by rewrite HE.
    + exists us2, [UpdValue (TF.reduce_mean gce)].
      split; [done|]. split; [by simplify_map_eq|].
      rewrite bool_decide_eq_false_2 by (intros Hp; by no_member Hp).
      cbn [String.eqb Ascii.eqb Bool.eqb]. fold logits. by rewrite HG.
    + exists us3, [UpdPrediction (map label inputs) probs].
      split; [done|]. split; [by simplify_map_eq|].
      rewrite bool_decide_eq_true_2 by set_solver. fold logits. by rewrite HP.
    + exists us4, [UpdPrediction (map label inputs) probs].
      split; [done|]. split; [by simplify_map_eq|].
      rewrite bool_decide_eq_true_2 by set_solver. fold logits. by rewrite HP.
  - destruct (Hkeys ("test/nll_" +:+ name)) as [us1 H1]; [set_solver|].
    destruct (Hkeys ("test/accuracy_" +:+ name)) as [us2 H2]; [set_solver|].
    destruct (Hkeys ("test/ece_" +:+ name)) as [us3 H3]; [set_solver|].
    assert ("test/nll_" +:+ name ≠ "test/accuracy_" +:+ name) as N12 by done.
    assert ("test/nll_" +:+ name ≠ "test/ece_" +:+ name) as N13 by done.
    assert ("test/accuracy_" +:+ name ≠ "test/ece_" +:+ name) as N23 by done.
    rewrite run_bind_unfold, (update_state_ok _ _ us1) by done.
    rewrite run_bind_unfold, (update_state_ok _ _ us2)
      by (cbn [metrics]; by rewrite lookup_insert_ne).
    rewrite (update_state_ok _ _ us3)
      by (cbn [metrics]; by rewrite !lookup_insert_ne).
    eexists. split; [done|]. cbn [fs weights trace metrics].
    do 3 (split; [done|]).
    intros key Hkey.
    apply elem_of_cons in Hkey as [->|Hkey];
      [|apply elem_of_cons in Hkey as [->|Hkey];
        [|apply elem_of_cons in Hkey as [->|Hkey];
          [|by apply elem_of_nil in Hkey]]].
    + exists us1, [UpdValue (TF.reduce_mean nll)]. split; [done|].
      split; [by rewrite !lookup_insert_ne, lookup_insert_eq by done|].
      rewrite bool_decide_eq_false_2 by (intros Hp; by no_member Hp).
      change (String.eqb ("test/nll_" +:+ name) "test/gibbs_cross_entropy")
        with false.
      fold logits. by rewrite HE.
    + exists us2, [UpdPrediction (map label inputs) probs]. split; [done|].
      split; [by rewrite !lookup_insert_ne, lookup_insert_eq by done|].
      rewrite bool_decide_eq_true_2 by set_solver. fold logits. by rewrite HP.
    + exists us3, [UpdPrediction (map label inputs) probs]. split; [done|].
      split; [by rewrite lookup_insert_eq|].
      rewrite bool_decide_eq_true_2 by set_solver. fold logits. by rewrite HP.
Qed.

End RowScoring.

Section RowScoringLoop.

Variable flags : Flags.

Lemma evaluate_steps_rows name M N C (bs : Z) arrays steps :
  TF.shape3 arrays = Some (M, N, C) →
  (0 < bs)%Z →
  ∀ k ds w,
    (Z.of_nat (k + steps) * bs ≤ Z.of_nat N)%Z →
    (steps ≤ length ds)%nat →
    Forall (λ b : Batch, length b = Z.to_nat bs ∧ valid_labels C (map label b))
           (take steps ds) →
    (∀ key, key ∈ metric_keys name → is_Some (metrics w !! key)) →
    ∃ w', evaluate_steps name bs arrays k steps ds w = (Ok tt, w')
          ∧ fs w' = fs w
          ∧ scored_rows name (Z.to_nat bs) arrays k (take steps ds)
              (metrics w) (metrics w').
Proof.
  intros Hs Hbs. induction steps as [|steps IH]; intros k ds w HN Hlen Hall Hkeys.
  - exists w. cbn [evaluate_steps take firstn]. do 2 (split; [done|]).
    by apply scored_rows_nil.
  - destruct ds as [|inputs rest]; [simpl in Hlen; lia|].
    cbn [take firstn] in *. apply Forall_cons in Hall as [[Hb Hv] Hall].
    destruct (evaluate_step_rows name M N C bs arrays k inputs w)
      as (w1 & H1 & Hf1 & _ & _ & Hsc1); try done; [lia|].
    destruct (IH (S k) rest w1) as (w2 & H2 & Hf2 & Hsc2);
      [lia|simpl in Hlen; lia|done|by eapply scored_rows_keys|].
    exists w2. cbn [evaluate_steps]. rewrite run_bind_unfold, H1.
    split; [done|]. split; [congruence|].
    by eapply scored_rows_cons.
Qed.

Lemma evaluate_dataset_rows spe N C (bs : Z) es nd n name ds steps arrays w :
  dict_get name spe = Some steps →
  Forall2 (λ m a, fs w !! cache_filename flags name m = Some a)
          (seq 0 es) arrays →
  TF.shape3 arrays = Some (es, N, C) →
  (0 < bs)%Z →
  (steps * bs ≤ Z.of_nat N)%Z →
  (Z.to_nat steps ≤ length ds)%nat →
  Forall (λ b : Batch, length b = Z.to_nat bs ∧ valid_labels C (map label b))
         (take (Z.to_nat steps) ds) →
  (∀ key, key ∈ metric_keys name → is_Some (metrics w !! key)) →
  ∃ w', evaluate_dataset flags spe bs es nd n name ds w = (Ok tt, w')
        ∧ scored_rows name (Z.to_nat bs) arrays 0 (take (Z.to_nat steps) ds)
            (metrics w) (metrics w').
Proof.
  intros Hspe Hfiles Hs Hbs HN Hlen Hall Hkeys.
  unfold evaluate_dataset. rewrite Hspe.
  rewrite run_bind_unfold, (load_members_ok _ _ _ arrays) by done.
  assert (convert_members arrays = mret arrays) as ->.
  { unfold convert_members. rewrite Hs. destruct arrays; [done|done]. }
  rewrite run_bind_unfold. cbn [mret run_ret lift_option].
  rewrite run_bind_unfold. cbn [mret run_ret].
  set (w1 := {| fs := fs w; weights := weights w; metrics := metrics w;
                trace := _ |}).
  destruct (evaluate_steps_rows name es N C bs arrays (Z.to_nat steps) Hs Hbs
              0%nat ds w1) as (w2 & H2 & Hf2 & Hsc); try done.
  { destruct (Z.le_gt_cases 0 steps); [|nia].
    rewrite Nat.add_0_l, Z2Nat.id by done. lia. }
  rewrite run_bind_unfold, H2, emit_run.
  eexists. split; [done|]. done.
Qed.

End RowScoringLoop.

(** C9. For a split with at least one full batch the number of evaluation
    steps is [num_test_examples // batch_size].  Inference and evaluation
    read the first [steps] batches only, so later (trailing) examples change
    neither the cache nor a metric.  A missing cache file is written with
    exactly [steps * batch_size] rows, rows [k * batch_size, (k + 1) *
    batch_size) being the model outputs on batch [k]; and the evaluation
    feeds every metric of the dataset one update per such batch, in order,
    computed from the labels of batch [k] and rows [k * batch_size, (k + 1) *
    batch_size) of every member's array. *)
Theorem evaluation_covers_full_batches
    flags env (bs : Z) (name mode : string) (es nd m n N C : nat)
    (arrays : list Npy) (w0 wB wC : World) :
  let builders := [("clean", "ind"); ("ood", "ood")]%string in
  let tds := [("clean", test_split env "ind"); ("ood", test_split env "ood")]%string in
  let spe := [("clean", num_test_examples env "ind" / bs);
              ("ood", num_test_examples env "ood" / bs)]%string%Z in
  let ds := test_split env mode in
  let steps := Z.to_nat (num_test_examples env mode / bs) in
  let file := cache_filename flags name m in
  (0 < bs)%Z →
  (name, mode) ∈ builders →
  (1 ≤ steps ≤ length ds)%nat →
  Forall (λ b : Batch, length b = Z.to_nat bs ∧ valid_labels C (map label b))
         (take steps ds) →
  (∀ wt inputs, length (model_call env wt inputs) = length inputs) →
  fs wB !! file = None →
  Forall2 (λ m a, fs wC !! cache_filename flags name m = Some a) (seq 0 es) arrays →
  TF.shape3 arrays = Some (es, N, C) →
  (Z.of_nat steps * bs ≤ Z.of_nat N)%Z →
  (∀ key, key ∈ metric_keys name → is_Some (metrics wC !! key)) →
  (build_datasets env bs builders w0).1 = Ok (tds, spe)
  ∧ dict_get name spe = Some (num_test_examples env mode / bs)%Z
  ∧ dict_get name tds = Some ds
  ∧ (∀ w, predict_dataset flags env spe es nd m n name ds w
          = predict_dataset flags env spe es nd m n name (take steps ds) w)
  ∧ (∀ w, evaluate_dataset flags spe bs es nd n name ds w
          = evaluate_dataset flags spe bs es nd n name (take steps ds) w)
  ∧ length (concat (take steps ds)) = (steps * Z.to_nat bs)%nat
  ∧ (∃ wB' rows,
       predict_dataset flags env spe es nd m n name ds wB = (Ok tt, wB')
       ∧ fs wB' !! file = Some rows
       ∧ rows = concat (map (λ b, model_call env (weights wB) (map features b))
                            (take steps ds))
       ∧ length rows = (steps * Z.to_nat bs)%nat
       ∧ (∀ k b, take steps ds !! k = Some b →
            batch_rows (Z.to_nat bs) k rows
            = model_call env (weights wB) (map features b))
       ∧ trace wB' = trace wB
           ++ map (λ b, EvForward m name (map features b)) (take steps ds)
           ++ [EvWrite file;
               EvLog (LogPrediction (prediction_percent m n es nd)
                        (m + 1) es (n + 1) nd)])
  ∧ (∃ wC',
       evaluate_dataset flags spe bs es nd n name ds wC = (Ok tt, wC')
       ∧ fs wC' = fs wC
       ∧ scored name (take steps ds) (metrics wC) (metrics wC')
       ∧ scored_rows name (Z.to_nat bs) arrays 0 (take steps ds)
           (metrics wC) (metrics wC')).
Proof.
  intros builders tds spe ds steps file Hbs Hname Hsteps Hall Hmodel HfileB
    Hfiles Hshape HN Hkeys.
  assert (dict_get name spe = Some (num_test_examples env mode / bs)%Z
          ∧ dict_get name tds = Some ds) as [Hspe Htds].
  { subst builders. apply elem_of_cons in Hname as [[= -> ->]|Hname]; [done|].
    apply elem_of_cons in Hname as [[= -> ->]|Hname]; [done|].
    by apply elem_of_nil in Hname. }
  assert (length (take steps ds) = steps) as Htake by (rewrite length_take; lia).
  assert (Forall (λ b : Batch, length b = Z.to_nat bs) (take steps ds)) as Hfull.
  { eapply Forall_impl; [exact Hall|]. by intros b [? _]. }
  split; [by rewrite build_datasets_steps by lia|].
  split; [done|]. split; [done|].
  split; [intros w; by apply predict_dataset_take|].
  split; [intros w; by apply evaluate_dataset_take|].
  split.
  { rewrite <- Htake at 2. clear -Hall.
    induction Hall as [|b l [Hb _] _ IH]; [done|].
    cbn [concat length]. rewrite length_app, IH, Hb. lia. }
  split.
  - do 2 eexists. split; [by apply predict_dataset_writes|].
    cbn [fs trace]. split; [by rewrite lookup_insert_eq|]. split; [done|].
    split; [|split; [|done]].
    + rewrite (length_inferred_rows env _ (take steps ds) (Z.to_nat bs));
        [by rewrite Htake|done|done].
    + intros k b Hk. apply batch_rows_concat.
      * apply Forall_map. eapply Forall_impl; [exact Hfull|].
        intros b' Hb'. cbn beta. by rewrite Hmodel, length_map.
      * rewrite list_lookup_fmap.
        exact (f_equal (fmap (λ b0 : Batch,
                 model_call env (weights wB) (map features b0))) Hk).
  - destruct (evaluate_dataset_ok flags spe N C bs es nd n name ds
               (num_test_examples env mode / bs)%Z arrays wC)
      as (wC' & Hrun & Hfs & Hsc); try done; try lia.
    destruct (evaluate_dataset_rows flags spe N C bs es nd n name ds
               (num_test_examples env mode / bs)%Z arrays wC)
      as (wC'' & Hrun' & Hrows); try done; try lia.
    rewrite Hrun in Hrun'. injection Hrun' as <-. eauto 10.
Qed.

Lemma evaluation_covers_full_batches_witness :
  let steps := Z.to_nat (num_test_examples Scenario.env "ind" / 2) in
  let spe := [("clean", num_test_examples Scenario.env "ind" / 2);
              ("ood", num_test_examples Scenario.env "ood" / 2)]%string%Z in
  steps = 2%nat
  ∧ length (concat (take steps Scenario.batches)) = 4%nat
  ∧ (∃ w' rows,
       predict_dataset Scenario.flags Scenario.env spe 1 2 0 0 "clean"
         Scenario.batches Scenario.empty_world = (Ok tt, w')
       ∧ fs w' !! "out/clean_0.npy"%string = Some rows
       ∧ length rows = 4%nat)
  ∧ (∃ w',
       evaluate_dataset Scenario.flags spe 2 1 2 0 "clean"
         Scenario.batches Scenario.cached_world = (Ok tt, w')
       ∧ scored "clean" (take steps Scenario.batches)
           (metrics Scenario.cached_world) (metrics w')
       ∧ scored_rows "clean" 2 [Scenario.cached] 0 (take steps Scenario.batches)
           (metrics Scenario.cached_world) (metrics w')).
Proof.
  intros steps spe.
  assert (valid_labels 2 [0; 1]%Z ∧ valid_labels 2 [1; 0]%Z) as [Hv1 Hv2]
    by (split; (constructor; [split; lia | constructor; [split; lia | constructor]])).
  destruct (evaluation_covers_full_batches Scenario.flags Scenario.env 2
              "clean" "ind" 1 2 0 0 4 2 [Scenario.cached]
              Scenario.empty_world Scenario.empty_world Scenario.cached_world)
    as (_ & _ & _ & _ & _ & Hn & (wB & rows & HB & Hrows & _ & Hlen & _)
          & (wC & HC & _ & Hsc & Hsr)).
  - lia.
  - left.
  - change (1 ≤ 2 ≤ 3)%nat. lia.
  - change (Forall (λ b : Batch, length b = 2%nat ∧ valid_labels 2 (map label b))
              (take 2 Scenario.batches)).
    cbn. constructor; [split; [reflexivity|exact Hv1]|].
    constructor; [split; [reflexivity|exact Hv2]|constructor].
  - intros wt inputs. cbn. apply length_map.
  - reflexivity.
  - constructor; [vm_compute; reflexivity|constructor].
  - reflexivity.
  - change (Z.of_nat 2 * 2 ≤ Z.of_nat 4)%Z. lia.
  - intros key Hkey. cbn in Hkey.
    repeat (apply elem_of_cons in Hkey as [->|Hkey];
            [vm_compute; eexists; reflexivity|]).
    by apply elem_of_nil in Hkey.
  - split; [reflexivity|]. split; [exact Hn|].
    split; [exists wB, rows; split; [exact HB|split; [exact Hrows|exact Hlen]]|].
    exists wC. split; [exact HC|]. split; [exact Hsc|exact Hsr].
Defined.

(** C9, counterexample. The claim does not hold for a split with fewer
    examples than one batch: with one test example and a batch size of two
    there are zero steps, and on an empty cache the run does not leave the
    example out silently but raises, at [tf.concat] of the empty list of
    logits, before any file is written. *)
Lemma fewer_examples_than_a_batch_raise :
  (num_test_examples Scenario.short_env "ind"
   / (per_core_batch_size Scenario.flags * num_cores Scenario.flags) = 0)%Z
  ∧ ∃ w', main Scenario.flags Scenario.short_env Scenario.empty_world
          = (Raise InvalidArgumentError, w')
          ∧ fs w' = fs Scenario.empty_world.
Proof.
  split; [reflexivity|]. eexists. split; [vm_compute; reflexivity|reflexivity].
Qed.

Lemma prediction_percent_eq m n es nd :
  prediction_percent m n es nd
  = (INR m * INR nd + (INR n + 1)) / (INR es * INR nd).
Proof.
  unfold prediction_percent.
  rewrite !plus_INR, !mult_INR. done.
Qed.

(** C7. After member [m] and dataset [n] (both 0-based) the inference loop
    logs the completion [(m * num_datasets + (n + 1)) / (ensemble_size *
    num_datasets)]: the dataset just finished is counted.  The iteration
    does return when the pair is cached, and also when the dataset has the
    [steps >= 1] batches to run through the model. *)
Theorem prediction_log_percent flags env spe es nd m n name ds w :
  let run := predict_dataset flags env spe es nd m n name ds w in
  let logged :=
    EvLog (LogPrediction ((INR m * INR nd + (INR n + 1)) / (INR es * INR nd))
             (m + 1) es (n + 1) nd) in
  (run.1 = Ok tt → last (trace run.2) = Some logged)
  ∧ (is_Some (fs w !! cache_filename flags name m) → run.1 = Ok tt)
  ∧ (∀ steps, dict_get name spe = Some steps →
              (1 ≤ Z.to_nat steps ≤ length ds)%nat → run.1 = Ok tt).
Proof.
  intros run logged. split; [|split].
  - intros Hok.
    assert (predict_dataset flags env spe es nd m n name ds w = (Ok tt, run.2))
      as H by (rewrite <- Hok; apply surjective_pairing).
    unfold predict_dataset in H.
    apply bind_inv in H as [(cached & w1 & _ & H)|(e & _ & [=])].
    apply bind_inv in H as [(u & w2 & _ & H)|(e & _ & [=])].
    rewrite emit_run in H. injection H as <-. cbn [trace].
    rewrite last_snoc. subst logged. by rewrite prediction_percent_eq.
  - intros Hc. subst run. by rewrite predict_dataset_cached.
  - intros steps Hs Hsteps. subst run.
    destruct (fs w !! cache_filename flags name m) as [x|] eqn:Hfile.
    + by rewrite predict_dataset_cached by eauto.
    + by rewrite (predict_dataset_writes flags env spe es nd m n name ds steps).
Qed.

Lemma prediction_log_percent_witness :
  let run := predict_dataset Scenario.flags Scenario.env [] 1 2 0 0 "clean" []
               Scenario.cached_world in
  run.1 = Ok tt
  ∧ last (trace run.2)
    = Some (EvLog (LogPrediction
                     ((INR 0 * INR 2 + (INR 0 + 1)) / (INR 1 * INR 2))
                     (0 + 1) 1 (0 + 1) 2)).
Proof.
  intros run.
  destruct (prediction_log_percent Scenario.flags Scenario.env [] 1 2 0 0
              "clean" [] Scenario.cached_world) as (Hlast & Hcached & _).
  assert (run.1 = Ok tt) as Hok
    by (apply Hcached; vm_compute; eexists; reflexivity).
  split; [exact Hok|apply Hlast; exact Hok].
Defined.

(** C7, counterexample. With one member, two datasets and [m = n = 0] the
    logged completion is 1/2, not the [(m * num_datasets + n) /
    (ensemble_size * num_datasets) = 0] of the zero-based formula. *)
Lemma prediction_percent_counts_finished_dataset :
  ∃ w' p, predict_dataset Scenario.flags Scenario.env [] 1 2 0 0 "clean" []
            Scenario.cached_world = (Ok tt, w')
          ∧ last (trace w') = Some (EvLog (LogPrediction p 1 1 1 2))
          ∧ p ≠ (INR 0 * INR 2 + INR 0) / (INR 1 * INR 2).
Proof.
  do 2 eexists. split.
  - apply predict_dataset_cached. vm_compute. eexists. reflexivity.
  - cbn [trace]. split; [apply last_snoc|].
    unfold prediction_percent. cbn. lra.
Qed.

(** C8, counterexample. With an unknown model family [main] raises only
    after both dataset builders were constructed and both test splits
    built. *)
Lemma unknown_family_raised_after_dataset_construction :
  lower (model_family Scenario.lstm_flags) ≠ "textcnn"%string
  ∧ lower (model_family Scenario.lstm_flags) ≠ "bert"%string
  ∧ ∃ msg w', main Scenario.lstm_flags Scenario.env Scenario.empty_world
              = (Raise (ValueError msg), w')
              ∧ EvDatasetBuilder "ind" 2 "data" ∈ trace w'
              ∧ EvBuildSplit "clean" ∈ trace w'
              ∧ trace w' ≠ trace Scenario.empty_world.
Proof.
  split; [done|]. split; [done|].
  do 2 eexists. split; [vm_compute; reflexivity|].
  cbn [trace]. split; [do 3 right; left|].
  split; [do 5 right; left|done].
Qed.

(** C8. An unsupported accelerator configuration ([use_gpu] false or
    [num_cores > 1]) raises [ValueError] before anything else happens.  An
    unknown model family (with a supported accelerator and a non-zero batch
    size) raises [ValueError] after the seed was set, the output directory
    made and both datasets constructed and built, and before any model
    creation, checkpoint discovery, inference, cache write or metric
    update. *)
Theorem configuration_errors flags env w :
  (use_gpu flags = false ∨ (1 < num_cores flags)%Z →
   ∃ msg, main flags env w = (Raise (ValueError msg), w))
  ∧ (use_gpu flags = true → (num_cores flags ≤ 1)%Z →
     (per_core_batch_size flags * num_cores flags ≠ 0)%Z →
     lower (model_family flags) ≠ "textcnn"%string →
     lower (model_family flags) ≠ "bert"%string →
     ∃ msg w', main flags env w = (Raise (ValueError msg), w')
       ∧ fs w' = fs w ∧ weights w' = weights w ∧ metrics w' = metrics w
       ∧ trace w' = trace w ++
           [EvEnableV2; EvSetSeed (seed flags); EvMakeDirs (output_dir flags);
            EvDatasetBuilder "ind" (per_core_batch_size flags) (dataset_dir flags);
            EvDatasetBuilder "ood" (per_core_batch_size flags) (dataset_dir flags);
            EvBuildSplit "clean"; EvBuildSplit "ood"]).
Proof.
  split.
  - intros [Hgpu | Hcores]; unfold main.
    + rewrite Hgpu. cbn. eauto.
    + destruct (use_gpu flags); cbn; [|eauto].
      apply Z.ltb_lt in Hcores. rewrite Hcores. eauto.
  - intros Hgpu Hcores Hbs Hcnn Hbert. unfold main.
    rewrite Hgpu. cbn [negb].
    apply Z.ltb_ge in Hcores. rewrite Hcores.
    unfold create_model.
    apply String.eqb_neq in Hcnn, Hbert. rewrite Hcnn, Hbert.
    apply Z.eqb_neq in Hbs.
    cbn. unfold floordiv. rewrite Hbs. cbn.
    do 2 eexists. split; [reflexivity|]. cbn.
    rewrite <- !app_assoc. done.
Qed.

Lemma configuration_errors_witness :
  (∃ msg, main Scenario.cpu_flags Scenario.env Scenario.empty_world
          = (Raise (ValueError msg), Scenario.empty_world))
  ∧ (∃ msg w', main Scenario.lstm_flags Scenario.env Scenario.empty_world
               = (Raise (ValueError msg), w')
               ∧ fs w' = fs Scenario.empty_world
               ∧ weights w' = weights Scenario.empty_world
               ∧ metrics w' = metrics Scenario.empty_world
               ∧ trace w' = trace Scenario.empty_world ++
                   [EvEnableV2; EvSetSeed 0; EvMakeDirs "out";
                    EvDatasetBuilder "ind" 2 "data";
                    EvDatasetBuilder "ood" 2 "data";
                    EvBuildSplit "clean"; EvBuildSplit "ood"]).
Proof.
  split.
  - apply (configuration_errors Scenario.cpu_flags Scenario.env
             Scenario.empty_world). left. reflexivity.
  - apply (configuration_errors Scenario.lstm_flags Scenario.env
             Scenario.empty_world).
    + reflexivity.
    + cbn. lia.
    + cbn. lia.
    + discriminate.
    + discriminate.
Defined.

(** * Further properties *)

(** ** Further properties of the two losses *)

Section ShiftInvariance.

Lemma shifted_row_length row row' : shifted_row row row' → length row' = length row.
Proof. intros [c ->]. by rewrite length_map. Qed.

Lemma shifted_row_sym row row' : shifted_row row row' → shifted_row row' row.
Proof.
  intros [c ->]. exists (- c). rewrite map_map.
  rewrite <- (map_id row) at 1. apply map_ext. intros x. lra.
Qed.

Lemma shifted_logits_sym logits logits' :
  shifted_logits logits logits' → shifted_logits logits' logits.
Proof.
  intros H. apply Forall2_flip. eapply Forall2_impl; [exact H|].
  intros m m' Hm. apply Forall2_flip. eapply Forall2_impl; [exact Hm|].
  intros r r'. apply shifted_row_sym.
Qed.

Lemma sum_exp_shift c z :
  TF.reduce_sum (map exp (map (λ x, x + c) z)) = exp c * TF.reduce_sum (map exp z).
Proof.
  rewrite map_map, <- reduce_sum_scale. apply reduce_sum_ext. intros x.
  rewrite Rplus_comm. apply exp_plus.
Qed.

Lemma xent_value_shift label c z :
  (label < length z)%nat →
  TF.xent_value label (map (λ x, x + c) z) = TF.xent_value label z.
Proof.
  intros Hl. rewrite !xent_value_spec by (by rewrite ?length_map).
  unfold Spec.nll. f_equal. f_equal.
  rewrite !prob_eq by (by rewrite ?length_map).
  rewrite (nth_map_lt _ _ _ 0 0) by done. rewrite sum_exp_shift, exp_plus.
  assert (z ≠ []) as Hne by (destruct z; simpl in *; [lia|done]).
  pose proof (sum_exp_pos z Hne). pose proof (exp_pos c). field. lra.
Qed.

Lemma sparse_xent_shift l row row' :
  shifted_row row row' → TF.sparse_xent l row' = TF.sparse_xent l row.
Proof.
  intros [c ->]. unfold TF.sparse_xent, TF.label_in_range.
  rewrite length_map. repeat case_bool_decide; cbn [andb]; try done.
  f_equal. apply xent_value_shift. lia.
Qed.

Lemma batch_xent_shift labels member member' :
  Forall2 shifted_row member member' →
  TF.sparse_softmax_cross_entropy_with_logits labels member'
  = TF.sparse_softmax_cross_entropy_with_logits labels member.
Proof.
  intros H. unfold TF.sparse_softmax_cross_entropy_with_logits.
  rewrite <- (Forall2_length _ _ _ H). case_bool_decide; [|done].
  clear H0. revert labels. induction H as [|row row' member member' Hr _ IH];
    intros [|l labels]; try done.
  cbn [zip zip_with mapM fst snd]. by rewrite (sparse_xent_shift _ _ _ Hr), IH.
Qed.

Lemma softmax_shift row row' :
  shifted_row row row' → TF.softmax row' = TF.softmax row.
Proof.
  intros [c ->]. destruct row as [|x row]; [done|].
  rewrite !softmax_spec by done. unfold Spec.softmax.
  rewrite sum_exp_shift, map_map. apply map_ext. intros y.
  rewrite exp_plus.
  pose proof (sum_exp_pos (x :: row)). pose proof (exp_pos c).
  field. split; [|lra]. apply Rgt_not_eq. by apply H.
Qed.

Lemma shape3_shift_Some logits logits' s :
  shifted_logits logits logits' →
  TF.shape3 logits = Some s → TF.shape3 logits' = Some s.
Proof.
  intros H. destruct s as [[M B] C]. rewrite !shape3_iff.
  intros [(HM & Hpos & Hall) H0]. split; [|done].
  split; [by rewrite <- (Forall2_length _ _ _ H)|]. split; [done|].
  eapply Forall2_Forall_r; [exact H|].
  eapply Forall_impl; [exact Hall|]. intros member [Hb Hrows] member' Hm.
  split; [by rewrite <- (Forall2_length _ _ _ Hm)|].
  eapply Forall2_Forall_r; [exact Hm|].
  eapply Forall_impl; [exact Hrows|]. intros row Hrow row' Hs. cbn beta in *.
  by rewrite (shifted_row_length _ _ Hs).
Qed.

Lemma shape3_shift logits logits' :
  shifted_logits logits logits' → TF.shape3 logits' = TF.shape3 logits.
Proof.
  intros H. destruct (TF.shape3 logits) as [s|] eqn:E.
  - by apply (shape3_shift_Some logits).
  - destruct (TF.shape3 logits') as [s'|] eqn:E'; [|done].
    apply (shape3_shift_Some _ _ _ (shifted_logits_sym _ _ H)) in E'. congruence.
Qed.

Lemma member_nll_shift labels logits logits' :
  shifted_logits logits logits' →
  member_nll labels logits' = member_nll labels logits.
Proof.
  intros H. unfold member_nll. rewrite (shape3_shift _ _ H).
  destruct (TF.shape3 logits) as [[[M B] C]|]; [|done].
  destruct (TF.broadcast_to _ M B) as [bl|]; [|done]. cbn [mbind option_bind].
  assert (mapM (λ p, TF.sparse_softmax_cross_entropy_with_logits p.1 p.2)
               (zip bl logits')
          = mapM (λ p, TF.sparse_softmax_cross_entropy_with_logits p.1 p.2)
                 (zip bl logits)) as ->; [|done].
  revert bl. induction H as [|m m' logits logits' Hm _ IH]; intros [|l bl];
    try done.
  cbn [zip zip_with mapM fst snd]. by rewrite (batch_xent_shift _ _ _ Hm), IH.
Qed.

End ShiftInvariance.

(** X1. Adding a constant to all class scores of a row of logits, a constant
    of its own for every member and example, changes neither of the two
    losses nor the ensemble prediction, whatever the dtype of the logits. *)
Theorem losses_shift_invariant dtype labels logits logits' :
  shifted_logits logits logits' →
  ensemble_negative_log_likelihood dtype labels logits'
  = ensemble_negative_log_likelihood dtype labels logits
  ∧ gibbs_cross_entropy labels logits' = gibbs_cross_entropy labels logits
  ∧ ensemble_probs logits' = ensemble_probs logits.
Proof.
  intros H. unfold ensemble_negative_log_likelihood, gibbs_cross_entropy.
  rewrite (member_nll_shift _ _ _ H). split; [done|]. split; [done|].
  unfold ensemble_probs. rewrite (shape3_shift _ _ H).
  destruct (TF.shape3 logits) as [[[M B] C]|]; [|done]. do 2 f_equal.
  induction H as [|m m' logits logits' Hm _ IH]; [done|].
  cbn [map]. f_equal; [|done]. clear -Hm.
  induction Hm as [|r r' m m' Hr _ IH]; [done|].
  cbn [map]. by rewrite (softmax_shift _ _ Hr), IH.
Qed.

Lemma losses_shift_invariant_witness :
  shifted_logits [[[2; 0; 0]]; [[0; 2; 0]]] [[[3; 1; 1]]; [[-2; 0; -2]]]
  ∧ ensemble_negative_log_likelihood TF.float32 [0%Z]
      [[[3; 1; 1]]; [[-2; 0; -2]]]
    = ensemble_negative_log_likelihood TF.float32 [0%Z]
        [[[2; 0; 0]]; [[0; 2; 0]]].
Proof.
  assert (shifted_logits [[[2; 0; 0]]; [[0; 2; 0]]] [[[3; 1; 1]]; [[-2; 0; -2]]])
    as H.
  { repeat constructor.
    - exists 1. cbn [map]. repeat f_equal; lra.
    - exists (-2). cbn [map]. repeat f_equal; lra. }
  split; [exact H|]. apply (losses_shift_invariant TF.float32 [0%Z] _ _ H).
Defined.

(** ** Labels: broadcasting and range *)

Lemma map_replicate {A B} (f : A → B) n x :
  map f (replicate n x) = replicate n (f x).
Proof. induction n as [|n IH]; [done|]. cbn [replicate map]. by rewrite IH. Qed.

Lemma member_nll_single_label M B C l logits :
  TF.shape3 logits = Some (M, B, C) →
  member_nll [l] logits = member_nll (replicate B l) logits.
Proof.
  intros Hs. unfold member_nll. rewrite Hs, map_replicate. cbn [map].
  unfold TF.broadcast_to. rewrite length_replicate.
  rewrite (bool_decide_eq_true_2 (B = B)) by done.
  case_bool_decide as HB; [|done].
  cbn [length] in HB. subst B. done.
Qed.

Lemma member_nll_wrong_length M B C labels logits :
  TF.shape3 logits = Some (M, B, C) →
  length labels ≠ B → length labels ≠ 1%nat →
  member_nll labels logits = None.
Proof.
  intros Hs HB H1. unfold member_nll. rewrite Hs. unfold TF.broadcast_to.
  rewrite length_map. rewrite bool_decide_eq_false_2 by done.
  destruct labels as [|l [|l' labels]]; try done.
Qed.

(** X5. A single label is broadcast to the whole batch: both losses treat
    [[l]] as the label vector with [l] for every example; a label vector of
    any other length than 1 or the batch size is refused. *)
Theorem label_broadcasting dtype M B C logits :
  TF.shape3 logits = Some (M, B, C) →
  (∀ l, ensemble_negative_log_likelihood dtype [l] logits
        = ensemble_negative_log_likelihood dtype (replicate B l) logits
        ∧ gibbs_cross_entropy [l] logits
          = gibbs_cross_entropy (replicate B l) logits)
  ∧ (∀ labels, length labels ≠ B → length labels ≠ 1%nat →
       ensemble_negative_log_likelihood dtype labels logits = None
       ∧ gibbs_cross_entropy labels logits = None).
Proof.
  intros Hs. unfold ensemble_negative_log_likelihood, gibbs_cross_entropy.
  split.
  - intros l. by rewrite (member_nll_single_label M B C).
  - intros labels HB H1. by rewrite (member_nll_wrong_length M B C).
Qed.

Lemma label_broadcasting_witness :
  ensemble_negative_log_likelihood TF.float32 [1%Z] [[[2; 0]; [0; 1]]]
  = ensemble_negative_log_likelihood TF.float32 [1%Z; 1%Z] [[[2; 0]; [0; 1]]]
  ∧ ensemble_negative_log_likelihood TF.float32 [1%Z; 0%Z; 1%Z]
      [[[2; 0]; [0; 1]]] = None.
Proof.
  destruct (label_broadcasting TF.float32 1 2 2 [[[2; 0]; [0; 1]]])
    as [Hone Hbad]; [reflexivity|].
  split; [apply (Hone 1%Z)|]. apply Hbad; cbn; lia.
Defined.

Lemma member_nll_out_of_range M B C labels logits i :
  TF.shape3 logits = Some (M, B, C) →
  length labels = B →
  (i < B)%nat →
  ¬ (0 ≤ TF.cast_int32 (nth i labels 0%Z) < Z.of_nat C)%Z →
  member_nll labels logits = None.
Proof.
  intros Hs Hlen Hi Hout. unfold member_nll. rewrite Hs.
  pose proof (shape3_rectangular _ _ _ _ Hs) as (HM & Hpos & Hall).
  unfold TF.broadcast_to.
  rewrite bool_decide_eq_true_2 by (by rewrite length_map).
  cbn [mbind option_bind].
  destruct logits as [|member logits]; [simpl in HM; lia|].
  apply Forall_cons in Hall as [[Hb Hrows] _].
  subst M. cbn [length replicate zip zip_with mapM fst snd].
  assert (TF.sparse_softmax_cross_entropy_with_logits
            (map TF.cast_int32 labels) member = None) as ->; [|done].
  unfold TF.sparse_softmax_cross_entropy_with_logits.
  rewrite bool_decide_eq_true_2 by (rewrite length_map; lia).
  apply mapM_None_2, List.Exists_exists.
  exists (TF.cast_int32 (nth i labels 0%Z), nth i member []). split.
  - rewrite <- (map_nth TF.cast_int32).
    rewrite <- (nth_zip (map TF.cast_int32 labels) member i)
      by (rewrite ?length_map; lia).
    apply nth_In. rewrite length_zip, length_map. lia.
  - cbn [fst snd]. unfold TF.sparse_xent, TF.label_in_range.
    assert (length (nth i member []) = C) as ->.
    { rewrite List.Forall_forall in Hrows. apply Hrows, nth_In. lia. }
    repeat case_bool_decide; cbn [andb]; try done. lia.
Qed.

(** X6. A label outside [[0, num_classes)] (after the cast to int32) makes
    both losses fail for the whole batch. *)
Theorem label_out_of_range_fails dtype M B C labels logits i :
  TF.shape3 logits = Some (M, B, C) →
  length labels = B →
  (i < B)%nat →
  ¬ (0 ≤ TF.cast_int32 (nth i labels 0%Z) < Z.of_nat C)%Z →
  ensemble_negative_log_likelihood dtype labels logits = None
  ∧ gibbs_cross_entropy labels logits = None.
Proof.
  intros Hs Hlen Hi Hout.
  unfold ensemble_negative_log_likelihood, gibbs_cross_entropy.
  by rewrite (member_nll_out_of_range M B C labels logits i).
Qed.

Lemma label_out_of_range_fails_witness :
  ensemble_negative_log_likelihood TF.float32 [0%Z; 2%Z] [[[2; 0]; [0; 1]]]
  = None
  ∧ gibbs_cross_entropy [0%Z; 2%Z] [[[2; 0]; [0; 1]]] = None.
Proof.
  apply (label_out_of_range_fails TF.float32 1 2 2 [0%Z; 2%Z]
           [[[2; 0]; [0; 1]]] 1);
    [reflexivity | reflexivity | lia |].
  vm_compute. intros [_ H]. discriminate H.
Defined.

(** ** Strings and cache file names *)

Section Strings.

Lemma string_length_app (s t : string) :
  String.length (s +:+ t) = (String.length s + String.length t)%nat.
Proof. induction s as [|a s IH]; [done|]. simpl. f_equal. exact IH. Qed.

Lemma string_app_inj_r (s1 s2 t : string) : s1 +:+ t = s2 +:+ t → s1 = s2.
Proof.
  revert s2. induction s1 as [|a s1 IH]; intros [|b s2] H; [done| | |].
  - apply (f_equal String.length) in H. simpl in H.
    rewrite !string_length_app in H. simpl in H. lia.
  - apply (f_equal String.length) in H. simpl in H.
    rewrite !string_length_app in H. simpl in H. lia.
  - simpl in H. injection H as -> H. f_equal. by apply IH.
Qed.

Lemma substring_prefix (s t : string) :
  substring 0 (String.length s) (s +:+ t) = s.
Proof. induction s as [|a s IH]; [by destruct t|]. simpl. f_equal. exact IH. Qed.

End Strings.

(** X9. Cutting the last six characters recovers the checkpoint prefix from
    the name of its index file: [(prefix + '.index')[:-6] = prefix]. *)
Theorem drop_index_suffix_index (checkpoint : string) :
  drop_index_suffix (checkpoint +:+ ".index") = checkpoint.
Proof.
  unfold drop_index_suffix. rewrite string_length_app.
  replace (String.length checkpoint + String.length ".index" - 6)%nat
    with (String.length checkpoint) by (cbn; lia).
  apply substring_prefix.
Qed.

Lemma cache_filename_member_inj flags name m m' :
  cache_filename flags name m = cache_filename flags name m' → m = m'.
Proof.
  intros H. unfold cache_filename, os_path_join in H.
  assert (∀ k : nat, String.prefix "/" (name +:+ "_" +:+ pretty k +:+ ".npy")
               = String.prefix "/" (name +:+ "_")) as Hp.
  { intros k. destruct name as [|a name]; [done|].
    change (String a name +:+ "_" +:+ pretty k +:+ ".npy")
      with (String a (name +:+ "_" +:+ pretty k +:+ ".npy")).
    change (String a name +:+ "_") with (String a (name +:+ "_")).
    cbn [String.prefix]. destruct (ascii_dec "/" a); [|done].
    assert (∀ x, String.prefix "" x = true) as Hx by (by intros []).
    by rewrite !Hx. }
  rewrite !Hp in H.
  assert (name +:+ "_" +:+ pretty m +:+ ".npy"
          = name +:+ "_" +:+ pretty m' +:+ ".npy") as Hb.
  { destruct (String.prefix "/" (name +:+ "_")); [done|].
    destruct (String.eqb _ _ || _); [by apply (inj (String.app _)) in H|].
    by do 2 apply (inj (String.app _)) in H. }
  do 2 apply (inj (String.app _)) in Hb.
  apply string_app_inj_r in Hb. by apply (inj pretty) in Hb.
Qed.

Lemma cache_filename_clean_ood flags m m' :
  cache_filename flags "clean" m ≠ cache_filename flags "ood" m'.
Proof.
  intros H. unfold cache_filename, os_path_join in H. cbn in H.
  destruct (String.eqb _ _ || _).
  - apply (inj (String.app _)) in H. discriminate H.
  - do 2 apply (inj (String.app _)) in H. discriminate H.
Qed.

(** X10. Cache files never collide: for one dataset different members have
    different files, and a file of "clean" is never a file of "ood". *)
Theorem cache_filename_injective flags :
  (∀ name m m', cache_filename flags name m = cache_filename flags name m' →
                m = m')
  ∧ (∀ m m', cache_filename flags "clean" m ≠ cache_filename flags "ood" m').
Proof.
  split.
  - apply cache_filename_member_inj.
  - apply cache_filename_clean_ood.
Qed.

Lemma cache_filename_injective_witness :
  cache_filename Scenario.flags "clean" 0 ≠ cache_filename Scenario.flags "ood" 0
  ∧ (cache_filename Scenario.flags "ood" 1 = cache_filename Scenario.flags "ood" 1
     → 1 = 1)%nat.
Proof.
  split.
  - apply (cache_filename_injective Scenario.flags).
  - apply (cache_filename_injective Scenario.flags).
Defined.

(** ** The completion percentage *)

(** X11. The completion logged by the inference loop lies in (0, 1] for
    every pair of the two loops and is exactly 1 (100%) at the last pair. *)
Theorem prediction_percent_range m n es nd :
  (m < es)%nat → (n < nd)%nat →
  0 < prediction_percent m n es nd <= 1
  ∧ prediction_percent (es - 1) (nd - 1) es nd = 1.
Proof.
  intros Hm Hn. unfold prediction_percent.
  assert (0 < INR (es * nd)) as Hpos by (apply lt_0_INR; nia).
  split; [split|].
  - apply Rdiv_lt_0_compat; [apply lt_0_INR; lia|done].
  - apply Rmult_le_reg_r with (INR (es * nd)); [done|].
    unfold Rdiv. rewrite Rmult_assoc, Rinv_l, Rmult_1_r, Rmult_1_l by lra.
    apply le_INR. nia.
  - replace ((es - 1) * nd + (nd - 1 + 1))%nat with (es * nd)%nat by nia.
    field. lra.
Qed.

Lemma prediction_percent_range_witness :
  0 < prediction_percent 0 1 2 2 <= 1 ∧ prediction_percent (2 - 1) (2 - 1) 2 2 = 1.
Proof. apply prediction_percent_range; lia. Defined.

(** ** The slices of the evaluation *)

Section Slices.

Lemma py_slice_nat {A} (a b : nat) (l : list A) :
  (a ≤ b)%nat →
  py_slice (Z.of_nat a) (Z.of_nat b) l = drop a (take b l).
Proof.
  intros Hab. unfold py_slice, slice_index.
  assert ((Z.of_nat a <? 0)%Z = false) as -> by lia.
  assert ((Z.of_nat b <? 0)%Z = false) as -> by lia.
  rewrite <- !Nat2Z.inj_min, <- Nat2Z.inj_sub, !Nat2Z.id by lia.
  destruct (Nat.le_gt_cases (length l) a) as [Hl|Hl].
  - rewrite (Nat.min_r a) by lia. rewrite (drop_ge l (length l)) by done.
    rewrite take_nil. symmetry. apply drop_ge. rewrite length_take. lia.
  - rewrite (Nat.min_l a) by lia.
    destruct (Nat.le_gt_cases b (length l)) as [Hb|Hb].
    + rewrite Nat.min_l by lia. rewrite take_drop_commute.
      by replace (a + (b - a))%nat with b by lia.
    + rewrite Nat.min_r by lia.
      rewrite !take_ge; [done|lia|rewrite length_drop; lia].
Qed.

End Slices.

(** X12. The slices [[step * batch_size : (step + 1) * batch_size]] of the
    evaluation steps, put end to end, are the first [steps * batch_size]
    rows of a cached array: every such row is used once and none beyond. *)
Theorem evaluation_slices_tile {A} (batch_size steps : nat) (l : list A) :
  concat (map (λ step, py_slice (Z.of_nat step * Z.of_nat batch_size)
                         ((Z.of_nat step + 1) * Z.of_nat batch_size) l)
              (seq 0 steps))
  = take (steps * batch_size) l.
Proof.
  induction steps as [|steps IH]; [done|].
  rewrite seq_S, map_app, concat_app, IH. cbn [map concat plus].
  rewrite app_nil_r.
  replace (Z.of_nat steps * Z.of_nat batch_size)%Z
    with (Z.of_nat (steps * batch_size)) by lia.
  replace ((Z.of_nat steps + 1) * Z.of_nat batch_size)%Z
    with (Z.of_nat (S steps * batch_size)) by lia.
  rewrite py_slice_nat by lia.
  rewrite <- (take_drop (steps * batch_size) (take (S steps * batch_size) l))
    at 2.
  f_equal. rewrite take_take. f_equal. lia.
Qed.

(** ** Edge behaviour of the driver *)

(** X13. A batch size of zero is not rejected by the configuration checks
    (for instance [num_cores = 0]): [main] raises [ZeroDivisionError] when it
    computes the steps of the first dataset, after that split was built and
    before any model is created. *)
Theorem zero_batch_size flags env w :
  use_gpu flags = true →
  (num_cores flags ≤ 1)%Z →
  (per_core_batch_size flags * num_cores flags = 0)%Z →
  main flags env w
  = (Raise ZeroDivisionError,
     {| fs := fs w; weights := weights w; metrics := metrics w;
        trace := trace w ++
          [EvEnableV2; EvSetSeed (seed flags); EvMakeDirs (output_dir flags);
           EvDatasetBuilder "ind" (per_core_batch_size flags) (dataset_dir flags);
           EvDatasetBuilder "ood" (per_core_batch_size flags) (dataset_dir flags);
           EvBuildSplit "clean"] |}).
Proof.
  intros Hgpu Hcores Hbs. unfold main. rewrite Hgpu. cbn [negb].
  apply Z.ltb_ge in Hcores. rewrite Hcores, Hbs.
  cbn [build_datasets]. unfold floordiv. cbn [Z.eqb].
  repeat (rewrite run_bind_unfold, emit_run).
  rewrite run_bind_unfold, (run_bind_unfold (emit _)), emit_run.
  rewrite (run_bind_unfold (raise _)). unfold raise.
  cbn [fs weights metrics trace]. by rewrite <- !app_assoc.
Qed.

Lemma zero_batch_size_witness :
  ∃ w', main {| use_gpu := true; num_cores := 0; seed := 0; output_dir := "out";
                dataset_dir := "data"; per_core_batch_size := 32;
                model_family := "bert"; checkpoint_dir := "ckpt";
                num_bins := 15 |} Scenario.env Scenario.empty_world
        = (Raise ZeroDivisionError, w').
Proof.
  eexists. apply zero_batch_size; [reflexivity | cbn; lia | reflexivity].
Defined.

Section FailedInference.

Variables (flags : Flags) (env : Env).

(** A dataset with fewer batches than steps: every batch is run through the
    model and the next [next(test_iterator)] raises. *)
Lemma collect_logits_short m name steps it w :
  (length it < steps)%nat →
  collect_logits env m name steps it w
  = (Raise StopIteration,
     {| fs := fs w; weights := weights w; metrics := metrics w;
        trace := trace w ++ map (λ b, EvForward m name (map features b)) it |}).
Proof.
  revert it w. induction steps as [|steps IH]; intros it w Hlen; [lia|].
  destruct it as [|inputs rest]; cbn [collect_logits map].
  - rewrite app_nil_r. by destruct w.
  - cbn [create_feature_and_label]. rewrite run_bind_unfold. cbn [forward].
    rewrite run_bind_unfold, IH by (simpl in Hlen; lia).
    cbn [fs weights metrics trace]. by rewrite <- app_assoc.
Qed.

Lemma predict_dataset_raise spe es nd m n name ds w e w' :
  predict_dataset flags env spe es nd m n name ds w = (Raise e, w') →
  fs w' = fs w ∧ fs w !! cache_filename flags name m = None.
Proof.
  intros H.
  destruct (fs w !! cache_filename flags name m) as [x|] eqn:Hfile.
  { by rewrite predict_dataset_cached in H by eauto. }
  split; [|done].
  unfold predict_dataset, gfile_exists in H. rewrite run_bind_unfold in H.
  rewrite bool_decide_eq_false_2 in H by (rewrite Hfile; by intros [? ?]).
  cbn [negb] in H.
  apply bind_inv in H as [([] & w4 & H4 & H5)|(e' & H4 & _)];
    [by rewrite emit_run in H5|].
  apply bind_inv in H4 as [(steps & w1 & H1 & H4)|(e1 & H1 & _)].
  2: { destruct (dict_get name spe); [done|]. by injection H1 as _ <-. }
  assert (w1 = w) as -> by (destruct (dict_get name spe); by injection H1).
  apply bind_inv in H4 as [(parts & w2 & H2 & H4)|(e2 & H2 & _)].
  2: { by apply collect_logits_effect in H2 as (? & _). }
  apply collect_logits_effect in H2 as (Hfs & _).
  apply bind_inv in H4 as [(logits & w3 & H3 & H4)|(e3 & H3 & _)];
    [by injection H4|].
  assert (w' = w2) as -> by (destruct parts; by injection H3). done.
Qed.

End FailedInference.

(** X14. Inference of a (dataset, member) pair is all or nothing: when the
    loop body raises, no file was written, and it raises only on a cache
    miss.  On a miss, a dataset with fewer batches than steps is run through
    the model entirely before [StopIteration] is raised, and zero steps make
    [tf.concat] raise [InvalidArgumentError] on the empty list. *)
Theorem failed_inference_leaves_no_file flags env spe es nd m n name ds w :
  let run := predict_dataset flags env spe es nd m n name ds w in
  let file := cache_filename flags name m in
  (∀ e, run.1 = Raise e → fs run.2 = fs w ∧ fs w !! file = None)
  ∧ (∀ steps, fs w !! file = None → dict_get name spe = Some steps →
       ((length ds < Z.to_nat steps)%nat →
        run.1 = Raise StopIteration
        ∧ trace run.2
          = trace w ++ map (λ b, EvForward m name (map features b)) ds)
       ∧ (Z.to_nat steps = 0%nat →
          run.1 = Raise InvalidArgumentError ∧ trace run.2 = trace w)).
Proof.
  intros run file. subst run file. split.
  - intros e He. apply (predict_dataset_raise flags env spe es nd m n name ds w e).
    rewrite <- He. apply surjective_pairing.
  - intros steps Hfile Hs. unfold predict_dataset, gfile_exists.
    rewrite run_bind_unfold.
    rewrite bool_decide_eq_false_2 by (rewrite Hfile; by intros [? ?]).
    cbn [negb]. rewrite Hs. cbn [lift_option].
    rewrite !(run_bind_unfold _ _ w). cbn [mret run_ret].
    split.
    + intros Hlen. by rewrite run_bind_unfold, collect_logits_short.
    + intros H0. rewrite H0, run_bind_unfold.
      cbn [collect_logits mret run_ret]. rewrite run_bind_unfold.
      cbn [tf_concat raise]. eauto.
Qed.

Lemma failed_inference_leaves_no_file_witness :
  let run := predict_dataset Scenario.flags Scenario.env [("clean", 5%Z)] 1 2
               0 0 "clean" Scenario.batches Scenario.empty_world in
  run.1 = Raise StopIteration ∧ fs run.2 = fs Scenario.empty_world.
Proof.
  intros run.
  destruct (failed_inference_leaves_no_file Scenario.flags Scenario.env
              [("clean", 5%Z)] 1 2 0 0 "clean" Scenario.batches
              Scenario.empty_world) as [Hraise Hmiss].
  destruct (Hmiss 5%Z) as [[Hstop _] _]; [reflexivity | reflexivity | cbn; lia |].
  split; [exact Hstop|]. apply (Hraise StopIteration Hstop).
Defined.

Section MissingCache.

Variable flags : Flags.

Lemma load_members_missing name pre m0 post w :
  Forall (λ m, is_Some (fs w !! cache_filename flags name m)) pre →
  fs w !! cache_filename flags name m0 = None →
  load_members flags name (pre ++ m0 :: post) w
  = (Raise (NotFoundError (cache_filename flags name m0)),
     {| fs := fs w; weights := weights w; metrics := metrics w;
        trace := trace w ++ map (λ m, EvRead (cache_filename flags name m)) pre |}).
Proof.
  intros Hpre Hm0. revert w Hpre Hm0.
  induction pre as [|m pre IH]; intros w Hpre Hm0.
  - cbn [app load_members map]. rewrite run_bind_unfold. unfold np_load.
    rewrite Hm0, app_nil_r. by destruct w.
  - apply Forall_cons in Hpre as [[a Ha] Hpre].
    cbn [app load_members map]. rewrite run_bind_unfold. unfold np_load.
    rewrite Ha, run_bind_unfold, IH by done.
    cbn [fs weights metrics trace]. by rewrite <- app_assoc.
Qed.

End MissingCache.

(** X15. Reading before writing is fatal: when the cache file of member
    [m0] is the first one missing, the evaluation of the dataset raises
    [NotFoundError] for that file after reading the files of the members
    before it, and no metric is updated. *)
Theorem evaluation_of_missing_cache flags spe bs es nd n name ds m0 w :
  (m0 < es)%nat →
  (∀ m, (m < m0)%nat → is_Some (fs w !! cache_filename flags name m)) →
  fs w !! cache_filename flags name m0 = None →
  evaluate_dataset flags spe bs es nd n name ds w
  = (Raise (NotFoundError (cache_filename flags name m0)),
     {| fs := fs w; weights := weights w; metrics := metrics w;
        trace := trace w
                 ++ map (λ m, EvRead (cache_filename flags name m)) (seq 0 m0) |}).
Proof.
  intros Hm0 Hpre Hmiss. unfold evaluate_dataset.
  replace es with (m0 + S (es - S m0))%nat by lia.
  rewrite seq_app. cbn [seq plus].
  rewrite run_bind_unfold, load_members_missing; [done| |done].
  apply List.Forall_forall. intros m Hm. apply in_seq in Hm. apply Hpre. lia.
Qed.

Lemma evaluation_of_missing_cache_witness :
  ∃ w', evaluate_dataset Scenario.flags [("clean", 2%Z)] 2 2 2 0 "clean"
          Scenario.batches Scenario.cached_world
        = (Raise (NotFoundError "out/clean_1.npy"), w')
        ∧ metrics w' = metrics Scenario.cached_world
        ∧ trace w' = [EvRead "out/clean_0.npy"].
Proof.
  eexists. split.
  - apply (evaluation_of_missing_cache Scenario.flags [("clean", 2%Z)] 2 2 2 0
             "clean" Scenario.batches 1 Scenario.cached_world).
    + lia.
    + intros m Hm. assert (m = 0%nat) as -> by lia.
      vm_compute. eexists. reflexivity.
    + reflexivity.
  - split; reflexivity.
Defined.

#[local] Instance feeds_preorder keys : PreOrder (feeds keys).
Proof.
  split.
  - intros w. split; [done|]. split; [done|]. split; [done|].
    intros key us H. exists []. by rewrite app_nil_r.
  - intros w1 w2 w3 (Hf12 & Hw12 & Ho12 & Ha12) (Hf23 & Hw23 & Ho23 & Ha23).
    split; [congruence|]. split; [congruence|]. split.
    + intros key Hk. by rewrite Ho23, Ho12.
    + intros key us H. apply Ha12 in H as (n1 & H).
      apply Ha23 in H as (n2 & H). exists (n1 ++ n2). by rewrite app_assoc.
Qed.

Section Feeds.

Variable keys : list string.

Lemma feeds_trace w evs :
  feeds keys w {| fs := fs w; weights := weights w; metrics := metrics w;
                  trace := evs |}.
Proof.
  split; [done|]. split; [done|]. split; [done|].
  intros key us H. exists []. by rewrite app_nil_r.
Qed.

Lemma emit_feeds e : preserves (feeds keys) (emit e).
Proof. intros w r w' [= <- <-]. apply feeds_trace. Qed.

Lemma lift_option_feeds {A} e (o : option A) :
  preserves (feeds keys) (lift_option e o).
Proof. destruct o; intros w r w' [= <- <-]; reflexivity. Qed.

Lemma np_load_feeds path : preserves (feeds keys) (np_load path).
Proof.
  intros w r w' H. unfold np_load in H. destruct (fs w !! path).
  - injection H as <- <-. apply feeds_trace.
  - injection H as <- <-. reflexivity.
Qed.

Lemma load_members_feeds flags name members :
  preserves (feeds keys) (load_members flags name members).
Proof.
  induction members as [|m members IH]; cbn [load_members].
  - apply preserves_ret. apply _.
  - apply preserves_bind; [apply _|apply np_load_feeds|]. intros a.
    apply preserves_bind; [apply _|apply IH|]. intros rest.
    apply preserves_ret. apply _.
Qed.

Lemma update_state_feeds key u :
  key ∈ keys → preserves (feeds keys) (update_state key u).
Proof.
  intros Hkey w r w' H. unfold update_state in H.
  rewrite run_bind_unfold in H. cbn [get_metrics] in H.
  destruct (metrics w !! key) as [us|] eqn:Hus.
  - injection H as <- <-. split; [done|]. split; [done|].
    cbn [metrics]. split.
    + intros k Hk. apply lookup_insert_ne. by intros ->.
    + intros k us' Hk. destruct (decide (k = key)) as [->|Hne].
      * rewrite lookup_insert_eq. exists [u]. congruence.
      * rewrite lookup_insert_ne by done. exists []. by rewrite app_nil_r.
  - injection H as <- <-. reflexivity.
Qed.

End Feeds.

Lemma evaluate_step_feeds name bs arrays k inputs :
  preserves (feeds (metric_keys name)) (evaluate_step name bs arrays k inputs).
Proof.
  unfold evaluate_step, metric_keys. cbn [create_feature_and_label].
  apply preserves_bind; [apply _| |].
  { unfold slice_examples. destruct arrays;
      [apply preserves_raise|apply preserves_ret]; apply _. }
  intros logits. apply preserves_bind; [apply _|apply lift_option_feeds|].
  intros nll. apply preserves_bind; [apply _|apply lift_option_feeds|].
  intros probs. destruct (String.eqb name "clean").
  - apply preserves_bind; [apply _|apply lift_option_feeds|]. intros gce.
    repeat (apply preserves_bind;
            [apply _|apply update_state_feeds; set_solver|]; intros _).
    apply update_state_feeds; set_solver.
  - repeat (apply preserves_bind;
            [apply _|apply update_state_feeds; set_solver|]; intros _).
    apply update_state_feeds; set_solver.
Qed.

Lemma evaluate_steps_feeds name bs arrays k steps ds :
  preserves (feeds (metric_keys name)) (evaluate_steps name bs arrays k steps ds).
Proof.
  revert k ds. induction steps as [|steps IH]; intros k ds; cbn [evaluate_steps].
  - apply preserves_ret. apply _.
  - destruct ds as [|inputs rest]; [apply preserves_raise; apply _|].
    apply preserves_bind; [apply _|apply evaluate_step_feeds|].
    intros _. apply IH.
Qed.

Lemma evaluate_dataset_feeds flags spe bs es nd n name ds :
  preserves (feeds (metric_keys name))
            (evaluate_dataset flags spe bs es nd n name ds).
Proof.
  unfold evaluate_dataset.
  apply preserves_bind; [apply _|apply load_members_feeds|]. intros arrays.
  apply preserves_bind; [apply _| |].
  { unfold convert_members. destruct arrays; [apply preserves_ret; apply _|].
    destruct (TF.shape3 _); [apply preserves_ret|apply preserves_raise]; apply _. }
  intros logits. apply preserves_bind; [apply _|apply lift_option_feeds|].
  intros steps. apply preserves_bind; [apply _|apply evaluate_steps_feeds|].
  intros _. apply emit_feeds.
Qed.

(** X16. Whatever its outcome, the evaluation of one dataset writes no file
    and restores no checkpoint, leaves the metrics of the other datasets as
    they were, and only appends to its own: no metric is reset or loses an
    update. *)
Theorem evaluation_feeds_own_metrics flags spe bs es nd n name ds w :
  let w' := (evaluate_dataset flags spe bs es nd n name ds w).2 in
  fs w' = fs w ∧ weights w' = weights w
  ∧ (∀ key, key ∉ metric_keys name → metrics w' !! key = metrics w !! key)
  ∧ (∀ key us, metrics w !! key = Some us →
       ∃ news, metrics w' !! key = Some (us ++ news)).
Proof.
  intros w'.
  apply (evaluate_dataset_feeds flags spe bs es nd n name ds w
           (evaluate_dataset flags spe bs es nd n name ds w).1 w').
  apply surjective_pairing.
Qed.

Lemma evaluation_feeds_own_metrics_witness :
  let w' := (evaluate_dataset Scenario.flags [("clean", 2%Z); ("ood", 2%Z)] 2 1 2
               1 "ood" Scenario.batches Scenario.cached_world).2 in
  metrics w' !! "test/gibbs_cross_entropy"
  = metrics Scenario.cached_world !! "test/gibbs_cross_entropy".
Proof.
  intros w'.
  apply (evaluation_feeds_own_metrics Scenario.flags
           [("clean", 2%Z); ("ood", 2%Z)] 2 1 2 1 "ood" Scenario.batches
           Scenario.cached_world).
  vm_compute. intros H.
  repeat (apply elem_of_cons in H as [H|H]; [discriminate H|]).
  by apply elem_of_nil in H.
Defined.

(** ** The cache after the inference phase *)

Section Loops.

Context (rel : World → World → Prop) `{!PreOrder rel}.

(** What every successful iteration establishes, and later iterations
    keep, holds for every element when the loop returns. *)
Lemma for_each_post {A} (P : A → World → Prop) (body : A → Run unit) xs :
  (∀ x, x ∈ xs → preserves rel (body x)) →
  (∀ x w w', x ∈ xs → body x w = (Ok tt, w') → P x w') →
  (∀ x w w', rel w w' → P x w → P x w') →
  ∀ w w', for_each body xs w = (Ok tt, w') → ∀ x, x ∈ xs → P x w'.
Proof.
  intros Hpres Hest Hstable. induction xs as [|y xs IH]; intros w w' H x Hx.
  { by apply elem_of_nil in Hx. }
  cbn [for_each] in H.
  apply bind_inv in H as [([] & w1 & H1 & H2)|(e & _ & [=])].
  apply elem_of_cons in Hx as [->|Hx].
  - apply (Hstable y w1 w'); [|by apply (Hest y w w1); [left|]].
    apply (preserves_for_each rel body xs) with (r := Ok tt); [|done].
    intros z Hz. apply Hpres. by right.
  - apply (IH (λ z Hz, Hpres z (list_elem_of_further _ _ _ Hz))
              (λ z v v' Hz, Hest z v v' (list_elem_of_further _ _ _ Hz))
              w1 w' H2 x Hx).
Qed.

(** A loop whose every iteration succeeds from the invariant. *)
Lemma for_each_inv_post {A} (inv : World → Prop) (P : A → World → Prop)
    (body : A → Run unit) xs :
  (∀ x, x ∈ xs → ∀ w, inv w →
     ∃ w', body x w = (Ok tt, w') ∧ inv w' ∧ rel w w' ∧ P x w') →
  (∀ x w w', rel w w' → P x w → P x w') →
  ∀ w, inv w →
    ∃ w', for_each body xs w = (Ok tt, w') ∧ inv w' ∧ rel w w'
          ∧ ∀ x, x ∈ xs → P x w'.
Proof.
  intros Hb Hstable. induction xs as [|y xs IH]; intros w Hw; cbn [for_each].
  - exists w. split; [done|]. split; [done|]. split; [reflexivity|].
    intros x Hx. by apply elem_of_nil in Hx.
  - destruct (Hb y (list_elem_of_here _ _) w Hw) as (w1 & H1 & Hi1 & Hr1 & Hp1).
    destruct (IH (λ z Hz, Hb z (list_elem_of_further _ _ _ Hz)) w1 Hi1)
      as (w2 & H2 & Hi2 & Hr2 & Hp2).
    exists w2. split; [by rewrite (bind_ok _ _ _ _ _ H1)|].
    split; [done|]. split; [by transitivity w1|].
    intros x Hx. apply elem_of_cons in Hx as [->|Hx]; [|by apply Hp2].
    by apply (Hstable y w1 w2).
Qed.

End Loops.

Lemma enumerate_from_lookup {A} (xs : list A) k i x :
  xs !! i = Some x → ((k + i)%nat, x) ∈ zip (seq k (length xs)) xs.
Proof.
  revert k i. induction xs as [|y xs IH]; intros k i H; [done|].
  cbn [length seq zip zip_with]. destruct i as [|i].
  - injection H as ->. rewrite Nat.add_0_r. left.
  - right. replace (k + S i)%nat with (S k + i)%nat by lia. by apply IH.
Qed.

Lemma enumerate_lookup {A} (xs : list A) i x :
  xs !! i = Some x → (i, x) ∈ enumerate xs.
Proof. apply (enumerate_from_lookup xs 0 i x). Qed.

Lemma enumerate_from_elem {A} (xs : list A) k i x :
  (i, x) ∈ zip (seq k (length xs)) xs → (k ≤ i)%nat ∧ xs !! (i - k)%nat = Some x.
Proof.
  revert k. induction xs as [|y xs IH]; intros k; cbn [length seq zip zip_with].
  - intros H. by apply elem_of_nil in H.
  - intros H. apply elem_of_cons in H as [[= -> ->]|H].
    + split; [lia|]. by rewrite Nat.sub_diag.
    + apply IH in H as [Hk H]. split; [lia|].
      by replace (i - k)%nat with (S (i - S k)) by lia.
Qed.

Lemma elem_of_enumerate_lookup {A} (xs : list A) i x :
  (i, x) ∈ enumerate xs → xs !! i = Some x.
Proof.
  intros H. apply enumerate_from_elem in H as [_ H].
  by rewrite Nat.sub_0_r in H.
Qed.

Section CompleteCache.

Variables (flags : Flags) (env : Env).

Lemma predict_dataset_ok_file spe es nd m n name ds w w' :
  predict_dataset flags env spe es nd m n name ds w = (Ok tt, w') →
  is_Some (fs w' !! cache_filename flags name m).
Proof.
  intros H.
  destruct (fs w !! cache_filename flags name m) as [x|] eqn:Hfile.
  { rewrite predict_dataset_cached in H by eauto. injection H as <-.
    cbn [fs]. eauto. }
  unfold predict_dataset, gfile_exists in H. rewrite run_bind_unfold in H.
  rewrite bool_decide_eq_false_2 in H by (rewrite Hfile; by intros [? ?]).
  cbn [negb] in H.
  apply bind_inv in H as [([] & w4 & H4 & H5)|(e & _ & [=])].
  injection H5 as <-. cbn [fs].
  apply bind_inv in H4 as [(steps & w1 & H1 & H4)|(e & _ & [=])].
  apply bind_inv in H4 as [(parts & w2 & H2 & H4)|(e & _ & [=])].
  apply bind_inv in H4 as [(logits & w3 & H3 & H4)|(e & _ & [=])].
  injection H4 as <-. cbn [fs]. rewrite lookup_insert_eq. eauto.
Qed.

Lemma respects_cache_file w w' p :
  respects_cache flags w w' → is_Some (fs w !! p) → is_Some (fs w' !! p).
Proof. intros [H _] [x Hx]. apply H in Hx. eauto. Qed.

Lemma predict_member_ok_files tds spe es m ckpt w w' :
  predict_member flags env tds spe es m ckpt w = (Ok tt, w') →
  ∀ name, name ∈ map fst tds → is_Some (fs w' !! cache_filename flags name m).
Proof.
  intros H name Hname. unfold predict_member in H.
  apply bind_inv in H as [([] & w1 & _ & H)|(e & _ & [=])].
  apply list_elem_of_In, in_map_iff in Hname as ([name' ds] & Hn & Hin).
  cbn in Hn. subst name'.
  apply list_elem_of_In, list_elem_of_lookup in Hin as [n Hin].
  apply enumerate_lookup in Hin.
  apply (for_each_post (respects_cache flags)
           (λ '(_, (name, _)) v, is_Some (fs v !! cache_filename flags name m))
           _ (enumerate tds)) with (x := (n, (name, ds))) in H; [done| | | |done].
  - intros [k [nm d]] _. apply predict_dataset_respects.
  - intros [k [nm d]] v v' _. apply predict_dataset_ok_file.
  - intros [k [nm d]] v v'. apply respects_cache_file.
Qed.

Lemma write_predictions_ok_populated tds spe ckpts w w' :
  write_predictions flags env tds spe ckpts w = (Ok tt, w') →
  populated flags tds ckpts w'.
Proof.
  intros H m name Hm Hname. unfold write_predictions in H.
  destruct (lookup_lt_is_Some_2 ckpts m Hm) as [ckpt Hckpt].
  apply enumerate_lookup in Hckpt.
  apply (for_each_post (respects_cache flags)
           (λ '(m, _) v, ∀ name, name ∈ map fst tds →
                         is_Some (fs v !! cache_filename flags name m))
           _ (enumerate ckpts)) with (x := (m, ckpt)) in H; [by apply H| | | |done].
  - intros [k c] _. apply predict_member_respects.
  - intros [k c] v v' _. apply predict_member_ok_files.
  - intros [k c] v v' Hr Hv nm Hnm. eapply respects_cache_file; eauto.
Qed.

End CompleteCache.

(** X17. When the inference phase returns, every (dataset, member) pair has
    its cache file, whatever the cache held before; running the phase again
    (even with another model) returns without a forward pass or a write and
    leaves the files as they are. *)
Theorem inference_completes_cache flags env tds spe ckpts w w' :
  write_predictions flags env tds spe ckpts w = (Ok tt, w') →
  populated flags tds ckpts w'
  ∧ ∀ env', ∃ w'', write_predictions flags env' tds spe ckpts w' = (Ok tt, w'')
                   ∧ quiet w' w''.
Proof.
  intros H. apply write_predictions_ok_populated in H. split; [done|].
  intros env'.
  destruct (write_predictions_populated flags env' tds spe ckpts w' H)
    as (w'' & Hrun & _ & Hq).
  eauto.
Qed.

Lemma inference_completes_cache_witness :
  let tds := [("clean", Scenario.batches); ("ood", Scenario.batches)]%string in
  let spe := [("clean", 2%Z); ("ood", 2%Z)]%string in
  let run := write_predictions Scenario.flags Scenario.env tds spe
               ["ckpt/run0/model"%string] Scenario.empty_world in
  run.1 = Ok tt
  ∧ populated Scenario.flags tds ["ckpt/run0/model"%string] run.2.
Proof.
  intros tds spe run. split; [by vm_compute|].
  apply (inference_completes_cache Scenario.flags Scenario.env tds spe
           ["ckpt/run0/model"%string] Scenario.empty_world run.2).
  by vm_compute.
Defined.

Section ColdStart.

Variables (flags : Flags) (env : Env).
Variables (clean ood : list Batch) (steps_clean steps_ood : Z).
Variable ckpts : list string.
Variables (tds : list (string * list Batch)) (spe : list (string * Z)).

Hypothesis Htds : tds = [("clean", clean); ("ood", ood)]%string.
Hypothesis Hspe : spe = [("clean", steps_clean); ("ood", steps_ood)]%string.
Hypothesis Hclean : (1 ≤ Z.to_nat steps_clean ≤ length clean)%nat.
Hypothesis Hood : (1 ≤ Z.to_nat steps_ood ≤ length ood)%nat.

Lemma insert_clean_ood_other m (a b : Npy) (files : gmap string Npy) p :
  p ≠ cache_filename flags "clean" m → p ≠ cache_filename flags "ood" m →
  <[cache_filename flags "ood" m := b]>
    (<[cache_filename flags "clean" m := a]> files) !! p = files !! p.
Proof. intros H1 H2. by rewrite !lookup_insert_ne. Qed.

Lemma cache_filename_other_member name name' m m' :
  m' ≠ m → name ∈ ["clean"; "ood"]%string → name' ∈ ["clean"; "ood"]%string →
  cache_filename flags name m' ≠ cache_filename flags name' m.
Proof.
  intros Hne Hn Hn' H.
  apply elem_of_cons in Hn as [->|Hn];
    [|apply elem_of_cons in Hn as [->|Hn]; [|by apply elem_of_nil in Hn]];
    (apply elem_of_cons in Hn' as [->|Hn'];
      [|apply elem_of_cons in Hn' as [->|Hn']; [|by apply elem_of_nil in Hn']]).
  - by apply cache_filename_member_inj in H.
  - by apply cache_filename_clean_ood in H.
  - symmetry in H. by apply cache_filename_clean_ood in H.
  - by apply cache_filename_member_inj in H.
Qed.

Lemma predict_member_cold es m ckpt w :
  ckpts !! m = Some ckpt →
  cold_or_cached flags env clean ood steps_clean steps_ood ckpts w →
  ∃ w', predict_member flags env tds spe es m ckpt w = (Ok tt, w')
        ∧ cold_or_cached flags env clean ood steps_clean steps_ood ckpts w'
        ∧ respects_cache flags w w'
        ∧ member_cached flags env clean ood steps_clean steps_ood m ckpt w'.
Proof.
  intros Hm Hpend.
  destruct (predict_member flags env tds spe es m ckpt w) as [r w'] eqn:Hrun.
  assert (respects_cache flags w w') as Hresp
    by (by eapply predict_member_respects).
  unfold predict_member in Hrun. rewrite run_bind_unfold in Hrun.
  cbn [restore] in Hrun. rewrite Htds in Hrun.
  change (enumerate [("clean"%string, clean); ("ood"%string, ood)])
    with [(0%nat, ("clean"%string, clean)); (1%nat, ("ood"%string, ood))] in Hrun.
  cbn [for_each] in Hrun.
  destruct (Hpend m ckpt Hm) as [[Hc Ho]|[Hc Ho]].
  - rewrite run_bind_unfold in Hrun.
    rewrite (predict_dataset_writes flags env spe es _ m 0 "clean" clean
               steps_clean) in Hrun; [|done|by rewrite Hspe|done].
    cbn [fs weights metrics trace] in Hrun.
    rewrite run_bind_unfold in Hrun.
    rewrite (predict_dataset_writes flags env spe es _ m 1 "ood" ood
               steps_ood) in Hrun; [|cbn [fs]|by rewrite Hspe|done].
    2: { rewrite lookup_insert_ne; [done|]. apply cache_filename_clean_ood. }
    cbn [fs weights metrics trace mret run_ret] in Hrun.
    injection Hrun as <- <-. eexists. split; [done|].
    assert (member_cached flags env clean ood steps_clean steps_ood m ckpt
              {| fs := <[cache_filename flags "ood" m :=
                          member_outputs env ckpt steps_ood ood]>
                         (<[cache_filename flags "clean" m :=
                             member_outputs env ckpt steps_clean clean]> (fs w));
                 weights := Some ckpt; metrics := metrics w;
                 trace := trace w |}) as Hwritten.
    { split; cbn [fs].
      - rewrite lookup_insert_ne
          by (intros H; symmetry in H; by apply cache_filename_clean_ood in H).
        by rewrite lookup_insert_eq.
      - by rewrite lookup_insert_eq. }
    split; [|split; [done|exact Hwritten]].
    intros m' ckpt' Hm'. destruct (decide (m' = m)) as [->|Hne].
    + right. assert (ckpt' = ckpt) as -> by congruence. exact Hwritten.
    + assert ("clean"%string ∈ ["clean"; "ood"]%string) as Hc1 by left.
      assert ("ood"%string ∈ ["clean"; "ood"]%string) as Ho1 by (right; left).
      destruct (Hpend m' ckpt' Hm') as [[Hc' Ho']|[Hc' Ho']]; [left|right];
        split; cbn [fs];
        (rewrite insert_clean_ood_other;
         [done|by apply cache_filename_other_member..]).
  - rewrite run_bind_unfold in Hrun.
    rewrite predict_dataset_cached in Hrun by (cbn [fs]; eauto).
    rewrite run_bind_unfold in Hrun.
    rewrite predict_dataset_cached in Hrun by (cbn [fs]; eauto).
    cbn [fs weights metrics trace mret run_ret] in Hrun.
    injection Hrun as <- <-. eexists. split; [done|].
    split; [exact Hpend|]. split; [done|]. by split.
Qed.

Lemma write_predictions_cold w :
  cold_or_cached flags env clean ood steps_clean steps_ood ckpts w →
  ∃ w', write_predictions flags env tds spe ckpts w = (Ok tt, w')
        ∧ ∀ m ckpt, ckpts !! m = Some ckpt →
            member_cached flags env clean ood steps_clean steps_ood m ckpt w'.
Proof.
  intros Hpend. unfold write_predictions.
  destruct (for_each_inv_post (respects_cache flags)
              (cold_or_cached flags env clean ood steps_clean steps_ood ckpts)
              (λ x, member_cached flags env clean ood steps_clean steps_ood
                      x.1 x.2)
              (λ '(m, ensemble_filename),
                 predict_member flags env tds spe (length ckpts) m
                   ensemble_filename)
              (enumerate ckpts)) with (w := w) as (w' & Hrun & _ & _ & Hall);
    [| |done|].
  - intros [m ckpt] Hin v Hv. apply elem_of_enumerate_lookup in Hin.
    by apply predict_member_cold.
  - intros [m ckpt] v v' [Hkeep _] [Hc Ho]. split; by apply Hkeep.
  - exists w'. split; [done|]. intros m ckpt Hm.
    apply (Hall (m, ckpt)). by apply enumerate_lookup.
Qed.

End ColdStart.

(** X18. Starting without the cache files of the discovered checkpoints, the
    inference phase of [main] returns, and afterwards the two files of every
    member hold the outputs of the model on the first [steps] batches of
    their dataset, computed with that member's checkpoint restored. *)
Theorem cold_start_inference flags env clean ood steps_clean steps_ood ckpts w :
  (1 ≤ Z.to_nat steps_clean ≤ length clean)%nat →
  (1 ≤ Z.to_nat steps_ood ≤ length ood)%nat →
  (∀ m name, (m < length ckpts)%nat → name ∈ ["clean"; "ood"]%string →
             fs w !! cache_filename flags name m = None) →
  ∃ w', write_predictions flags env [("clean", clean); ("ood", ood)]%string
          [("clean", steps_clean); ("ood", steps_ood)]%string ckpts w
        = (Ok tt, w')
    ∧ ∀ m ckpt, ckpts !! m = Some ckpt →
        member_cached flags env clean ood steps_clean steps_ood m ckpt w'.
Proof.
  intros Hclean Hood Hcold.
  apply (write_predictions_cold flags env clean ood steps_clean steps_ood ckpts
           _ _ eq_refl eq_refl Hclean Hood w).
  intros m ckpt Hm. left.
  assert (m < length ckpts)%nat as Hlt by (by eapply lookup_lt_Some).
  split; apply Hcold; try done; [left|right; left].
Qed.

Lemma cold_start_inference_witness :
  ∃ w', write_predictions Scenario.flags Scenario.env
          [("clean", Scenario.batches); ("ood", Scenario.batches)]%string
          [("clean", 2%Z); ("ood", 2%Z)]%string ["ckpt/run0/model"%string]
          Scenario.empty_world = (Ok tt, w')
        ∧ member_cached Scenario.flags Scenario.env Scenario.batches
            Scenario.batches 2 2 0 "ckpt/run0/model" w'.
Proof.
  destruct (cold_start_inference Scenario.flags Scenario.env Scenario.batches
              Scenario.batches 2 2 ["ckpt/run0/model"%string]
              Scenario.empty_world) as (w' & Hrun & Hfiles).
  - cbn. lia.
  - cbn. lia.
  - intros m name _ _. reflexivity.
  - exists w'. split; [exact Hrun|].
    apply (Hfiles 0%nat "ckpt/run0/model"%string). reflexivity.
Defined.

(** ** The dictionary lookups of [main] *)

Section Lookups.

Lemma no_key_error_bind {A B} P (c : Run A) (f : A → Run B) Q R :
  no_key_error P c Q → (∀ a, no_key_error (Q a) (f a) R) →
  no_key_error P (c ≫= f) R.
Proof.
  intros Hc Hf w r w' Hw H.
  apply bind_inv in H as [(a & w1 & H1 & H2)|(e & H1 & ->)].
  - destruct (Hc _ _ _ Hw H1) as [_ Ha]. by eapply Hf; [apply Ha|].
  - destruct (Hc _ _ _ Hw H1) as [He _]. split; [|by intros].
    intros key [= ->]. by apply (He key).
Qed.

Lemma no_key_error_weaken {A} (P P' : World → Prop) (c : Run A)
    (Q Q' : A → World → Prop) :
  no_key_error P c Q → (∀ w, P' w → P w) → (∀ a w, Q a w → Q' a w) →
  no_key_error P' c Q'.
Proof.
  intros Hc HP HQ w r w' Hw H. destruct (Hc w r w' (HP w Hw) H) as [He Ha].
  split; [done|]. intros a ->. by apply HQ, Ha.
Qed.

Lemma no_key_error_assume {A} (φ : Prop) (c : Run A) Q :
  (φ → no_key_error (λ _, True) c Q) → no_key_error (λ _, φ) c Q.
Proof. intros Hc w r w' Hφ. by apply Hc. Qed.

(** A step that keeps the metrics and raises no [KeyError]. *)
Lemma no_key_error_frame {A} (P : World → Prop) (c : Run A) :
  (∀ w w', metrics w' = metrics w → P w → P w') → 
  (∀ w r w', c w = (r, w') →
     metrics w' = metrics w ∧ ∀ key, r ≠ Raise (KeyError key)) →
  no_key_error P c (λ _, P).
Proof.
  intros HP Hc w r w' Hw H. destruct (Hc w r w' H) as [Hm He].
  split; [done|]. intros a _. by apply (HP w).
Qed.

Lemma no_key_error_for_each {A} (inv : World → Prop) (body : A → Run unit) xs :
  (∀ x, x ∈ xs → no_key_error inv (body x) (λ _, inv)) →
  no_key_error inv (for_each body xs) (λ _, inv).
Proof.
  induction xs as [|x xs IH]; intros Hb; cbn [for_each].
  - intros w r w' Hw [= <- <-]. split; [done|]. by intros.
  - eapply no_key_error_bind; [apply Hb; left|].
    intros []. apply IH. intros y Hy. apply Hb. by right.
Qed.

Variable keys : list string.

Lemma has_metrics_same w w' :
  metrics w' = metrics w → has_metrics keys w → has_metrics keys w'.
Proof. intros Hm H key Hk. rewrite Hm. by apply H. Qed.

Lemma update_state_hits key u :
  key ∈ keys →
  no_key_error (has_metrics keys) (update_state key u)
               (λ _, has_metrics keys).
Proof.
  intros Hkey w r w' Hw H. unfold update_state in H.
  rewrite run_bind_unfold in H. cbn [get_metrics] in H.
  destruct (Hw key Hkey) as [us Hus]. rewrite Hus in H.
  injection H as <- <-. split; [done|]. intros _ _ k Hk. cbn [metrics].
  destruct (decide (k = key)) as [->|Hne].
  - rewrite lookup_insert_eq. eauto.
  - rewrite lookup_insert_ne by done. by apply Hw.
Qed.

Lemma lift_option_hits {A} e (o : option A) :
  (∀ key, e ≠ KeyError key) →
  no_key_error (has_metrics keys) (lift_option e o) (λ _, has_metrics keys).
Proof.
  intros He. apply no_key_error_frame; [apply has_metrics_same|].
  intros w r w' H. destruct o; injection H as <- <-; [done|].
  split; [done|]. intros key [= Hk]. by apply (He key).
Qed.

Lemma evaluate_step_hits name bs arrays k inputs :
  metric_keys name ⊆ keys →
  no_key_error (has_metrics keys) (evaluate_step name bs arrays k inputs)
               (λ _, has_metrics keys).
Proof.
  intros Hsub. unfold evaluate_step. cbn [create_feature_and_label].
  assert (∀ key, key ∈ metric_keys name → key ∈ keys) as Hin
    by (intros key; apply Hsub).
  unfold metric_keys in Hin.
  eapply no_key_error_bind.
  { apply no_key_error_frame; [apply has_metrics_same|].
    intros w r w' H. unfold slice_examples in H.
    by destruct arrays; injection H as <- <-. }
  intros logits. eapply no_key_error_bind; [by apply lift_option_hits|].
  intros nll. eapply no_key_error_bind; [by apply lift_option_hits|].
  intros probs. destruct (String.eqb name "clean").
  - eapply no_key_error_bind; [by apply lift_option_hits|]. intros gce.
    repeat (eapply no_key_error_bind;
            [apply update_state_hits, Hin; set_solver|]; intros []).
    apply update_state_hits, Hin; set_solver.
  - repeat (eapply no_key_error_bind;
            [apply update_state_hits, Hin; set_solver|]; intros []).
    apply update_state_hits, Hin; set_solver.
Qed.

Lemma evaluate_steps_hits name bs arrays k steps ds :
  metric_keys name ⊆ keys →
  no_key_error (has_metrics keys) (evaluate_steps name bs arrays k steps ds)
               (λ _, has_metrics keys).
Proof.
  intros Hsub. revert k ds.
  induction steps as [|steps IH]; intros k ds; cbn [evaluate_steps].
  - intros w r w' Hw [= <- <-]. split; [done|]. by intros.
  - destruct ds as [|inputs rest].
    + intros w r w' Hw [= <- <-]. split; [done|]. by intros.
    + eapply no_key_error_bind; [by apply evaluate_step_hits|].
      intros []. apply IH.
Qed.

Lemma load_members_hits flags name members :
  no_key_error (has_metrics keys) (load_members flags name members)
               (λ _, has_metrics keys).
Proof.
  apply no_key_error_frame; [apply has_metrics_same|].
  induction members as [|m members IH]; intros w r w' H; cbn [load_members] in H.
  - by injection H as <- <-.
  - apply bind_inv in H as [(a & w1 & H1 & H)|(e & H1 & ->)].
    2: { unfold np_load in H1. by destruct (fs w !! _); simplify_eq. }
    assert (metrics w1 = metrics w) as Hm1.
    { unfold np_load in H1. by destruct (fs w !! _); simplify_eq. }
    apply bind_inv in H as [(rest & w2 & H2 & H)|(e & H2 & ->)].
    + apply IH in H2 as [Hm2 _]. injection H as <- <-.
      split; [congruence|done].
    + apply IH in H2 as [Hm2 He]. split; [congruence|done].
Qed.

Lemma evaluate_dataset_hits flags spe bs es nd n name ds :
  metric_keys name ⊆ keys → is_Some (dict_get name spe) →
  no_key_error (has_metrics keys)
               (evaluate_dataset flags spe bs es nd n name ds)
               (λ _, has_metrics keys).
Proof.
  intros Hsub [steps Hsteps]. unfold evaluate_dataset. rewrite Hsteps.
  eapply no_key_error_bind; [apply load_members_hits|]. intros arrays.
  eapply no_key_error_bind.
  { apply no_key_error_frame; [apply has_metrics_same|].
    intros w r w' H. unfold convert_members in H.
    destruct arrays; [by injection H as <- <-|].
    by destruct (TF.shape3 _); injection H as <- <-. }
  intros logits. eapply no_key_error_bind.
  { apply no_key_error_frame; [apply has_metrics_same|].
    by intros w r w' [= <- <-]. }
  intros steps'. eapply no_key_error_bind; [by apply evaluate_steps_hits|].
  intros []. apply no_key_error_frame; [apply has_metrics_same|].
  by intros w r w' [= <- <-].
Qed.

End Lookups.

Section InferenceLookups.

Variables (flags : Flags) (env : Env).

Lemma collect_logits_no_key_error m name steps it w r w' :
  collect_logits env m name steps it w = (r, w') →
  ∀ key, r ≠ Raise (KeyError key).
Proof.
  revert it w r w'. induction steps as [|steps IH]; intros it w r w';
    cbn [collect_logits].
  - by intros [= <- <-].
  - destruct it as [|inputs rest]; [by intros [= <- <-]|].
    cbn [create_feature_and_label]. intros H.
    apply bind_inv in H as [(out & w1 & H1 & H2)|(e & H1 & _)];
      [|by injection H1].
    apply bind_inv in H2 as [(outs & w2 & H2 & H3)|(e & H2 & ->)].
    + by injection H3 as <- <-.
    + by eapply IH.
Qed.

Lemma predict_dataset_hits spe es nd m n name ds :
  is_Some (dict_get name spe) →
  no_key_error (λ _, True) (predict_dataset flags env spe es nd m n name ds)
               (λ _ _, True).
Proof.
  intros [steps Hsteps] w r w' _ H. split; [|done]. intros key ->.
  unfold predict_dataset in H. rewrite Hsteps in H.
  apply bind_inv in H as [(cached & w1 & H1 & H)|(e & H1 & [=])];
    [|by injection H1].
  apply bind_inv in H as [([] & w2 & _ & H)|(e & H2 & [= <-])];
    [by injection H|].
  destruct (negb cached); [|by injection H2].
  apply bind_inv in H2 as [(steps' & w3 & _ & H2)|(e & H2 & [=])];
    [|by injection H2].
  apply bind_inv in H2 as [(parts & w4 & _ & H2)|(e & H2 & [= <-])];
    [|by eapply collect_logits_no_key_error].
  apply bind_inv in H2 as [(logits & w5 & _ & H2)|(e & H2 & [= <-])];
    [by injection H2|].
  unfold tf_concat in H2. by destruct parts; injection H2.
Qed.

Lemma write_predictions_hits tds spe ckpts :
  (∀ name, name ∈ map fst tds → is_Some (dict_get name spe)) →
  no_key_error (λ _, True) (write_predictions flags env tds spe ckpts)
               (λ _ _, True).
Proof.
  intros Hspe. unfold write_predictions.
  apply (no_key_error_for_each (λ _, True)). intros [m ckpt] _.
  unfold predict_member. apply (no_key_error_bind _ _ _ (λ _ _, True)).
  { intros w r w' _ [= <- <-]. split; [done|]. intros a _. exact I. }
  intros []. apply (no_key_error_for_each (λ _, True)).
  intros [n [name ds]] Hin. apply predict_dataset_hits, Hspe.
  apply elem_of_enumerate in Hin as [_ Hin].
  apply list_elem_of_In, in_map_iff. exists (name, ds).
  split; [done|]. by apply list_elem_of_In.
Qed.

End InferenceLookups.

Lemma build_datasets_keys env bs builders :
  no_key_error (λ _, True) (build_datasets env bs builders)
    (λ '(tds, spe) _, map fst tds = map fst builders
                      ∧ map fst spe = map fst builders).
Proof.
  induction builders as [|[name mode] builders IH]; cbn [build_datasets].
  - intros w r w' _ [= <- <-]. split; [done|]. by intros [tds spe] [= <- <-].
  - apply (no_key_error_bind _ _ _ (λ _ _, True)).
    { intros w r w' _ [= <- <-]. split; [done|]. intros a _. exact I. }
    intros []. apply (no_key_error_bind _ _ _ (λ _ _, True)).
    { intros w r w' _ H. unfold floordiv in H.
      destruct (bs =? 0)%Z; injection H as <- <-; (split; [done|]);
        intros a _; exact I. }
    intros steps. eapply no_key_error_bind; [apply IH|].
    intros [tds spe] w r w' [Ht Hs] [= <- <-]. split; [done|].
    intros [tds' spe'] [= <- <-]. cbn [map fst]. by rewrite Ht, Hs.
Qed.

Lemma dict_get_is_Some {V} key (d : list (string * V)) :
  key ∈ map fst d → is_Some (dict_get key d).
Proof.
  induction d as [|[k v] d IH]; cbn [map fst dict_get]; intros H.
  - by apply elem_of_nil in H.
  - destruct (String.eqb k key) eqn:Hk; [eauto|].
    apply elem_of_cons in H as [->|H]; [|by apply IH].
    by rewrite String.eqb_refl in Hk.
Qed.

Lemma initial_metrics_keys name :
  name ∈ ["clean"; "ood"]%string →
  ∀ key, key ∈ metric_keys name →
         is_Some (initial_metrics ["clean"; "ood"]%string !! key).
Proof.
  intros Hn key Hkey.
  apply elem_of_cons in Hn as [->|Hn];
    [|apply elem_of_cons in Hn as [->|Hn]; [|by apply elem_of_nil in Hn]].
  - vm_compute in Hkey.
    repeat (apply elem_of_cons in Hkey as [->|Hkey]; [by vm_compute; eauto|]).
    by apply elem_of_nil in Hkey.
  - vm_compute in Hkey.
    repeat (apply elem_of_cons in Hkey as [->|Hkey]; [by vm_compute; eauto|]).
    by apply elem_of_nil in Hkey.
Qed.

(** X19. Every lookup in the two dictionaries [main] builds hits:
    [steps_per_eval[name]] in the inference and evaluation loops, and every
    [metrics[...]] the evaluation updates, name entries created earlier in
    the run.  So these lookups never make [main] raise [KeyError], whatever
    the flags, the data and the files. *)
Theorem main_raises_no_key_error flags env w key :
  (main flags env w).1 ≠ Raise (KeyError key).
Proof.
  assert (no_key_error (λ _, True) (main flags env) (λ _ _, True)) as Hmain.
  2: { by eapply Hmain; [|apply surjective_pairing]. }
  assert (∀ e, no_key_error (λ _, True) (emit e) (λ _ _, True)) as Hemit.
  { intros e w1 r w2 _ [= <- <-]. split; [done|]. intros a _. exact I. }
  unfold main.
  destruct (negb _); [by intros w1 r w2 _ [= <- <-]|].
  destruct (1 <? _)%Z; [by intros w1 r w2 _ [= <- <-]|].
  do 5 (eapply no_key_error_bind; [apply Hemit|]; intros []).
  eapply no_key_error_bind; [apply build_datasets_keys|].
  intros [tds spe]. cbn [map fst]. apply no_key_error_assume.
  intros [Htds Hspe].
  set (keys := metric_keys "clean" ++ metric_keys "ood").
  apply (no_key_error_bind _ _ _ (λ _ _, True)).
  { intros w1 r w2 _ H. unfold create_model in H.
    repeat case_match; injection H as <- <-; (split; [done|]);
      intros a _; exact I. }
  intros [].
  do 7 (eapply no_key_error_bind; [apply Hemit|]; intros []).
  eapply no_key_error_bind.
  { apply write_predictions_hits. intros name Hn. apply dict_get_is_Some.
    by rewrite Hspe, <- Htds. }
  intros []. apply (no_key_error_bind _ _ _ (λ _, has_metrics keys)).
  { intros w1 r w2 _ [= <- <-]. split; [done|]. intros _ _ k Hk.
    cbn [metrics]. rewrite Htds.
    apply elem_of_app in Hk as [Hk|Hk].
    - apply (initial_metrics_keys "clean"); [left|done].
    - apply (initial_metrics_keys "ood"); [right; left|done]. }
  intros []. eapply no_key_error_bind.
  { apply (no_key_error_for_each (has_metrics keys)).
    intros [n [name ds]] Hin. apply elem_of_enumerate in Hin as [_ Hin].
    assert (name ∈ ["clean"; "ood"]%string) as Hname.
    { rewrite <- Htds. apply list_elem_of_In, in_map_iff. exists (name, ds).
      split; [done|]. by apply list_elem_of_In. }
    apply evaluate_dataset_hits.
    - intros k Hk. apply elem_of_app.
      apply elem_of_cons in Hname as [->|Hname]; [by left|].
      apply elem_of_cons in Hname as [->|Hname]; [by right|].
      by apply elem_of_nil in Hname.
    - apply dict_get_is_Some. by rewrite Hspe. }
  intros []. apply (no_key_error_bind _ _ _ (λ _ _, True)).
  { intros w1 r w2 _ [= <- <-]. split; [done|]. intros a _. exact I. }
  intros m. eapply no_key_error_weaken; [apply Hemit|done|done].
Qed.

(** ** A run of [main] from an empty cache *)

Section Returns.

Lemma returns_bind {A B} P (c : Run A) (f : A → Run B) Q R :
  returns P c Q → (∀ a, returns (Q a) (f a) R) → returns P (c ≫= f) R.
Proof.
  intros Hc Hf w Hw. destruct (Hc w Hw) as (a & w1 & H1 & Hq).
  destruct (Hf a w1 Hq) as (b & w2 & H2 & Hr).
  exists b, w2. split; [|done]. by rewrite (bind_ok _ _ _ _ _ H1).
Qed.

(** A step that returns and touches neither the files nor the metrics. *)
Lemma returns_frame {A} (P : World → Prop) (c : Run A) :
  (∀ w w', fs w' = fs w → metrics w' = metrics w → P w → P w') →
  (∀ w, ∃ a w', c w = (Ok a, w') ∧ fs w' = fs w ∧ metrics w' = metrics w) →
  returns P c (λ _, P).
Proof.
  intros HP Hc w Hw. destruct (Hc w) as (a & w' & Hrun & Hfs & Hm).
  exists a, w'. split; [done|]. by apply (HP w).
Qed.

Lemma returns_emit (P : World → Prop) e :
  (∀ w w', fs w' = fs w → metrics w' = metrics w → P w → P w') →
  returns P (emit e) (λ _, P).
Proof. intros HP. apply returns_frame; [done|]. intros w. by eexists _, _. Qed.

End Returns.

Section AfterInference.

Variables (flags : Flags) (env : Env) (C : nat) (bs : Z).
Variable ckpts : list string.

Hypothesis Hmodel : model_contract env C.
Hypothesis Hbs : (0 < bs)%Z.
Hypothesis Hckpts : ckpts ≠ [].

Lemma member_outputs_shape ckpt steps ds :
  full_batches C bs steps ds →
  length (member_outputs env ckpt steps ds) = (Z.to_nat steps * Z.to_nat bs)%nat
  ∧ Forall (λ row, length row = C) (member_outputs env ckpt steps ds).
Proof.
  intros [Hsteps Hall]. unfold member_outputs. split.
  - rewrite (length_inferred_rows env _ _ (Z.to_nat bs)).
    + rewrite length_take. f_equal. lia.
    + intros inputs. apply Hmodel.
    + eapply Forall_impl; [exact Hall|]. by intros b [? _].
  - apply Forall_concat, Forall_map, Forall_true. intros b. apply Hmodel.
Qed.

Lemma cached_arrays_shape steps ds :
  full_batches C bs steps ds →
  TF.shape3 (map (λ ckpt, member_outputs env ckpt steps ds) ckpts)
  = Some (length ckpts, (Z.to_nat steps * Z.to_nat bs)%nat, C).
Proof.
  intros Hfull. apply shape3_iff. split.
  - split; [by rewrite length_map|]. split.
    + destruct ckpts; [done|simpl; lia].
    + apply Forall_map, Forall_true. intros ckpt.
      by apply member_outputs_shape.
  - destruct Hfull as [Hsteps _]. nia.
Qed.

Lemma cached_arrays_files name steps ds w :
  (∀ m ckpt, ckpts !! m = Some ckpt →
     fs w !! cache_filename flags name m
     = Some (member_outputs env ckpt steps ds)) →
  Forall2 (λ m a, fs w !! cache_filename flags name m = Some a)
          (seq 0 (length ckpts))
          (map (λ ckpt, member_outputs env ckpt steps ds) ckpts).
Proof.
  intros Hfiles. apply Forall2_same_length_lookup. split.
  - by rewrite length_seq, length_map.
  - intros i m a Hm Ha. apply lookup_seq in Hm as [-> Hi].
    rewrite list_lookup_fmap in Ha.
    destruct (ckpts !! i) as [ckpt|] eqn:Hckpt; [|done].
    injection Ha as <-. by apply Hfiles.
Qed.

(** The evaluation of a dataset whose files the inference phase wrote. *)
Lemma evaluate_dataset_after_inference spe nd n name ds steps w :
  dict_get name spe = Some steps →
  full_batches C bs steps ds →
  (∀ m ckpt, ckpts !! m = Some ckpt →
     fs w !! cache_filename flags name m
     = Some (member_outputs env ckpt steps ds)) →
  (∀ key, key ∈ metric_keys name → is_Some (metrics w !! key)) →
  ∃ w', evaluate_dataset flags spe bs (length ckpts) nd n name ds w = (Ok tt, w')
        ∧ fs w' = fs w
        ∧ scored name (take (Z.to_nat steps) ds) (metrics w) (metrics w')
        ∧ ∀ key, key ∉ metric_keys name → metrics w' !! key = metrics w !! key.
Proof.
  intros Hspe Hfull Hfiles Hkeys.
  destruct (evaluate_dataset_ok flags spe (Z.to_nat steps * Z.to_nat bs) C bs
              (length ckpts) nd n name ds steps
              (map (λ ckpt, member_outputs env ckpt steps ds) ckpts) w)
    as (w' & Hrun & Hfs & Hsc); try done.
  - by apply cached_arrays_files.
  - by apply cached_arrays_shape.
  - destruct Hfull as [Hsteps _]. nia.
  - destruct Hfull as [Hsteps _]. lia.
  - by destruct Hfull.
  - exists w'. split; [done|]. split; [done|]. split; [done|].
    by apply (evaluate_dataset_feeds flags spe bs (length ckpts) nd n name ds
                w (Ok tt) w').
Qed.

End AfterInference.

Lemma returns_assume {A} (φ : Prop) (P : World → Prop) (c : Run A) Q :
  (φ → returns P c Q) → returns (λ w, φ ∧ P w) c Q.
Proof. intros Hc w [Hφ Hw]. by apply Hc. Qed.

Lemma metric_keys_disjoint key :
  key ∈ metric_keys "clean" → key ∉ metric_keys "ood".
Proof.
  intros H H'. vm_compute in H, H'.
  repeat (apply elem_of_cons in H as [->|H];
          [repeat (apply elem_of_cons in H' as [H'|H']; [discriminate H'|]);
           by apply elem_of_nil in H'|]).
  by apply elem_of_nil in H.
Qed.

Lemma scored_from name batches (m0 m m' : gmap string (list Update)) :
  (∀ key, key ∈ metric_keys name → m !! key = m0 !! key) →
  scored name batches m m' → scored name batches m0 m'.
Proof.
  intros Heq H key Hkey. destruct (H key Hkey) as (us & news & Hm & Hrest).
  exists us, news. by rewrite <- Heq.
Qed.

Lemma scored_to name batches (m m1 m2 : gmap string (list Update)) :
  (∀ key, key ∈ metric_keys name → m2 !! key = m1 !! key) →
  scored name batches m m1 → scored name batches m m2.
Proof.
  intros Heq H key Hkey.
  destruct (H key Hkey) as (us & news & Hm & Hm1 & Hrest).
  exists us, news. by rewrite Heq.
Qed.

Lemma create_model_supported flags w :
  lower (model_family flags) = "textcnn"%string
  ∨ lower (model_family flags) = "bert"%string →
  create_model flags w = emit (EvCreateModel (lower (model_family flags))) w.
Proof. unfold create_model. by intros [-> | ->]. Qed.

(** X20. A complete run.  On a GPU with one core, a supported model family,
    at least one checkpoint, a model that returns one row of [C] scores per
    input and, for both datasets, [steps >= 1] full batches with labels in
    [0, C), a run of [main] that starts without the cache files of its
    checkpoints returns; afterwards every member's two files hold that
    member's outputs, and every metric of either dataset received exactly
    one update per evaluated batch. *)
Theorem main_from_empty_cache flags env C w :
  let batch_size := (per_core_batch_size flags * num_cores flags)%Z in
  let ckpts := map drop_index_suffix
                 (glob env (os_path_join (checkpoint_dir flags) "**/*.index")) in
  let clean := test_split env "ind" in
  let ood := test_split env "ood" in
  let steps_clean := (num_test_examples env "ind" / batch_size)%Z in
  let steps_ood := (num_test_examples env "ood" / batch_size)%Z in
  use_gpu flags = true →
  (num_cores flags ≤ 1)%Z →
  (0 < batch_size)%Z →
  lower (model_family flags) = "textcnn"%string
  ∨ lower (model_family flags) = "bert"%string →
  ckpts ≠ [] →
  model_contract env C →
  full_batches C batch_size steps_clean clean →
  full_batches C batch_size steps_ood ood →
  (∀ m name, (m < length ckpts)%nat → name ∈ ["clean"; "ood"]%string →
             fs w !! cache_filename flags name m = None) →
  ∃ w', main flags env w = (Ok tt, w')
    ∧ (∀ m ckpt, ckpts !! m = Some ckpt →
         member_cached flags env clean ood steps_clean steps_ood m ckpt w')
    ∧ scored "clean" (take (Z.to_nat steps_clean) clean)
             (initial_metrics ["clean"; "ood"]%string) (metrics w')
    ∧ scored "ood" (take (Z.to_nat steps_ood) ood)
             (initial_metrics ["clean"; "ood"]%string) (metrics w').
Proof.
  intros batch_size ckpts clean ood steps_clean steps_ood
    Hgpu Hcores Hbs Hfamily Hckpts Hmodel Hclean Hood Hcold.
  set (init := initial_metrics ["clean"; "ood"]%string).
  set (cold := λ v : World, ∀ m name, (m < length ckpts)%nat →
                 name ∈ ["clean"; "ood"]%string →
                 fs v !! cache_filename flags name m = None).
  set (cached := λ v : World, ∀ m ckpt, ckpts !! m = Some ckpt →
                   member_cached flags env clean ood steps_clean steps_ood
                     m ckpt v).
  set (post := λ v : World,
         cached v
         ∧ scored "clean" (take (Z.to_nat steps_clean) clean) init (metrics v)
         ∧ scored "ood" (take (Z.to_nat steps_ood) ood) init (metrics v)).
  assert (∀ v v', fs v' = fs v → metrics v' = metrics v → cold v → cold v')
    as Hcold_stable.
  { intros v v' Hfs _ Hv m name Hm Hn. rewrite Hfs. by apply Hv. }
  assert (∀ v v', fs v' = fs v → cached v → cached v') as Hcached_stable.
  { intros v v' Hfs Hv m ckpt Hm. unfold member_cached. rewrite Hfs.
    by apply Hv. }
  assert (∀ v v', fs v' = fs v → metrics v' = metrics v → post v → post v')
    as Hpost_stable.
  { intros v v' Hfs Hm (Hc & H1 & H2). unfold post. rewrite Hm.
    split; [by apply (Hcached_stable v)|done]. }
  assert (returns cold (main flags env) (λ _, post)) as Hmain.
  2: { destruct (Hmain w Hcold) as ([] & w' & Hrun & Hpost). by exists w'. }
  unfold main. rewrite Hgpu. cbn [negb].
  apply Z.ltb_ge in Hcores. rewrite Hcores.
  do 5 (eapply returns_bind; [by apply returns_emit|]; intros []).
  fold batch_size.
  apply (returns_bind _ _ _
           (λ r v, r = ([("clean", clean); ("ood", ood)]%string,
                        [("clean", steps_clean); ("ood", steps_ood)]%string)
                   ∧ cold v)).
  { intros v Hv. eexists _, _.
    split; [apply build_datasets_steps; lia|]. split; [done|].
    by apply (Hcold_stable v). }
  intros [tds spe]. apply returns_assume. intros [= -> ->].
  eapply returns_bind.
  { apply returns_frame; [exact Hcold_stable|]. intros v.
    rewrite create_model_supported by done. by eexists _, _. }
  intros [].
  do 7 (eapply returns_bind; [by apply returns_emit|]; intros []).
  fold ckpts.
  apply (returns_bind _ _ _ (λ _, cached)).
  { intros v Hv.
    destruct (write_predictions_cold flags env clean ood steps_clean steps_ood
                ckpts _ _ eq_refl eq_refl (proj1 Hclean) (proj1 Hood) v)
      as (v' & Hrun & Hfiles).
    - intros m ckpt Hm. left.
      assert (m < length ckpts)%nat as Hlt by (by eapply lookup_lt_Some).
      split; apply Hv; try done; [left|right; left].
    - by exists tt, v'. }
  intros [].
  apply (returns_bind _ _ _ (λ _ v, cached v ∧ metrics v = init)).
  { intros v Hv. eexists tt, _. split; [done|]. split; [|done].
    by apply (Hcached_stable v). }
  intros [].
  change (enumerate [("clean"%string, clean); ("ood"%string, ood)])
    with [(0%nat, ("clean"%string, clean)); (1%nat, ("ood"%string, ood))].
  cbn [for_each length].
  apply (returns_bind _ _ _ (λ _, post)).
  2: { intros []. eapply returns_bind.
       { apply returns_frame; [exact Hpost_stable|]. intros v.
         by eexists _, _. }
       intros m. by apply returns_emit. }
  apply (returns_bind _ _ _
           (λ _ v, cached v
                   ∧ scored "clean" (take (Z.to_nat steps_clean) clean) init
                            (metrics v)
                   ∧ ∀ key, key ∉ metric_keys "clean" →
                            metrics v !! key = init !! key)).
  - intros v [Hv Hm].
    destruct (evaluate_dataset_after_inference flags env C batch_size ckpts
                Hmodel Hbs Hckpts
                [("clean", steps_clean); ("ood", steps_ood)]%string
                2 0 "clean" clean steps_clean v)
      as (v' & Hrun & Hfs & Hsc & Hother); try done.
    + intros m ckpt Hmc. by apply Hv.
    + intros key Hkey. rewrite Hm.
      apply (initial_metrics_keys "clean"); [left|done].
    + exists tt, v'. split; [done|]. rewrite Hm in Hsc, Hother.
      split; [by apply (Hcached_stable v)|done].
  - intros []. apply (returns_bind _ _ _ (λ _, post)).
    2: { intros []. intros v Hv. by exists tt, v. }
    intros v (Hv & Hsc & Hsame).
    destruct (evaluate_dataset_after_inference flags env C batch_size ckpts
                Hmodel Hbs Hckpts
                [("clean", steps_clean); ("ood", steps_ood)]%string
                2 1 "ood" ood steps_ood v)
      as (v' & Hrun & Hfs & Hsc' & Hother); try done.
    + intros m ckpt Hmc. by apply Hv.
    + intros key Hkey. rewrite Hsame.
      * apply (initial_metrics_keys "ood"); [right; left|done].
      * intros Hc. by apply metric_keys_disjoint in Hc.
    + exists tt, v'. split; [done|].
      split; [by apply (Hcached_stable v)|]. split.
      * eapply scored_to; [|exact Hsc]. intros key Hkey.
        apply Hother. by apply metric_keys_disjoint.
      * eapply scored_from; [|exact Hsc']. intros key Hkey.
        apply Hsame. intros Hc. by apply metric_keys_disjoint in Hc.
Qed.

Lemma main_from_empty_cache_witness :
  ∃ w', main Scenario.flags Scenario.env Scenario.empty_world = (Ok tt, w')
        ∧ scored "ood" (take 2 Scenario.batches)
                 (initial_metrics ["clean"; "ood"]%string) (metrics w').
Proof.
  assert (valid_labels 2 [0; 1]%Z ∧ valid_labels 2 [1; 0]%Z) as [Hv1 Hv2]
    by (split; (constructor; [split; lia | constructor; [split; lia | constructor]])).
  assert (full_batches 2 2 2 Scenario.batches) as Hfull.
  { split; [cbn; lia|]. cbn.
    constructor; [split; [reflexivity|exact Hv1]|].
    constructor; [split; [reflexivity|exact Hv2]|constructor]. }
  destruct (main_from_empty_cache Scenario.flags Scenario.env 2
              Scenario.empty_world) as (w' & Hrun & _ & _ & Hood).
  - reflexivity.
  - cbn. lia.
  - cbn. lia.
  - left. reflexivity.
  - discriminate.
  - intros wt inputs. cbn. rewrite length_map. split; [reflexivity|].
    apply Forall_map, Forall_true. reflexivity.
  - exact Hfull.
  - exact Hfull.
  - intros m name _ _. reflexivity.
  - exists w'. split; [exact Hrun|exact Hood].
Defined.

(** A program that returns, followed by one whose outcome is known. *)
Lemma returns_bind_outcome {A B} P (c : Run A) (f : A → Run B) Q
    (R : Result B → World → Prop) :
  returns P c Q → (∀ a w, Q a w → R (f a w).1 (f a w).2) →
  ∀ w, P w → R ((c ≫= f) w).1 ((c ≫= f) w).2.
Proof.
  intros Hc Hf w Hw. destruct (Hc w Hw) as (a & w1 & H1 & Hq).
  rewrite (bind_ok _ _ _ _ _ H1). by apply Hf.
Qed.

(** Without members there is no example axis to slice. *)
Lemma evaluate_dataset_no_member flags spe bs nd n name ds steps w :
  dict_get name spe = Some steps →
  (1 ≤ Z.to_nat steps)%nat → ds ≠ [] →
  evaluate_dataset flags spe bs 0 nd n name ds w
  = (Raise InvalidArgumentError, w).
Proof.
  intros Hspe Hsteps Hds. unfold evaluate_dataset. rewrite Hspe.
  cbn [seq load_members lift_option].
  rewrite run_bind_unfold. cbn [mret run_ret].
  rewrite run_bind_unfold. cbn [convert_members mret run_ret].
  rewrite run_bind_unfold. cbn [mret run_ret].
  rewrite run_bind_unfold.
  destruct (Z.to_nat steps) as [|k]; [lia|].
  destruct ds as [|inputs rest]; [done|].
  cbn [evaluate_steps]. rewrite run_bind_unfold.
  unfold evaluate_step. cbn [create_feature_and_label].
  by rewrite run_bind_unfold.
Qed.

(** X21. An empty checkpoint directory is not detected up front.  With no
    [*.index] file the inference loop does nothing and the metrics are set
    up; the failure comes from the first evaluation step, where the empty
    tensor of member logits has no example axis to slice.  No file is
    written and no metric is updated. *)
Theorem main_without_checkpoints flags env w :
  let batch_size := (per_core_batch_size flags * num_cores flags)%Z in
  use_gpu flags = true →
  (num_cores flags ≤ 1)%Z →
  batch_size ≠ 0%Z →
  lower (model_family flags) = "textcnn"%string
  ∨ lower (model_family flags) = "bert"%string →
  glob env (os_path_join (checkpoint_dir flags) "**/*.index") = [] →
  (1 ≤ Z.to_nat (num_test_examples env "ind" / batch_size))%nat →
  test_split env "ind" ≠ [] →
  ∃ w', main flags env w = (Raise InvalidArgumentError, w')
        ∧ fs w' = fs w
        ∧ metrics w' = initial_metrics ["clean"; "ood"]%string
        ∧ ∃ evs, trace w' = trace w ++ evs ∧ Forall quiet_event evs.
Proof.
  intros batch_size Hgpu Hcores Hbs Hfamily Hglob Hsteps Hds.
  set (init := initial_metrics ["clean"; "ood"]%string).
  set (P := λ v : World, fs v = fs w).
  set (R := λ (r : Result unit) (v : World),
         r = Raise InvalidArgumentError ∧ fs v = fs w ∧ metrics v = init).
  assert (∀ v, P v → R (main flags env v).1 (main flags env v).2) as Hmain.
  2: { destruct (main flags env w) as [r w'] eqn:Hrun.
       pose proof (Hmain w eq_refl) as (Hr & Hfs & Hm).
       rewrite Hrun in Hr, Hfs, Hm. cbn [fst snd] in Hr, Hfs, Hm. subst r.
       exists w'. split; [done|]. split; [done|]. split; [done|].
       pose proof (main_quiet flags env w) as Hq. cbn zeta in Hq.
       rewrite Hglob, Hrun in Hq. apply Hq.
       cbn [length]. intros m name Hm'. lia. }
  assert (∀ v v', fs v' = fs v → metrics v' = metrics v → P v → P v') as HP.
  { unfold P. intros v v' Hfs _ Hv. congruence. }
  unfold main. rewrite Hgpu. cbn [negb].
  apply Z.ltb_ge in Hcores. rewrite Hcores.
  fold batch_size. rewrite Hglob. cbn [map length].
  do 5 (apply (returns_bind_outcome P _ _ (λ _, P) R);
        [by apply returns_emit|]; intros []; cbn beta).
  apply (returns_bind_outcome P _ _
           (λ r v, r = ([("clean", test_split env "ind");
                         ("ood", test_split env "ood")]%string,
                        [("clean", num_test_examples env "ind" / batch_size);
                         ("ood", num_test_examples env "ood" / batch_size)]%string%Z)
                   ∧ P v) R).
  { intros v Hv. eexists _, _.
    split; [by apply build_datasets_steps|]. split; [done|].
    by apply (HP v). }
  intros [tds spe] v [[= -> ->] Hv]. revert v Hv.
  apply (returns_bind_outcome P _ _ (λ _, P) R).
  { apply returns_frame; [exact HP|]. intros v.
    rewrite create_model_supported by done. by eexists _, _. }
  intros []; cbn beta.
  do 7 (apply (returns_bind_outcome P _ _ (λ _, P) R);
        [by apply returns_emit|]; intros []; cbn beta).
  apply (returns_bind_outcome P _ _ (λ _, P) R).
  { intros v Hv. by exists tt, v. }
  intros []; cbn beta.
  apply (returns_bind_outcome P _ _ (λ _ v, P v ∧ metrics v = init) R).
  { intros v Hv. eexists tt, _. split; [done|]. by split. }
  intros [] v [Hv Hm].
  change (enumerate [("clean"%string, test_split env "ind");
                     ("ood"%string, test_split env "ood")])
    with [(0%nat, ("clean"%string, test_split env "ind"));
          (1%nat, ("ood"%string, test_split env "ood"))].
  cbn [for_each]. rewrite !run_bind_unfold.
  by rewrite (evaluate_dataset_no_member flags _ batch_size 2 0 "clean" _
                (num_test_examples env "ind" / batch_size)%Z).
Qed.

Lemma main_without_checkpoints_witness :
  ∃ w', main Scenario.flags
          {| num_test_examples := λ _, 5%Z;
             test_split := λ _, Scenario.batches;
             glob := λ _, [];
             model_call := λ _ inputs, map (λ _, [2; 0]) inputs |}
          Scenario.empty_world
        = (Raise InvalidArgumentError, w')
        ∧ fs w' = fs Scenario.empty_world.
Proof.
  destruct (main_without_checkpoints Scenario.flags
              {| num_test_examples := λ _, 5%Z;
                 test_split := λ _, Scenario.batches;
                 glob := λ _, [];
                 model_call := λ _ inputs, map (λ _, [2; 0]) inputs |}
              Scenario.empty_world) as (w' & Hrun & Hfs & _).
  - reflexivity.
  - cbn. lia.
  - cbn. lia.
  - left. reflexivity.
  - reflexivity.
  - vm_compute. lia.
  - discriminate.
  - exists w'. split; [exact Hrun|exact Hfs].
Defined.
